(** * opencode-manager: supervisor, port allocator, registry and event hub

    A shallow embedding of [src/opencode.ts], [src/registry.ts] and
    [src/events.ts].  The asynchronous functions of the supervisor are
    written in a small resumption monad ([Task]): module state is read and
    written through explicit nodes, every interaction with the runtime or
    the operating system is a [Call] answered by a [World], and the
    [await]s on real I/O (a request, a listener, a timer, a module load)
    are the suspension points at which other tasks may run.  An [await] on
    a promise of the program's own async functions adds no suspension
    point of its own: the callee's are the ones that count.  The event
    hub, whose forwarding loop is unbounded and driven by external events,
    is a transition system over its two module-level maps.

    The JavaScript [Map]s are finite maps keyed by project paths.  So
    is the registry, an object used as a map, as far as its declared
    type goes: [ProjectRegistry] reads [this.registry[projectPath]] as
    the entry stored under the path, if any.  That is what the object
    answers for every path except the few that name a member of
    [Object.prototype]; [Plain] embeds the registry and [stopServer]
    over the object as it is at run time, for those paths too. *)

From Stdlib Require Import ZArith Lia Ascii String DecimalString Sorting.Sorted.
From Stdlib Require Import Sorting.Permutation.
From stdpp Require Import base option list gmap strings.

Local Open Scope Z_scope.

(** ** Text helpers (String.prototype.includes / split / trim, parseInt) *)

Module Text.

Definition newline : ascii := "010"%char.

(** [\s] restricted to the white space an 8-bit character can be. *)
Definition is_space (c : ascii) : bool :=
  let n := nat_of_ascii c in
  ((n =? 32) || (n =? 9) || (n =? 10) || (n =? 11) || (n =? 12)
   || (n =? 13) || (n =? 160))%nat.

(** [\d] *)
Definition is_digit (c : ascii) : bool :=
  let n := nat_of_ascii c in ((48 <=? n) && (n <=? 57))%nat.

Definition digit_value (c : ascii) : Z := Z.of_nat (nat_of_ascii c) - 48.

(** [haystack.includes(needle)] *)
Fixpoint includes (needle haystack : string) : bool :=
  String.prefix needle haystack ||
  match haystack with
  | EmptyString => false
  | String _ rest => includes needle rest
  end.

(** [s.split("\n")] *)
Fixpoint split_lines (s : string) : list string :=
  match s with
  | EmptyString => [EmptyString]
  | String c rest =>
      if Ascii.eqb c newline then EmptyString :: split_lines rest
      else
        match split_lines rest with
        | line :: lines => String c line :: lines
        | [] => [String c EmptyString]
        end
  end.

(** The longest prefix of characters satisfying [p], and the rest. *)
Fixpoint span (p : ascii -> bool) (s : string) : string * string :=
  match s with
  | EmptyString => (EmptyString, EmptyString)
  | String c rest =>
      if p c then let '(a, b) := span p rest in (String c a, b)
      else (EmptyString, s)
  end.

(** Value of a string of decimal digits, most significant first. *)
Fixpoint digits_value (acc : Z) (s : string) : Z :=
  match s with
  | EmptyString => acc
  | String c rest => digits_value (10 * acc + digit_value c) rest
  end.

(** [parseInt(s, 10)]: optional white space and sign, then the longest
    run of digits; [None] is NaN.  The value is the exact integer; a
    double rounds it above 2^53, which no comparison made by the
    callers (a range check against 4000 and 5000) can observe. *)
Definition parseInt (s : string) : option Z :=
  let '(_, s1) := span is_space s in
  let '(neg, s2) :=
    match s1 with
    | String "-" r => (true, r)
    | String "+" r => (false, r)
    | _ => (false, s1)
    end in
  let '(ds, _) := span is_digit s2 in
  match ds with
  | EmptyString => None
  | _ => Some (if neg : bool then - digits_value 0 ds else digits_value 0 ds)
  end.

(** [s.trim().split(/\s+/)]: the maximal runs of non-space characters
    (for a string that is not all white space). *)
Fixpoint words_aux (cur : string) (s : string) : list string :=
  match s with
  | EmptyString =>
      match cur with EmptyString => [] | _ => [String.rev cur] end
  | String c rest =>
      if is_space c
      then match cur with
           | EmptyString => words_aux EmptyString rest
           | _ => String.rev cur :: words_aux EmptyString rest
           end
      else words_aux (String c cur) rest
  end.

Definition trim_split_ws (s : string) : list string :=
  match words_aux EmptyString s with
  | [] => [EmptyString]
  | ws => ws
  end.

(** What follows [p] in [s] when [s] starts with [p]. *)
Fixpoint strip_prefix (p s : string) : option string :=
  match p, s with
  | EmptyString, _ => Some s
  | String a p', String b s' =>
      if Ascii.eqb a b then strip_prefix p' s' else None
  | String _ _, EmptyString => None
  end.

(** [s.match(/--port\s+(\d+)/)?.[1]]: the first capture group of the
    leftmost match.  [\s+] and [\d+] are greedy and their classes are
    disjoint, so a position matches exactly when ["--port"] is followed
    by at least one space and then at least one digit. *)
Definition match_port_here (s : string) : option string :=
  match strip_prefix "--port" s with
  | Some rest =>
      let '(sp, rest') := span is_space rest in
      let '(ds, _) := span is_digit rest' in
      match sp, ds with
      | EmptyString, _ => None
      | _, EmptyString => None
      | _, _ => Some ds
      end
  | None => None
  end.

Fixpoint match_port (s : string) : option string :=
  match match_port_here s with
  | Some ds => Some ds
  | None =>
      match s with
      | EmptyString => None
      | String _ rest => match_port rest
      end
  end.

(** [n.toString()] of an integer. *)
Definition number_to_string (n : Z) : string :=
  NilZero.string_of_int (Z.to_int n).

End Text.

(** ** Data model *)

(** [ProjectEntry["status"]] *)
Inductive Status := starting | running | stopped | error.

#[global] Instance Status_eq_dec : EqDecision Status.
Proof. solve_decision. Defined.

(** [interface ProjectEntry] (registry.ts).  The two ISO time stamps are
    kept as the clock value (milliseconds) they are printed from. *)
Record ProjectEntry := {
  port : Z;
  pid : Z;
  status : Status;
  hasTUI : bool;
  tmuxSession : option string;
  tmuxWindow : option string;
  tmuxPane : option string;
  sessionId : option string;
  startedAt : Z;
  lastActivity : Z;
}.

(** [Omit<ProjectEntry, "startedAt" | "lastActivity">] *)
Record NewEntry := {
  n_port : Z;
  n_pid : Z;
  n_status : Status;
  n_hasTUI : bool;
  n_tmuxSession : option string;
  n_tmuxWindow : option string;
  n_tmuxPane : option string;
  n_sessionId : option string;
}.

(** [Partial<ProjectEntry>]: an absent key is [None]; for the nullable
    fields [Some None] is an explicit [null]. *)
Record Updates := {
  u_port : option Z;
  u_pid : option Z;
  u_status : option Status;
  u_hasTUI : option bool;
  u_tmuxSession : option (option string);
  u_tmuxWindow : option (option string);
  u_tmuxPane : option (option string);
  u_sessionId : option (option string);
  u_startedAt : option Z;
}.

(** [{ ...existing, ...updates, lastActivity: now }] *)
Definition merge_updates (existing : ProjectEntry) (u : Updates) (now : Z)
  : ProjectEntry :=
  {| port := default (port existing) (u_port u);
     pid := default (pid existing) (u_pid u);
     status := default (status existing) (u_status u);
     hasTUI := default (hasTUI existing) (u_hasTUI u);
     tmuxSession := default (tmuxSession existing) (u_tmuxSession u);
     tmuxWindow := default (tmuxWindow existing) (u_tmuxWindow u);
     tmuxPane := default (tmuxPane existing) (u_tmuxPane u);
     sessionId := default (sessionId existing) (u_sessionId u);
     startedAt := default (startedAt existing) (u_startedAt u);
     lastActivity := now |}.

(** A [ChildProcess] object: its identity and its [pid], which is
    [undefined] when the operating system could not start the command. *)
Record ChildProcess := { handle : nat; proc_pid : option Z }.

Inductive Signal := SIGTERM | SIGKILL.

(** A parsed JSON value.  Number literals keep their text; an object keeps
    its members in source order. *)
#[local] Unset Elimination Schemes.
Inductive Json :=
| JNull
| JBool (b : bool)
| JNumber (literal : string)
| JString (s : string)
| JArray (items : list Json)
| JObject (members : list (string * Json)).
#[local] Set Elimination Schemes.

(** What [response.json()] settles to. *)
Inductive Body := BodyJson (data : Json) | BodyInvalid.

Record Response := { http_status : Z; body : Body }.

(** [response.ok]: the status is in the range 200-299. *)
Definition ok (r : Response) : bool :=
  (200 <=? http_status r) && (http_status r <=? 299).

Inductive FetchResult := FetchRejected | FetchResponse (r : Response).

(** [server.listen(port, "127.0.0.1")]: the ['listening'] event (after
    which the probe closes the server again) or an ['error'] with its
    code. *)
Inductive ListenResult := Listening | ListenError (code : string).

(** [execSync("ps aux", ...)] *)
Inductive ExecResult := ExecOutput (stdout : string) | ExecThrows.

(** [process.kill(pid, signal)] *)
Inductive KillResult := KillDelivered | KillThrows.

(** [spawn("opencode", ...)]: the [ChildProcess] it returns, also when
    the command could not be started and the failure is one the runtime
    reports through the ['error'] event ([EACCES], [EAGAIN], [EMFILE],
    [ENFILE], [ENOENT]); or the exception the call throws for any other
    failure of the operating system and for options it refuses. *)
Inductive SpawnResult := Spawned (proc : ChildProcess) | SpawnThrows.

Inductive Level := Debug | Info | Warn | LogError.

Inductive LogValue :=
| VString (s : string)
| VNumber (n : Z)
| VNumbers (ns : list Z)
| VNull.

(** Values the supervisor throws, or catches from the runtime. *)
Inductive Error :=
| PortExhausted (startPort maxPort : Z)
    (* Error(`No available ports found in range ...`) *)
| HealthTimeout (port timeoutMs : Z)
    (* Error(`Server on port ... did not start within ...ms`) *)
| NetworkError      (* fetch rejected *)
| SyntaxError       (* response.json() rejected *)
| TypeError         (* property read on null *)
| ExecFailed        (* execSync threw *)
| KillFailed        (* process.kill threw *)
| SpawnError.       (* spawn threw *)

(** *** Interactions with the runtime and the operating system *)

Inductive Query :=
| DateNow
| Fetch (port : Z)
    (* await fetch(`http://localhost:${port}/global/health`), then for an
       ok response await response.json(); no module state is touched
       between the two, so they are one suspension here *)
| Listen (port : Z)
| SetTimeout (ms : Z)          (* await new Promise(r => setTimeout(r, ms)) *)
| ImportModule                 (* await import("./opencode.ts") *)
| Spawn (cwd : string) (port : Z)
    (* spawn("opencode", ["serve", "--port", port.toString()], {cwd, ...}) *)
| OnError (proc : ChildProcess) (projectPath : string) (port : Z)
    (* proc.on("error", ...) in startServer(projectPath), on port *)
| OnExit (proc : ChildProcess) (projectPath : string) (port : Z)
    (* proc.on("exit", ...) likewise *)
| ProcKill (proc : ChildProcess) (sig : Signal)
    (* proc.kill(sig), which answers whether the signal was sent *)
| ProcessKill (target : Z) (sig : Signal)
    (* process.kill(pid, sig), which throws when it was not *)
| ExecPs                       (* execSync("ps aux", { encoding: "utf-8" }) *)
| Log (level : Level) (msg : string) (fields : list (string * LogValue)).

Definition answer (q : Query) : Type :=
  match q with
  | DateNow => Z
  | Fetch _ => FetchResult
  | Listen _ => ListenResult
  | Spawn _ _ => SpawnResult
  | ProcKill _ _ => bool
  | ProcessKill _ _ => KillResult
  | ExecPs => ExecResult
  | SetTimeout _ | ImportModule | OnError _ _ _ | OnExit _ _ _ | Log _ _ _ => unit
  end.

(** The queries behind which an [await] really suspends the caller. *)
Definition is_await (q : Query) : bool :=
  match q with
  | Fetch _ | Listen _ | SetTimeout _ | ImportModule => true
  | _ => false
  end.

(** The module-level state of registry.ts ([registry], [nextPort]) and of
    opencode.ts ([processes]).  Keys are project paths. *)
Record Mem := {
  registry : gmap string ProjectEntry;
  nextPort : Z;
  processes : gmap string ChildProcess;
}.

Definition initial_mem : Mem :=
  {| registry := ∅; nextPort := 4097; processes := ∅ |}.

Definition set_registry (f : gmap string ProjectEntry -> gmap string ProjectEntry)
  (m : Mem) : Mem :=
  {| registry := f (registry m); nextPort := nextPort m;
     processes := processes m |}.

Definition set_nextPort (n : Z) (m : Mem) : Mem :=
  {| registry := registry m; nextPort := n; processes := processes m |}.

Definition set_processes (f : gmap string ChildProcess -> gmap string ChildProcess)
  (m : Mem) : Mem :=
  {| registry := registry m; nextPort := nextPort m;
     processes := f (processes m) |}.

(** ** Tasks *)

(** A computation of the single JavaScript thread.  [Stall] marks the
    exhausted fuel of a loop whose bound is a property of the clock. *)
Inductive Task (R : Type) : Type :=
| Ret (r : R)
| Throw (e : Error)
| Read (k : Mem -> Task R)
| Modify (f : Mem -> Mem) (t : Task R)
| Call (q : Query) (k : answer q -> Task R)
| Stall.

Arguments Ret {R} r.
Arguments Throw {R} e.
Arguments Read {R} k.
Arguments Modify {R} f t.
Arguments Call {R} q k.
Arguments Stall {R}.

Fixpoint bind {A B} (t : Task A) (k : A -> Task B) : Task B :=
  match t with
  | Ret a => k a
  | Throw e => Throw e
  | Read f => Read (fun m => bind (f m) k)
  | Modify f t' => Modify f (bind t' k)
  | Call q f => Call q (fun a => bind (f a) k)
  | Stall => Stall
  end.

(** [try { t } catch (e) { h e }] *)
Fixpoint try_catch {A} (t : Task A) (h : Error -> Task A) : Task A :=
  match t with
  | Ret a => Ret a
  | Throw e => h e
  | Read f => Read (fun m => try_catch (f m) h)
  | Modify f t' => Modify f (try_catch t' h)
  | Call q f => Call q (fun a => try_catch (f a) h)
  | Stall => Stall
  end.

#[global] Instance Task_ret : MRet Task := fun _ r => Ret r.
#[global] Instance Task_bind : MBind Task := fun _ _ k t => bind t k.

Definition call (q : Query) : Task (answer q) := Call q Ret.
Definition modify (f : Mem -> Mem) : Task unit := Modify f (Ret tt).
Definition read : Task Mem := Read Ret.
Definition log (l : Level) (msg : string) (fields : list (string * LogValue))
  : Task unit := call (Log l msg fields).

(** *** Running tasks against a world *)

(** A world answers the query made at each tick and says how much time
    passes there.  Every query is answered: a request that never settles
    is not a behaviour of these worlds. *)
Record World := {
  respond : nat -> forall q : Query, answer q;
  elapse : nat -> N;
}.

Record Event := Ev { ev_query : Query; ev_answer : answer ev_query }.

Record Sys := {
  mem : Mem;
  clock : Z;
  tick : nat;
  trace : list Event;
}.

Inductive Outcome (R : Type) :=
| Resolved (r : R)
| Rejected (e : Error)
| Stalled.

Arguments Resolved {R} r.
Arguments Rejected {R} e.
Arguments Stalled {R}.

(** [Date.now()] reads the clock; everything else is the world's. *)
Definition reply (w : World) (s : Sys) (q : Query) : answer q :=
  match q as q0 return answer q0 with
  | DateNow => clock s
  | q0 => respond w (tick s) q0
  end.

(** Time a query takes: what the world lets pass, and for a timer no less
    than its delay. *)
Definition duration (w : World) (s : Sys) (q : Query) : Z :=
  Z.of_N (elapse w (tick s)) +
  match q with SetTimeout ms => Z.max 0 ms | _ => 0 end.

Definition after_call (w : World) (s : Sys) (q : Query) : Sys :=
  {| mem := mem s;
     clock := clock s + duration w s q;
     tick := S (tick s);
     trace := trace s ++ [Ev q (reply w s q)] |}.

Definition with_mem (f : Mem -> Mem) (s : Sys) : Sys :=
  {| mem := f (mem s); clock := clock s; tick := tick s; trace := trace s |}.

Fixpoint run {R} (w : World) (t : Task R) (s : Sys) : Outcome R * Sys :=
  match t with
  | Ret r => (Resolved r, s)
  | Throw e => (Rejected e, s)
  | Read k => run w (k (mem s)) s
  | Modify f t' => run w t' (with_mem f s)
  | Call q k => run w (k (reply w s q)) (after_call w s q)
  | Stall => (Stalled, s)
  end.

(** Run the synchronous prefix of a task: up to its end or to the first
    query that suspends it. *)
Fixpoint advance {R} (w : World) (t : Task R) (s : Sys) : Task R * Sys :=
  match t with
  | Read k => advance w (k (mem s)) s
  | Modify f t' => advance w t' (with_mem f s)
  | Call q k =>
      if is_await q then (t, s)
      else advance w (k (reply w s q)) (after_call w s q)
  | _ => (t, s)
  end.

(** Settle the awaited query of a suspended task and run it to its next
    suspension. *)
Definition resume {R} (w : World) (t : Task R) (s : Sys) : Task R * Sys :=
  match t with
  | Call q k => advance w (k (reply w s q)) (after_call w s q)
  | _ => (t, s)
  end.

(** What the event loop does next: a caller begins a new task, whose
    synchronous prefix runs at once, or the awaited query of the [i]-th
    task in flight settles and that task runs to its next suspension. *)
Inductive Move (R : Type) :=
| Begin (t : Task R)
| Wake (i : nat).

Arguments Begin {R} t.
Arguments Wake {R} i.

Fixpoint play {R} (w : World) (moves : list (Move R))
  (pool : list (Task R)) (s : Sys) : list (Task R) * Sys :=
  match moves with
  | [] => (pool, s)
  | Begin t :: rest =>
      let '(t', s') := advance w t s in
      play w rest (pool ++ [t']) s'
  | Wake i :: rest =>
      match pool !! i with
      | Some t =>
          let '(t', s') := resume w t s in
          play w rest (<[i := t']> pool) s'
      | None => play w rest pool s
      end
  end.

(** ** opencode.ts: health probe and port scan *)

(** The member an object ends up with under [key]: [JSON.parse] lets the
    last occurrence of a repeated key win. *)
Fixpoint get_member (key : string) (members : list (string * Json))
  : option Json :=
  match members with
  | [] => None
  | (k, v) :: rest =>
      match get_member key rest with
      | Some v' => Some v'
      | None => if String.eqb k key then Some v else None
      end
  end.

(** [data.healthy]: a [TypeError] on [null], the member of an object,
    [undefined] ([None]) on every other value. *)
Definition read_healthy (data : Json) : Task (option Json) :=
  match data with
  | JNull => Throw TypeError
  | JObject members => Ret (get_member "healthy" members)
  | _ => Ret None
  end.

(** [v === true] *)
Definition strictly_true (v : option Json) : bool :=
  match v with
  | Some (JBool true) => true
  | _ => false
  end.

Definition checkHealth (port : Z) : Task bool :=
  try_catch
    (response ← call (Fetch port);
     match response with
     | FetchRejected => Throw NetworkError
     | FetchResponse r =>
         if ok r then
           match body r with
           | BodyInvalid => Throw SyntaxError
           | BodyJson data =>
               healthy ← read_healthy data;
               Ret (strictly_true healthy)
           end
         else Ret false
     end)
    (fun _ => Ret false).

Definition isPortAvailable (port : Z) : Task bool :=
  r ← call (Listen port);
  match r with
  | Listening => Ret true
  | ListenError code =>
      if String.eqb code "EADDRINUSE" then Ret false else Ret false
  end.

(** The body of [for (let port = startPort; port <= maxPort; port++)],
    over the candidates that remain. *)
Fixpoint findAvailablePort_from (candidates : list Z) (startPort maxPort : Z)
  : Task Z :=
  match candidates with
  | [] => Throw (PortExhausted startPort maxPort)
  | port :: rest =>
      available ← isPortAvailable port;
      if available : bool then Ret port
      else findAvailablePort_from rest startPort maxPort
  end.

Definition findAvailablePort (startPort maxPort : Z) : Task Z :=
  findAvailablePort_from (seqZ startPort (maxPort - startPort + 1))
    startPort maxPort.

(** The default of the [maxPort] parameter. *)
Definition default_maxPort : Z := 4196.

(** [ports.sort((a, b) => a - b)] *)
Fixpoint insert_ascending (x : Z) (l : list Z) : list Z :=
  match l with
  | [] => [x]
  | y :: l' => if x <=? y then x :: l else y :: insert_ascending x l'
  end.

Definition sort_ascending (l : list Z) : list Z :=
  foldr insert_ascending [] l.

(** What one line of the process table contributes to [ports]. *)
Definition scan_line (line : string) : option Z :=
  if Text.includes "opencode serve" line
     && Text.includes "--port" line
     && negb (Text.includes "grep" line)
  then
    match Text.match_port line with
    | Some digits =>
        match Text.parseInt digits with
        | Some port =>
            if (4000 <=? port) && (port <=? 5000) then Some port else None
        | None => None
        end
    | None => None
    end
  else None.

(** The [try] block of [scanExistingOpenCodePorts] once [ps aux] has
    answered: the loop over the lines, then the sort. *)
Definition scan_output (psOutput : string) : list Z :=
  let lines := Text.split_lines psOutput in
  sort_ascending (omap scan_line lines).

Definition scanExistingOpenCodePorts : Task (list Z) :=
  try_catch
    (ps ← call ExecPs;
     match ps with
     | ExecThrows => Throw ExecFailed
     | ExecOutput psOutput => Ret (scan_output psOutput)
     end)
    (fun _ =>
       log LogError "Error scanning for OpenCode processes" [];;
       Ret []).

(** ** registry.ts: [class ProjectRegistry] *)

(** [this.registry[projectPath]] at its declared type,
    [ProjectEntry | undefined]. *)

Module ProjectRegistry.

Definition get (projectPath : string) : Task (option ProjectEntry) :=
  m ← read; Ret (registry m !! projectPath).


Definition allocatePort : Task Z :=
  call ImportModule;;
  m ← read;
  allocatedPort ← findAvailablePort (nextPort m) default_maxPort;
  modify (set_nextPort (allocatedPort + 1));;
  Ret allocatedPort.

(** [Math.max(...existingPorts)] of a non-empty array. *)
Definition highest (p : Z) (ps : list Z) : Z := foldr Z.max p ps.

Definition initializePortAllocation : Task unit :=
  call ImportModule;;
  existingPorts ← scanExistingOpenCodePorts;
  match existingPorts with
  | p :: ps =>
      let highestPort := highest p ps in
      modify (set_nextPort (Z.max 4097 (highestPort + 1)));;
      m ← read;
      log Info "Found existing OpenCode processes"
        [("count", VNumber (Z.of_nat (length existingPorts)));
         ("ports", VNumbers existingPorts);
         ("nextPort", VNumber (nextPort m))]
  | [] =>
      log Info "No existing OpenCode processes found. Starting at port 4097" []
  end.

(** [{ ...entry, startedAt: now, lastActivity: now }] *)
Definition stamp (entry : NewEntry) (now : Z) : ProjectEntry :=
  {| port := n_port entry; pid := n_pid entry; status := n_status entry;
     hasTUI := n_hasTUI entry; tmuxSession := n_tmuxSession entry;
     tmuxWindow := n_tmuxWindow entry; tmuxPane := n_tmuxPane entry;
     sessionId := n_sessionId entry;
     startedAt := now; lastActivity := now |}.

Definition add (projectPath : string) (entry : NewEntry)
  : Task ProjectEntry :=
  now ← call DateNow;
  let fullEntry := stamp entry now in
  modify (set_registry (insert projectPath fullEntry));;
  Ret fullEntry.

Definition update (projectPath : string) (updates : Updates)
  : Task (option ProjectEntry) :=
  m ← read;
  match registry m !! projectPath with
  | None => Ret None
  | Some existing =>
      now ← call DateNow;
      let updated := merge_updates existing updates now in
      modify (set_registry (insert projectPath updated));;
      Ret (Some updated)
  end.

Definition remove (projectPath : string) : Task bool :=
  m ← read;
  match registry m !! projectPath with
  | Some _ => modify (set_registry (delete projectPath));; Ret true
  | None => Ret false
  end.

End ProjectRegistry.

(** [{ status: s }] *)
Definition status_update (s : Status) : Updates :=
  {| u_port := None; u_pid := None; u_status := Some s; u_hasTUI := None;
     u_tmuxSession := None; u_tmuxWindow := None; u_tmuxPane := None;
     u_sessionId := None; u_startedAt := None |}.

(** [{ status: "stopped", sessionId: null }] *)
Definition exit_update : Updates :=
  {| u_port := None; u_pid := None; u_status := Some stopped; u_hasTUI := None;
     u_tmuxSession := None; u_tmuxWindow := None; u_tmuxPane := None;
     u_sessionId := Some None; u_startedAt := None |}.

(** ** opencode.ts: attach processes *)

(** The pid a matching [ps aux] line contributes. *)
Definition attach_pid (port : Z) (line : string) : option Z :=
  if Text.includes "opencode attach" line
     && Text.includes ("http://localhost:" +:+ Text.number_to_string port) line
     && negb (Text.includes "grep" line)
  then
    match Text.trim_split_ws line with
    | _ :: second :: _ => Text.parseInt second
    | _ => None
    end
  else None.

Definition getAttachProcessPIDs (port : Z) : Task (list Z) :=
  try_catch
    (ps ← call ExecPs;
     match ps with
     | ExecThrows => Throw ExecFailed
     | ExecOutput psOutput =>
         Ret (omap (attach_pid port) (Text.split_lines psOutput))
     end)
    (fun _ =>
       log LogError "Error getting attach process PIDs" [("port", VNumber port)];;
       Ret []).

(** [process.kill(pid, sig)], which throws when the signal cannot be sent. *)
Definition process_kill (target : Z) (sig : Signal) : Task unit :=
  r ← call (ProcessKill target sig);
  match r with
  | KillDelivered => Ret tt
  | KillThrows => Throw KillFailed
  end.

Fixpoint kill_each (port : Z) (pids : list Z) : Task unit :=
  match pids with
  | [] => Ret tt
  | p :: rest =>
      try_catch
        (process_kill p SIGTERM;;
         log Debug "Killed attach process" [("pid", VNumber p); ("port", VNumber port)])
        (fun _ =>
           log Warn "Failed to kill attach process"
             [("pid", VNumber p); ("port", VNumber port)]);;
      kill_each port rest
  end.

Definition killAttachProcesses (port : Z) : Task unit :=
  pids ← getAttachProcessPIDs port;
  match pids with
  | [] => Ret tt
  | _ =>
      log Info "Killing attach processes"
        [("port", VNumber port); ("pids", VNumbers pids)];;
      kill_each port pids
  end.

(** ** opencode.ts: the supervisor *)

Definition isServerHealthy (port : Z) : Task bool := checkHealth port.

(** The default of [timeoutMs] and the pause between two probes. *)
Definition default_timeoutMs : Z := 15000.
Definition poll_interval : Z := 300.

(** [while (Date.now() - start < timeoutMs) { ... }].  Every round that
    does not return sleeps [poll_interval] ms, so the loop makes at most
    [timeoutMs / poll_interval + 1] rounds; [fuel] counts them. *)
Fixpoint waitForServer_loop (fuel : nat) (port start timeoutMs : Z)
  : Task unit :=
  now ← call DateNow;
  if now - start <? timeoutMs then
    match fuel with
    | O => Stall
    | S fuel' =>
        healthy ← isServerHealthy port;
        if healthy : bool then Ret tt
        else
          call (SetTimeout poll_interval);;
          waitForServer_loop fuel' port start timeoutMs
    end
  else Throw (HealthTimeout port timeoutMs).

Definition waitForServer (port timeoutMs : Z) : Task unit :=
  start ← call DateNow;
  waitForServer_loop (Z.to_nat (timeoutMs / poll_interval) + 1)
    port start timeoutMs.

(** [proc.on("error", ...)] *)
Definition errorHandler (projectPath : string) (port : Z) : Task unit :=
  log LogError "OpenCode process error"
    [("projectPath", VString projectPath); ("port", VNumber port)];;
  ProjectRegistry.update projectPath (status_update error);;
  Ret tt.

(** [proc.on("exit", (code) => ...)]; [code] is [null] after a signal. *)
Definition exitHandler (projectPath : string) (port : Z) (code : option Z)
  : Task unit :=
  log Info "OpenCode process exited"
    [("projectPath", VString projectPath); ("port", VNumber port);
     ("exitCode", from_option VNumber VNull code)];;
  modify (set_processes (delete projectPath));;
  ProjectRegistry.update projectPath exit_update;;
  Ret tt.

(** [if (proc.pid)] *)
Definition truthy_pid (proc : ChildProcess) : option Z :=
  match proc_pid proc with
  | Some n => if n =? 0 then None else Some n
  | None => None
  end.

(** [startServer] from [proc.unref()] on; the listeners on [stdout] and
    [stderr] only log. *)
Definition after_spawn (projectPath : string) (port : Z) (proc : ChildProcess)
  : Task Z :=
  call (OnError proc projectPath port);;
  call (OnExit proc projectPath port);;
  match truthy_pid proc with
  | Some proc_pid =>
      modify (set_processes (insert projectPath proc));;
      ProjectRegistry.add projectPath
        {| n_port := port; n_pid := proc_pid; n_status := starting;
           n_hasTUI := false; n_tmuxSession := None; n_tmuxWindow := None;
           n_tmuxPane := None; n_sessionId := None |};;
      try_catch
        (waitForServer port default_timeoutMs;;
         ProjectRegistry.update projectPath (status_update running);;
         log Info "Server ready"
           [("port", VNumber port); ("projectPath", VString projectPath)])
        (fun err =>
           log LogError "Server failed to start"
             [("projectPath", VString projectPath); ("port", VNumber port)];;
           ProjectRegistry.update projectPath (status_update error);;
           Throw err);;
      Ret port
  | None => Ret port
  end.

(** [startServer] from [const port = await registry.allocatePort()] on.
    An exception thrown by [spawn] leaves the function at once: the
    promise is rejected and nothing after the call has run. *)
Definition spawn_and_wait (projectPath : string) : Task Z :=
  port ← ProjectRegistry.allocatePort;
  log Info "Starting OpenCode server"
    [("projectPath", VString projectPath); ("port", VNumber port)];;
  result ← call (Spawn projectPath port);
  match result with
  | SpawnThrows => Throw SpawnError
  | Spawned proc => after_spawn projectPath port proc
  end.

Definition startServer (projectPath : string) : Task Z :=
  existing ← ProjectRegistry.get projectPath;
  match existing with
  | Some e =>
      if decide (status e = running) then
        healthy ← isServerHealthy (port e);
        if healthy : bool then Ret (port e)
        else
          ProjectRegistry.update projectPath (status_update stopped);;
          spawn_and_wait projectPath
      else spawn_and_wait projectPath
  | None => spawn_and_wait projectPath
  end.

Definition stopServer (projectPath : string) : Task bool :=
  entry ← ProjectRegistry.get projectPath;
  match entry with
  | None => Ret false
  | Some entry =>
      log Info "Stopping server"
        [("projectPath", VString projectPath); ("port", VNumber (port entry))];;
      killAttachProcesses (port entry);;
      m ← read;
      match processes m !! projectPath with
      | Some proc =>
          call (ProcKill proc SIGTERM);;
          modify (set_processes (delete projectPath))
      | None =>
          try_catch (process_kill (pid entry) SIGTERM) (fun _ => Ret tt)
      end;;
      ProjectRegistry.update projectPath (status_update stopped);;
      ProjectRegistry.remove projectPath;;
      Ret true
  end.

(** The listeners [startServer] has attached to [proc], read off the
    trace, and what the runtime runs when [proc] emits ['exit']. *)
Definition exit_listeners (tr : list Event) (proc : ChildProcess)
  (code : option Z) : list (Task unit) :=
  omap (fun ev =>
          match ev with
          | Ev (OnExit proc' projectPath port) _ =>
              if decide (handle proc' = handle proc)
              then Some (exitHandler projectPath port code) else None
          | _ => None
          end) tr.

Definition error_listeners (tr : list Event) (proc : ChildProcess)
  : list (Task unit) :=
  omap (fun ev =>
          match ev with
          | Ev (OnError proc' projectPath port) _ =>
              if decide (handle proc' = handle proc)
              then Some (errorHandler projectPath port) else None
          | _ => None
          end) tr.

(** Run listeners one after another; a listener that throws does not
    concern the ones modelled here, which never do. *)
Fixpoint run_all (w : World) (ts : list (Task unit)) (s : Sys) : Sys :=
  match ts with
  | [] => s
  | t :: rest => run_all w rest (snd (run w t s))
  end.

(** ** events.ts: the event hub *)

Module EventHub.

(** An express [Response] and an [AbortController], by identity. *)
Definition Sink := nat.
Definition Controller := nat.

(** An event of the upstream stream: its [type] tag, if any, and its
    [properties] as [JSON.stringify] prints them. *)
Record UpstreamEvent := { type : option string; properties : string }.

(** Where an invocation of [startEventForwarding] is suspended: at
    [await client.event.subscribe()] or at the read of the next event. *)
Inductive Phase := Subscribing | Streaming.

#[global] Instance Phase_eq_dec : EqDecision Phase.
Proof. solve_decision. Defined.

(** A suspended invocation: its [projectPath] and the port its client
    talks to.  Each invocation creates one controller and is known by
    it. *)
Record Forwarder := { f_path : string; f_port : Z; f_phase : Phase }.

Record State := {
  connections : gmap string (list Sink);
    (* Map<string, Set<Response>>; a Set iterates in insertion order *)
  activeStreams : gmap string Controller;
  aborted : gset Controller;     (* the controllers whose signal is aborted *)
  next_controller : Controller;  (* names the next [new AbortController()] *)
  forwarders : gmap Controller Forwarder;
  close_listeners : list (Sink * string);   (* res.on("close", ...) *)
  timers : list string;          (* pending retry callbacks, by projectPath *)
}.

Definition initial : State :=
  {| connections := ∅; activeStreams := ∅; aborted := ∅;
     next_controller := 0%nat; forwarders := ∅; close_listeners := [];
     timers := [] |}.

(** What a transition does to the outside. *)
Inductive Output :=
| Write (res : Sink) (message : string) (threw : bool)
| LogLine (level : Level) (msg : string).

(** What the hub reads from outside: the registry, and which sinks
    throw on [res.write]. *)
Record Env := {
  env_registry : gmap string ProjectEntry;
  write_throws : Sink -> bool;
}.

Definition with_connections (f : gmap string (list Sink) -> gmap string (list Sink))
  (h : State) : State :=
  {| connections := f (connections h); activeStreams := activeStreams h;
     aborted := aborted h; next_controller := next_controller h;
     forwarders := forwarders h; close_listeners := close_listeners h;
     timers := timers h |}.

Definition with_activeStreams (f : gmap string Controller -> gmap string Controller)
  (h : State) : State :=
  {| connections := connections h; activeStreams := f (activeStreams h);
     aborted := aborted h; next_controller := next_controller h;
     forwarders := forwarders h; close_listeners := close_listeners h;
     timers := timers h |}.

Definition with_forwarders (f : gmap Controller Forwarder -> gmap Controller Forwarder)
  (h : State) : State :=
  {| connections := connections h; activeStreams := activeStreams h;
     aborted := aborted h; next_controller := next_controller h;
     forwarders := f (forwarders h); close_listeners := close_listeners h;
     timers := timers h |}.

Definition with_timers (f : list string -> list string) (h : State) : State :=
  {| connections := connections h; activeStreams := activeStreams h;
     aborted := aborted h; next_controller := next_controller h;
     forwarders := forwarders h; close_listeners := close_listeners h;
     timers := f (timers h) |}.

(** [controller.abort()] *)
Definition abort (c : Controller) (h : State) : State :=
  {| connections := connections h; activeStreams := activeStreams h;
     aborted := {[c]} ∪ aborted h; next_controller := next_controller h;
     forwarders := forwarders h; close_listeners := close_listeners h;
     timers := timers h |}.

(** [set.add(res)] and [set.delete(res)] *)
Definition set_add (res : Sink) (l : list Sink) : list Sink :=
  if decide (res ∈ l) then l else l ++ [res].

Definition set_delete (res : Sink) (l : list Sink) : list Sink :=
  filter (fun r => r ≠ res) l.

(** The synchronous start of [startEventForwarding]: up to
    [await client.event.subscribe()], or the early return. *)
Definition startEventForwarding (env : Env) (projectPath : string) (h : State)
  : State * list Output :=
  match env_registry env !! projectPath with
  | Some entry =>
      if decide (status entry = running) then
        let controller := next_controller h in
        let h1 :=
          {| connections := connections h;
             activeStreams := <[projectPath := controller]> (activeStreams h);
             aborted := aborted h;
             next_controller := S controller;
             forwarders :=
               <[controller := {| f_path := projectPath; f_port := port entry;
                                  f_phase := Subscribing |}]> (forwarders h);
             close_listeners := close_listeners h;
             timers := timers h |} in
        (h1, [LogLine Info "Starting event forwarding"])
      else (h, [LogLine Warn "Cannot start event forwarding: no running server"])
  | None => (h, [LogLine Warn "Cannot start event forwarding: no running server"])
  end.

Definition addConnection (env : Env) (projectPath : string) (res : Sink)
  (h : State) : State * list Output :=
  let h1 :=
    match connections h !! projectPath with
    | None => with_connections (insert projectPath []) h
    | Some _ => h
    end in
  let h2 := with_connections (alter (set_add res) projectPath) h1 in
  let '(h3, out) :=
    match activeStreams h2 !! projectPath with
    | None => startEventForwarding env projectPath h2
    | Some _ => (h2, [])
    end in
  ({| connections := connections h3; activeStreams := activeStreams h3;
      aborted := aborted h3; next_controller := next_controller h3;
      forwarders := forwarders h3;
      close_listeners := close_listeners h3 ++ [(res, projectPath)];
      timers := timers h3 |}, out).

(** The listener [addConnection] puts on ['close']. *)
Definition closeHandler (projectPath : string) (res : Sink) (h : State)
  : State :=
  let h1 := with_connections (alter (set_delete res) projectPath) h in
  match connections h1 !! projectPath with
  | Some [] =>
      let h2 := with_connections (delete projectPath) h1 in
      match activeStreams h2 !! projectPath with
      | Some controller =>
          with_activeStreams (delete projectPath) (abort controller h2)
      | None => h2
      end
  | _ => h1
  end.

Definition sse_message (event data : string) : string :=
  "event: " +:+ event +:+ String Text.newline ("data: " +:+ data)
    +:+ String Text.newline (String Text.newline EmptyString).

(** One turn of the [for ... of projectConnections] loop. *)
Definition write_to (env : Env) (message : string) (res : Sink)
  : list Output :=
  if write_throws env res
  then [Write res message true;
        LogLine LogError "Failed to write to SSE connection"]
  else [Write res message false].

Definition broadcast (env : Env) (projectPath event data : string) (h : State)
  : list Output :=
  match connections h !! projectPath with
  | None => []
  | Some projectConnections =>
      flat_map (write_to env (sse_message event data)) projectConnections
  end.

(** The test on [eventType] in the forwarding loop. *)
Definition is_forwarded (eventType : option string) : option string :=
  match eventType with
  | Some ty =>
      if String.eqb ty "message.created"
         || String.eqb ty "message.updated"
         || String.eqb ty "message.completed"
         || String.eqb ty "part.updated"
         || String.eqb ty "permission.requested"
         || String.eqb ty "session.updated"
      then Some ty else None
  | None => None
  end.

(** The [finally] block, and the end of the invocation. *)
Definition finish (controller : Controller) (projectPath : string) (h : State)
  : State :=
  with_forwarders (delete controller)
    (with_activeStreams (delete projectPath) h).

(** The loop body, run when the stream of [controller] yields [event]. *)
Definition on_event (env : Env) (controller : Controller)
  (event : UpstreamEvent) (h : State) : State * list Output :=
  match forwarders h !! controller with
  | Some {| f_path := projectPath; f_phase := Streaming |} =>
      if decide (controller ∈ aborted h) then
        (finish controller projectPath h, [])
      else
        let out :=
          match is_forwarded (type event) with
          | Some eventType =>
              broadcast env projectPath eventType (properties event) h
          | None => []
          end in
        match connections h !! projectPath with
        | None => (finish controller projectPath h, out)
        | Some _ => (h, out)
        end
  | _ => (h, [])
  end.

(** [client.event.subscribe()] has resolved: the loop asks for its
    first event. *)
Definition on_subscribed (controller : Controller) (h : State) : State :=
  match forwarders h !! controller with
  | Some {| f_path := p; f_port := n; f_phase := Subscribing |} =>
      with_forwarders
        (insert controller {| f_path := p; f_port := n; f_phase := Streaming |}) h
  | _ => h
  end.

(** The stream is exhausted: the loop ends and [finally] runs. *)
Definition on_end (controller : Controller) (h : State) : State :=
  match forwarders h !! controller with
  | Some {| f_path := projectPath; f_phase := Streaming |} =>
      finish controller projectPath h
  | _ => h
  end.

(** [subscribe()] rejected or the stream threw: [catch], then
    [finally]. *)
Definition on_failure (controller : Controller) (h : State)
  : State * list Output :=
  match forwarders h !! controller with
  | Some f =>
      let projectPath := f_path f in
      if decide (controller ∈ aborted h) then
        (finish controller projectPath h, [])
      else
        (finish controller projectPath
           (with_timers (fun ts => ts ++ [projectPath]) h),
         [LogLine LogError "Event forwarding error"])
  | None => (h, [])
  end.

(** Remove the first pending timer of [projectPath]. *)
Fixpoint take_timer (projectPath : string) (ts : list string)
  : option (list string) :=
  match ts with
  | [] => None
  | t :: rest =>
      if decide (t = projectPath) then Some rest
      else cons t <$> take_timer projectPath rest
  end.

(** The callback given to [setTimeout(..., 5000)]. *)
Definition retry (env : Env) (projectPath : string) (h : State)
  : State * list Output :=
  match connections h !! projectPath, activeStreams h !! projectPath with
  | Some _, None => startEventForwarding env projectPath h
  | _, _ => (h, [])
  end.

Definition on_timer (env : Env) (projectPath : string) (h : State)
  : State * list Output :=
  match take_timer projectPath (timers h) with
  | Some ts => retry env projectPath (with_timers (fun _ => ts) h)
  | None => (h, [])
  end.

Definition stopEventForwarding (projectPath : string) (h : State) : State :=
  match activeStreams h !! projectPath with
  | Some controller =>
      with_activeStreams (delete projectPath) (abort controller h)
  | None => h
  end.

(** The response [res] emits ['close']: its listeners run in the order
    they were attached. *)
Definition on_close (res : Sink) (h : State) : State :=
  let mine := filter (fun l => l.1 = res) (close_listeners h) in
  foldl (fun h' l => closeHandler l.2 res h') h mine.

(** What can happen to the hub. *)
Inductive Action :=
| AddConnection (projectPath : string) (res : Sink)
| Close (res : Sink)
| SubscribeResolved (controller : Controller)
| StreamEvent (controller : Controller) (event : UpstreamEvent)
| StreamEnded (controller : Controller)
| StreamFailed (controller : Controller)
| TimerFired (projectPath : string)
| StopEventForwarding (projectPath : string).

Definition step (env : Env) (a : Action) (h : State) : State * list Output :=
  match a with
  | AddConnection projectPath res => addConnection env projectPath res h
  | Close res => (on_close res h, [])
  | SubscribeResolved c => (on_subscribed c h, [])
  | StreamEvent c event => on_event env c event h
  | StreamEnded c => (on_end c h, [])
  | StreamFailed c => on_failure c h
  | TimerFired projectPath => on_timer env projectPath h
  | StopEventForwarding projectPath => (stopEventForwarding projectPath h, [])
  end.

Fixpoint steps (env : Env) (actions : list Action) (h : State)
  : State * list Output :=
  match actions with
  | [] => (h, [])
  | a :: rest =>
      let '(h1, out1) := step env a h in
      let '(h2, out2) := steps env rest h1 in
      (h2, out1 ++ out2)
  end.

(** The invocations for [projectPath] that are still running and whose
    controller has not been aborted. *)
Definition open_streams (projectPath : string) (h : State)
  : gset Controller :=
  dom (filter (fun cf => f_path cf.2 = projectPath ∧ cf.1 ∉ aborted h)
         (forwarders h)).

End EventHub.

(** ** registry.ts: the TUI fields *)

(** [{ hasTUI: true, tmuxSession, tmuxWindow, tmuxPane }] *)
Definition tui_update (tmuxSession tmuxWindow tmuxPane : string) : Updates :=
  {| u_port := None; u_pid := None; u_status := None; u_hasTUI := Some true;
     u_tmuxSession := Some (Some tmuxSession);
     u_tmuxWindow := Some (Some tmuxWindow);
     u_tmuxPane := Some (Some tmuxPane);
     u_sessionId := None; u_startedAt := None |}.

(** [{ hasTUI: false, tmuxSession: null, tmuxWindow: null, tmuxPane: null }] *)
Definition no_tui_update : Updates :=
  {| u_port := None; u_pid := None; u_status := None; u_hasTUI := Some false;
     u_tmuxSession := Some None; u_tmuxWindow := Some None;
     u_tmuxPane := Some None;
     u_sessionId := None; u_startedAt := None |}.

Definition setTUI (projectPath tmuxSession tmuxWindow tmuxPane : string)
  : Task (option ProjectEntry) :=
  ProjectRegistry.update projectPath (tui_update tmuxSession tmuxWindow tmuxPane).

Definition clearTUI (projectPath : string) : Task (option ProjectEntry) :=
  ProjectRegistry.update projectPath no_tui_update.

(** ** opencode.ts: attach processes, continued *)

(** The test [isTUIAttached] makes on a line of the process table. *)
Definition is_attach_line (port : Z) (line : string) : bool :=
  Text.includes "opencode attach" line
  && Text.includes ("http://localhost:" +:+ Text.number_to_string port) line
  && negb (Text.includes "grep" line).

Definition isTUIAttached (port : Z) : Task bool :=
  try_catch
    (ps ← call ExecPs;
     match ps with
     | ExecThrows => Throw ExecFailed
     | ExecOutput psOutput =>
         Ret (existsb (is_attach_line port) (Text.split_lines psOutput))
     end)
    (fun _ =>
       log LogError "Error checking TUI attachment" [("port", VNumber port)];;
       Ret false).

(** The pid a line contributes in [killAllAttachProcesses], which does
    not look at the port. *)
Definition any_attach_pid (line : string) : option Z :=
  if Text.includes "opencode attach" line
     && negb (Text.includes "grep" line)
  then
    match Text.trim_split_ws line with
    | _ :: second :: _ => Text.parseInt second
    | _ => None
    end
  else None.

Fixpoint kill_every (pids : list Z) : Task unit :=
  match pids with
  | [] => Ret tt
  | p :: rest =>
      try_catch
        (process_kill p SIGTERM;;
         log Debug "Killed attach process" [("pid", VNumber p)])
        (fun _ => log Warn "Failed to kill attach process" [("pid", VNumber p)]);;
      kill_every rest
  end.

Definition killAllAttachProcesses : Task unit :=
  try_catch
    (ps ← call ExecPs;
     match ps with
     | ExecThrows => Throw ExecFailed
     | ExecOutput psOutput =>
         let pids := omap any_attach_pid (Text.split_lines psOutput) in
         match pids with
         | [] => log Debug "No attach processes to kill" []
         | _ =>
             log Info "Killing all attach processes"
               [("count", VNumber (Z.of_nat (length pids)));
                ("pids", VNumbers pids)];;
             kill_every pids
         end
     end)
    (fun _ => log LogError "Error killing all attach processes" []).

(** ** opencode.ts: status, and stopping everything *)

(** [{ healthy: boolean; port?: number }] *)
Record ServerStatus := { st_healthy : bool; st_port : option Z }.

Definition getServerStatus (projectPath : string) : Task ServerStatus :=
  entry ← ProjectRegistry.get projectPath;
  match entry with
  | None => Ret {| st_healthy := false; st_port := None |}
  | Some entry =>
      healthy ← isServerHealthy (port entry);
      Ret {| st_healthy := healthy; st_port := Some (port entry) |}
  end.










(** ** tmux.ts: the command that attaches a TUI *)

(** [sessionId] is [undefined] ([None]) or a string, and counts when it is
    not empty. *)
Definition getAttachCommand (port : Z) (sessionId : option string) : string :=
  let cmd := "opencode attach http://localhost:" +:+ Text.number_to_string port in
  match sessionId with
  | Some (String c rest) => cmd +:+ " --session " +:+ String c rest
  | _ => cmd
  end.

(** ** status-page.ts: relative time stamps *)

(** [isoString] is given as the instant it denotes, in milliseconds, as
    the registry keeps it; [toLocaleString] is the runtime's. *)
Definition formatTimestamp (toLocaleString : Z -> string) (isoString : Z)
  : Task string :=
  now ← call DateNow;
  let diffMs := now - isoString in
  let diffMins := diffMs / 60000 in
  let diffHours := diffMs / 3600000 in
  let diffDays := diffMs / 86400000 in
  if diffMins <? 1 then Ret "Just now"
  else if diffMins <? 60 then Ret (Text.number_to_string diffMins +:+ "m ago")
  else if diffHours <? 24 then Ret (Text.number_to_string diffHours +:+ "h ago")
  else if diffDays <? 7 then Ret (Text.number_to_string diffDays +:+ "d ago")
  else Ret (toLocaleString isoString).


(** ** registry.ts at run time: the registry as the object it is *)

(** [private registry: Registry = {}] is an object literal.  Read under
    a key that names a member of [Object.prototype], such an object
    answers with that member unless it has a property of its own under
    the key.  These are the names
    ([Object.getOwnPropertyNames(Object.prototype)]). *)
Definition object_prototype_names : list string :=
  ["constructor"; "__defineGetter__"; "__defineSetter__"; "hasOwnProperty";
   "__lookupGetter__"; "__lookupSetter__"; "isPrototypeOf";
   "propertyIsEnumerable"; "toString"; "valueOf"; "__proto__";
   "toLocaleString"].

Definition inherited (key : string) : bool :=
  bool_decide (key ∈ object_prototype_names).

(** [ProjectRegistry] above takes [this.registry[projectPath]] at its
    declared type: an entry or [undefined].  That is what the object
    answers for every key with [inherited key = false], as long as no
    assignment to ["__proto__"] has replaced its prototype.  This module
    embeds the class, and [stopServer] with what it calls, over the
    object as it is at run time, for every key. *)
Module Plain.

(** An object as [add] and [update] store them: the fields of an entry
    that it has, and [lastActivity], which both always write.  [add]
    writes every field; [update] spreads what it found under the key,
    which need not have been an entry.  Properties that are not fields
    of an entry (the indexed characters that spreading a string leaves)
    are not kept: nothing here reads them. *)
Record Object := { fields : Updates; stamped : Z }.

(** What [this.registry[key]] evaluates to: [undefined]; an object that
    was stored; or something else -- a member of [Object.prototype], or
    the value of a field of the object that stands in for the
    prototype.  Of the latter the code can observe only whether it is
    truthy: it has no [port], no [pid] and no [status], and spreading it
    gives no field of an entry. *)
Inductive Value := Undefined | Stored (o : Object) | Other (truthy : bool).

(** The registry object: its own properties, and the object that an
    assignment to ["__proto__"] has made its prototype, if any (the
    prototype of that object is [Object.prototype]). *)
Record Registry := { own : gmap string Object; proto : option Object }.

Definition empty : Registry := {| own := ∅; proto := None |}.

Definition no_fields : Updates :=
  {| u_port := None; u_pid := None; u_status := None; u_hasTUI := None;
     u_tmuxSession := None; u_tmuxWindow := None; u_tmuxPane := None;
     u_sessionId := None; u_startedAt := None |}.

(** Truthiness of a number and of a string or [null]. *)
Definition nonzero (n : Z) : bool := negb (n =? 0).

Definition nonempty (v : option string) : bool :=
  match v with
  | Some (String _ _) => true
  | _ => false
  end.

(** Whether [o[key]] is truthy; [None] when [o] has no property [key]
    of its own.  A status and a time stamp are non-empty strings. *)
Definition field_truthy (o : Object) (key : string) : option bool :=
  let f := fields o in
  if String.eqb key "port" then nonzero <$> u_port f
  else if String.eqb key "pid" then nonzero <$> u_pid f
  else if String.eqb key "status" then (fun _ => true) <$> u_status f
  else if String.eqb key "hasTUI" then u_hasTUI f
  else if String.eqb key "tmuxSession" then nonempty <$> u_tmuxSession f
  else if String.eqb key "tmuxWindow" then nonempty <$> u_tmuxWindow f
  else if String.eqb key "tmuxPane" then nonempty <$> u_tmuxPane f
  else if String.eqb key "sessionId" then nonempty <$> u_sessionId f
  else if String.eqb key "startedAt" then (fun _ => true) <$> u_startedAt f
  else if String.eqb key "lastActivity" then Some true
  else None.

(** [this.registry[key]]: an own property; else, for ["__proto__"], the
    prototype itself, through the accessor of [Object.prototype]; else a
    property of the prototype chain. *)
Definition property (r : Registry) (key : string) : Value :=
  match own r !! key with
  | Some o => Stored o
  | None =>
      if String.eqb key "__proto__" then
        match proto r with
        | Some o => Stored o
        | None => Other true
        end
      else
        match proto r ≫= (fun o => field_truthy o key) with
        | Some b => Other b
        | None => if inherited key then Other true else Undefined
        end
  end.

(** [this.registry[key] = o]: the setter of ["__proto__"] replaces the
    prototype; every other key becomes or stays an own property (the
    members of [Object.prototype] are writable data properties). *)
Definition assign (r : Registry) (key : string) (o : Object) : Registry :=
  if String.eqb key "__proto__"
  then {| own := own r; proto := Some o |}
  else {| own := <[key := o]> (own r); proto := proto r |}.

(** [delete this.registry[key]] removes an own property and nothing
    else. *)
Definition unset (r : Registry) (key : string) : Registry :=
  {| own := delete key (own r); proto := proto r |}.

Definition truthy (v : Value) : bool :=
  match v with
  | Undefined => false
  | Stored _ => true
  | Other b => b
  end.

(** [{ ...v }], as far as the fields of an entry go. *)
Definition spread (v : Value) : Updates :=
  match v with
  | Stored o => fields o
  | _ => no_fields
  end.

(** [v.port] and [v.pid] of a truthy [v]; [None] is [undefined]. *)
Definition port_of (v : Value) : option Z :=
  match v with
  | Stored o => u_port (fields o)
  | _ => None
  end.

Definition pid_of (v : Value) : option Z :=
  match v with
  | Stored o => u_pid (fields o)
  | _ => None
  end.

Definition get (r : Registry) (projectPath : string) : Value :=
  property r projectPath.

(** [{ ...entry, startedAt: now, lastActivity: now }] *)
Definition stamp (entry : NewEntry) (now : Z) : Object :=
  {| fields :=
       {| u_port := Some (n_port entry); u_pid := Some (n_pid entry);
          u_status := Some (n_status entry); u_hasTUI := Some (n_hasTUI entry);
          u_tmuxSession := Some (n_tmuxSession entry);
          u_tmuxWindow := Some (n_tmuxWindow entry);
          u_tmuxPane := Some (n_tmuxPane entry);
          u_sessionId := Some (n_sessionId entry);
          u_startedAt := Some now |};
     stamped := now |}.

Definition add (r : Registry) (projectPath : string) (entry : NewEntry)
  : Task (Object * Registry) :=
  now ← call DateNow;
  let fullEntry := stamp entry now in
  Ret (fullEntry, assign r projectPath fullEntry).

(** A property of the later operand of a spread wins. *)
Definition later {A} (first second : option A) : option A :=
  match second with
  | Some _ => second
  | None => first
  end.

(** [{ ...existing, ...updates }] *)
Definition overlay (existing updates : Updates) : Updates :=
  {| u_port := later (u_port existing) (u_port updates);
     u_pid := later (u_pid existing) (u_pid updates);
     u_status := later (u_status existing) (u_status updates);
     u_hasTUI := later (u_hasTUI existing) (u_hasTUI updates);
     u_tmuxSession := later (u_tmuxSession existing) (u_tmuxSession updates);
     u_tmuxWindow := later (u_tmuxWindow existing) (u_tmuxWindow updates);
     u_tmuxPane := later (u_tmuxPane existing) (u_tmuxPane updates);
     u_sessionId := later (u_sessionId existing) (u_sessionId updates);
     u_startedAt := later (u_startedAt existing) (u_startedAt updates) |}.

Definition update (r : Registry) (projectPath : string) (updates : Updates)
  : Task (Value * Registry) :=
  let existing := property r projectPath in
  if truthy existing then
    now ← call DateNow;
    let updated :=
      {| fields := overlay (spread existing) updates; stamped := now |} in
    Ret (Stored updated, assign r projectPath updated)
  else Ret (Undefined, r).

Definition remove (r : Registry) (projectPath : string) : bool * Registry :=
  if truthy (property r projectPath)
  then (true, unset r projectPath)
  else (false, r).

(** [`${port}`] and the [port] member of a log record, which is left
    out of the record when it is [undefined]. *)
Definition port_text (port : option Z) : string :=
  match port with
  | Some n => Text.number_to_string n
  | None => "undefined"
  end.

Definition port_field (port : option Z) : list (string * LogValue) :=
  match port with
  | Some n => [("port", VNumber n)]
  | None => []
  end.

Definition attach_pid (port : option Z) (line : string) : option Z :=
  if Text.includes "opencode attach" line
     && Text.includes ("http://localhost:" +:+ port_text port) line
     && negb (Text.includes "grep" line)
  then
    match Text.trim_split_ws line with
    | _ :: second :: _ => Text.parseInt second
    | _ => None
    end
  else None.

Definition getAttachProcessPIDs (port : option Z) : Task (list Z) :=
  try_catch
    (ps ← call ExecPs;
     match ps with
     | ExecThrows => Throw ExecFailed
     | ExecOutput psOutput =>
         Ret (omap (attach_pid port) (Text.split_lines psOutput))
     end)
    (fun _ =>
       log LogError "Error getting attach process PIDs" (port_field port);;
       Ret []).

Fixpoint kill_each (port : option Z) (pids : list Z) : Task unit :=
  match pids with
  | [] => Ret tt
  | p :: rest =>
      try_catch
        (process_kill p SIGTERM;;
         log Debug "Killed attach process" (("pid", VNumber p) :: port_field port))
        (fun _ =>
           log Warn "Failed to kill attach process"
             (("pid", VNumber p) :: port_field port));;
      kill_each port rest
  end.

Definition killAttachProcesses (port : option Z) : Task unit :=
  pids ← getAttachProcessPIDs port;
  match pids with
  | [] => Ret tt
  | _ =>
      log Info "Killing attach processes"
        (port_field port ++ [("pids", VNumbers pids)]);;
      kill_each port pids
  end.

(** [process.kill(pid, sig)] refuses a [pid] that is not a number
    before it asks anything of the operating system. *)
Definition process_kill_value (target : option Z) (sig : Signal) : Task unit :=
  match target with
  | Some n => process_kill n sig
  | None => Throw TypeError
  end.

(** [stopServer], with the registry object passed in and out; the
    process handles are those of [Mem]. *)
Definition stopServer (r : Registry) (projectPath : string)
  : Task (bool * Registry) :=
  let entry := get r projectPath in
  if truthy entry then
    log Info "Stopping server"
      (("projectPath", VString projectPath) :: port_field (port_of entry));;
    killAttachProcesses (port_of entry);;
    m ← read;
    match processes m !! projectPath with
    | Some proc =>
        call (ProcKill proc SIGTERM);;
        modify (set_processes (delete projectPath))
    | None =>
        try_catch (process_kill_value (pid_of entry) SIGTERM) (fun _ => Ret tt)
    end;;
    '(_, r1) ← update r projectPath (status_update stopped);
    let '(_, r2) := remove r1 projectPath in
    Ret (true, r2)
  else Ret (false, r).

(** The registry object that holds exactly the entries of a typed
    registry and has its first prototype. *)
Definition object_of (e : ProjectEntry) : Object :=
  {| fields :=
       {| u_port := Some (port e); u_pid := Some (pid e);
          u_status := Some (status e); u_hasTUI := Some (hasTUI e);
          u_tmuxSession := Some (tmuxSession e);
          u_tmuxWindow := Some (tmuxWindow e);
          u_tmuxPane := Some (tmuxPane e);
          u_sessionId := Some (sessionId e);
          u_startedAt := Some (startedAt e) |};
     stamped := lastActivity e |}.

Definition of_entries (entries : gmap string ProjectEntry) : Registry :=
  {| own := object_of <$> entries; proto := None |}.

End Plain.
(** * Vocabulary of the statements *)

(** ** Predicates on tasks, traces and worlds *)

(** The body of a successful response carries [healthy: true]. *)
Definition reports_healthy (r : FetchResult) : Prop :=
  ∃ resp members,
    r = FetchResponse resp ∧ ok resp = true ∧
    body resp = BodyJson (JObject members) ∧
    get_member "healthy" members = Some (JBool true).

(** What the probe makes of the outcome of its request. *)
Definition verdict (r : FetchResult) : bool :=
  match r with
  | FetchRejected => false
  | FetchResponse resp =>
      ok resp &&
      match body resp with
      | BodyJson (JObject members) =>
          strictly_true (get_member "healthy" members)
      | _ => false
      end
  end.

(** The ports of the machine as the world presents them: a listener can
    bind [p] exactly when [free p]. *)
Definition ports_are (w : World) (free : Z -> bool) : Prop :=
  ∀ n p, respond w n (Listen p) = Listening ↔ free p = true.

(** Every query a task can make satisfies [P]. *)
Inductive queries_in {R} (P : Query -> Prop) : Task R -> Prop :=
| qi_Ret r : queries_in P (Ret r)
| qi_Throw e : queries_in P (Throw e)
| qi_Stall : queries_in P Stall
| qi_Read k : (∀ m, queries_in P (k m)) → queries_in P (Read k)
| qi_Modify f t : queries_in P t → queries_in P (Modify f t)
| qi_Call q k : P q → (∀ a, queries_in P (k a)) → queries_in P (Call q k).

(** A task that never suspends: it runs to its end within the turn of
    the event loop that started it. *)
Definition synchronous {R} (t : Task R) : Prop :=
  queries_in (fun q => is_await q = false) t.

(** The finished task an outcome stands for. *)
Definition settled {R} (o : Outcome R) : Task R :=
  match o with
  | Resolved r => Ret r
  | Rejected e => Throw e
  | Stalled => Stall
  end.

(** The signals a trace shows to have been sent. *)
Definition is_signal (q : Query) : bool :=
  match q with
  | ProcKill _ _ | ProcessKill _ _ => true
  | _ => false
  end.

Definition signals (tr : list Event) : list Query :=
  filter (fun q => is_signal q = true) (ev_query <$> tr).

(** The child processes a trace shows [spawn] to have returned, with
    the project path and the port they were given. *)
Definition spawn_of (ev : Event) : option (string * Z * ChildProcess) :=
  match ev with
  | Ev q a =>
      match q as q0 return answer q0 -> option (string * Z * ChildProcess) with
      | Spawn cwd port => fun r =>
          match r with
          | Spawned proc => Some (cwd, port, proc)
          | SpawnThrows => None
          end
      | _ => fun _ => None
      end a
  end.

Definition spawned (tr : list Event) : list (string * Z * ChildProcess) :=
  omap spawn_of tr.

(** The ['exit'] listeners a trace shows to have been attached. *)
Definition exit_watchers (tr : list Event) : list (string * Z * ChildProcess) :=
  omap (fun ev =>
          match ev with
          | Ev (OnExit proc projectPath port) _ => Some (projectPath, port, proc)
          | _ => None
          end) tr.

(** The ports a trace shows to have been probed by a listener. *)
Definition probed (tr : list Event) : list Z :=
  omap (fun ev =>
          match ev_query ev with
          | Listen port => Some port
          | _ => None
          end) tr.

(** The pid [startServer] finds on what [spawn] answers: none when the
    call throws, and none when the child process has none. *)
Definition spawn_pid (r : SpawnResult) : option Z :=
  match r with
  | Spawned proc => truthy_pid proc
  | SpawnThrows => None
  end.

(** A query that spawns a worker. *)
Definition is_spawn (q : Query) : bool :=
  match q with Spawn _ _ => true | _ => false end.

(** The fuel of a task's loops never runs out, whatever the world does. *)
Definition never_stalls {A} (t : Task A) : Prop :=
  ∀ w s, (run w t s).1 ≠ Stalled.

(** The number a process-table line gives after [--port], if any. *)
Definition port_argument (line : string) : option Z :=
  digits ← Text.match_port line; Text.parseInt digits.

Fixpoint newline_free (s : string) : bool :=
  match s with
  | EmptyString => true
  | String c rest => negb (Ascii.eqb c Text.newline) && newline_free rest
  end.

(** The text whose lines are [lines]. *)
Fixpoint unlines (lines : list string) : string :=
  match lines with
  | [] => EmptyString
  | [l] => l
  | l :: rest => l +:+ String Text.newline (unlines rest)
  end.

(** ** Sample worlds and inputs *)

(** A world that does not change over time: what a health probe of each
    port finds, which ports are free, the pid a spawn yields (if any), the
    process table, and whether signals can be delivered.  Every query
    takes [lag] milliseconds. *)
Record Machine := {
  m_fetch : Z -> FetchResult;
  m_free : Z -> bool;
  m_spawn_pid : option Z;
  m_ps : ExecResult;
  m_kill : KillResult;
  m_lag : N;
}.

Definition world_of (mc : Machine) : World :=
  {| respond := fun n q =>
       match q as q0 return answer q0 with
       | DateNow => 0
       | Fetch p => m_fetch mc p
       | Listen p => if m_free mc p then Listening else ListenError "EADDRINUSE"
       | Spawn _ _ => Spawned {| handle := n; proc_pid := m_spawn_pid mc |}
       | ProcKill _ _ => match m_kill mc with KillDelivered => true | KillThrows => false end
       | ProcessKill _ _ => m_kill mc
       | ExecPs => m_ps mc
       | SetTimeout _ | ImportModule | OnError _ _ _ | OnExit _ _ _
       | Log _ _ _ => tt
       end;
     elapse := fun _ => m_lag mc |}.

Definition healthy_response : FetchResult :=
  FetchResponse {| http_status := 200;
                   body := BodyJson (JObject [("healthy", JBool true)]) |}.

(** The process as it is when the manager has just started. *)
Definition boot : Sys :=
  {| mem := initial_mem; clock := 0; tick := 0; trace := [] |}.

(** Port 4097 is taken by someone else; the process table is empty. *)
Definition base_port_taken : Machine :=
  {| m_fetch := fun _ => healthy_response;
     m_free := fun p => negb (p =? 4097);
     m_spawn_pid := Some 1234;
     m_ps := ExecOutput "";
     m_kill := KillDelivered;
     m_lag := 0 |}.

(** An entry for a worker on port 4097 in a given status. *)
Definition entry_4097 (st : Status) : ProjectEntry :=
  {| port := 4097; pid := 1234; status := st; hasTUI := false;
     tmuxSession := None; tmuxWindow := None; tmuxPane := None;
     sessionId := Some "ses_1"; startedAt := 0; lastActivity := 0 |}.

(** The process holding one registry entry and no process handle. *)
Definition sys_with (projectPath : string) (e : ProjectEntry) : Sys :=
  {| mem := set_registry (insert projectPath e) initial_mem;
     clock := 0; tick := 0; trace := [] |}.

(** Every worker is healthy and every port free, but no signal can be
    delivered and the process table cannot be read. *)
Definition signals_fail : Machine :=
  {| m_fetch := fun _ => healthy_response;
     m_free := fun _ => true;
     m_spawn_pid := Some 1234;
     m_ps := ExecThrows;
     m_kill := KillThrows;
     m_lag := 1 |}.

(** The spawn fails (the command cannot be started): the child process
    has no pid.  No worker answers a health probe. *)
Definition spawn_fails : Machine :=
  {| m_fetch := fun _ => FetchRejected;
     m_free := fun _ => true;
     m_spawn_pid := None;
     m_ps := ExecOutput "";
     m_kill := KillDelivered;
     m_lag := 1 |}.

(** The worker is spawned but never answers the health probe. *)
Definition never_healthy : Machine :=
  {| m_fetch := fun _ => FetchRejected;
     m_free := fun _ => true;
     m_spawn_pid := Some 1234;
     m_ps := ExecOutput "";
     m_kill := KillDelivered;
     m_lag := 1 |}.

(** Every port is free, every spawn yields a pid and every probe finds a
    healthy worker. *)
Definition all_healthy : Machine :=
  {| m_fetch := fun _ => healthy_response;
     m_free := fun _ => true;
     m_spawn_pid := Some 1234;
     m_ps := ExecOutput "";
     m_kill := KillDelivered;
     m_lag := 1 |}.

(** The second call for ["/proj"] begins while the first is polling the
    health of the worker it has spawned. *)
Definition second_call_during_poll : list (Move Z) :=
  [Begin (startServer "/proj"); Wake 0; Wake 0;
   Begin (startServer "/proj"); Wake 1; Wake 1; Wake 1; Wake 0]%nat.

(** A process table with three workers: one inside the range, one above
    it and one below. *)
Definition three_workers : list string :=
  ["user  101  0.0  0.1  opencode serve --port 4100";
   "user  102  0.0  0.1  opencode serve --port 6000";
   "user  103  0.0  0.1  opencode serve --port 3999"].

(** The manager restarts while those three workers are alive. *)
Definition after_restart : Machine :=
  {| m_fetch := fun _ => healthy_response;
     m_free := fun p => negb (p =? 4100);
     m_spawn_pid := Some 1234;
     m_ps := ExecOutput (unlines three_workers);
     m_kill := KillDelivered;
     m_lag := 1 |}.

(** ** Vocabulary of the event hub *)

Module HubVocabulary.
Import EventHub.

(** The event types the forwarding loop lets through. *)
Definition allow_list : list string :=
  ["message.created"; "message.updated"; "message.completed";
   "part.updated"; "permission.requested"; "session.updated"].

(** The sinks written to, with what was written, in order. *)
Definition writes (out : list Output) : list (Sink * string) :=
  omap (fun o => match o with
                 | Write res message _ => Some (res, message)
                 | LogLine _ _ => None
                 end) out.

(** The writes that did not throw. *)
Definition delivered (out : list Output) : list (Sink * string) :=
  omap (fun o => match o with
                 | Write res message false => Some (res, message)
                 | _ => None
                 end) out.

(** The log lines about a failed write. *)
Definition write_errors (out : list Output) : nat :=
  length (omap (fun o => match o with
                         | LogLine LogError msg => Some msg
                         | _ => None
                         end) out).

(** The sinks of a path; none when the path has no set. *)
Definition sinks_of (projectPath : string) (h : State) : list Sink :=
  default [] (connections h !! projectPath).

(** What the hub has on record is sound: a controller recorded for a
    path is not aborted and belongs to a running invocation for that
    path.  (Controllers are named in the order they are created.) *)
Definition records_sound (h : State) : Prop :=
  (∀ p c, activeStreams h !! p = Some c →
          (c ∉ aborted h) ∧ (∃ f, forwarders h !! c = Some f ∧ f_path f = p))
  ∧ (∀ c, c ∈ aborted h → (c < next_controller h)%nat)
  ∧ (∀ c f, forwarders h !! c = Some f → (c < next_controller h)%nat).

(** The registry shows a running worker for ["/p"]; sink 7 throws on
    every write. *)
Definition running_env : Env :=
  {| env_registry := {["/p" := entry_4097 running]};
     write_throws := fun res => Nat.eqb res 7 |}.

Definition message_created : UpstreamEvent :=
  {| type := Some "message.created"; properties := "{}" |}.

(** A first subscriber comes and goes, a second one comes: the first
    invocation of the loop is cancelled and still waits for its next
    event, the second has its own stream. *)
Definition resubscribed : list Action :=
  [AddConnection "/p" 1; SubscribeResolved 0; Close 1;
   AddConnection "/p" 2; SubscribeResolved 1]%nat.

(** Then the cancelled invocation reads an event and ends, and a third
    subscriber comes. *)
Definition third_subscriber : list Action :=
  resubscribed ++
  [StreamEvent 0 message_created; AddConnection "/p" 3; SubscribeResolved 2]%nat.

End HubVocabulary.

(** ** Vocabulary of the further properties *)



(** The ports a trace shows to have been probed for health. *)
Definition fetched (tr : list Event) : list Z :=
  omap (fun ev =>
          match ev_query ev with
          | Fetch port => Some port
          | _ => None
          end) tr.

(** [SIGTERM] sent with [process.kill] to each of [pids], in order. *)
Definition terminate (pids : list Z) : list Query :=
  (fun p => ProcessKill p SIGTERM) <$> pids.

(** The [SIGTERM] that [stopServer] sends to the worker of an entry:
    through the process handle when there is one, by pid otherwise. *)
Definition worker_signal (tracked : option ChildProcess) (e : ProjectEntry)
  : Query :=
  match tracked with
  | Some proc => ProcKill proc SIGTERM
  | None => ProcessKill (pid e) SIGTERM
  end.

(** A process table with a worker on 4097, two TUIs attached to it and
    one attached to the worker on 4098. *)
Definition attach_table : list string :=
  ["user  101  0.0  0.1  opencode serve --port 4097";
   "user  201  0.0  0.1  opencode attach http://localhost:4097";
   "user  202  0.0  0.1  opencode attach http://localhost:4098 --session ses_2";
   "user  203  0.0  0.1  opencode attach http://localhost:4097 --session ses_1"].

(** Those processes are alive, and no signal can be delivered. *)
Definition tuis_attached : Machine :=
  {| m_fetch := fun _ => healthy_response;
     m_free := fun _ => true;
     m_spawn_pid := Some 1234;
     m_ps := ExecOutput (unlines attach_table);
     m_kill := KillThrows;
     m_lag := 1 |}.







(** ** Further vocabulary of the event hub *)

Module HubInvariants.
Import EventHub.

(** The sets of sinks are sound: no path has an empty set, no set holds
    a sink twice, every sink in the set of a path has a close listener
    for that path, and a stream is on record only for a path with a
    set. *)
Definition sets_sound (h : State) : Prop :=
  (∀ p l, connections h !! p = Some l →
          l ≠ [] ∧ NoDup l ∧ ∀ res, res ∈ l → (res, p) ∈ close_listeners h)
  ∧ (∀ p c, activeStreams h !! p = Some c → is_Some (connections h !! p)).

(** [res] is in no set of sinks. *)
Definition unsubscribed (res : Sink) (h : State) : Prop :=
  ∀ p l, connections h !! p = Some l → res ∉ l.

(** The action adds [res] as a sink. *)
Definition adds (res : Sink) (a : Action) : Prop :=
  ∃ p, a = AddConnection p res.

(** A history of the hub: what happens to it, each thing with the
    registry and the sinks as they are at that moment. *)
Fixpoint history (events : list (Env * Action)) (h : State)
  : State * list Output :=
  match events with
  | [] => (h, [])
  | (env, a) :: rest =>
      let '(h1, out1) := step env a h in
      let '(h2, out2) := history rest h1 in
      (h2, out1 ++ out2)
  end.

End HubInvariants.

(** * Properties *)

(** ** Running composed tasks *)

Section Running.
Context {A B : Type}.
Implicit Types (w : World) (s : Sys).

Lemma run_bind w (t : Task A) (k : A -> Task B) s :
  run w (t ≫= k) s =
  match run w t s with
  | (Resolved a, s') => run w (k a) s'
  | (Rejected e, s') => (Rejected e, s')
  | (Stalled, s') => (Stalled, s')
  end.
Proof.
  unfold mbind, Task_bind.
  revert s; induction t as [a|e|f IH|f t IH|q f IH|]; intros s; simpl; auto.
Qed.

Lemma run_try_catch w (t : Task A) (h : Error -> Task A) s :
  run w (try_catch t h) s =
  match run w t s with
  | (Rejected e, s') => run w (h e) s'
  | other => other
  end.
Proof.
  revert s; induction t as [a|e|f IH|f t IH|q f IH|]; intros s; simpl; auto.
Qed.
End Running.

Lemma run_call w (q : Query) s :
  run w (call q) s = (Resolved (reply w s q), after_call w s q).
Proof. reflexivity. Qed.

Lemma run_log w l msg fields s :
  run w (log l msg fields) s = (Resolved tt, after_call w s (Log l msg fields)).
Proof.
  unfold log, call; cbn [run].
  by destruct (reply w s (Log l msg fields)).
Qed.

Lemma run_modify w f s : run w (modify f) s = (Resolved tt, with_mem f s).
Proof. reflexivity. Qed.

Lemma run_read w s : run w read s = (Resolved (mem s), s).
Proof. reflexivity. Qed.

(** Suspending a task and waking it later leads where running it does,
    when nothing else happens in between. *)
Lemma run_advance {A} w (t : Task A) s :
  run w t s = run w (advance w t s).1 (advance w t s).2.
Proof.
  revert s. induction t as [a|e|f IH|f t IH|q f IH|]; intros s; cbn; auto.
  destruct (is_await q); cbn; auto.
Qed.

Lemma run_resume {A} w q (k : answer q -> Task A) s :
  run w (Call q k) s
  = run w (resume w (Call q k) s).1 (resume w (Call q k) s).2.
Proof. cbn [run resume]. apply run_advance. Qed.

(** ** The text helpers on sample input *)

Example split_lines_sample :
  Text.split_lines ("a" +:+ String Text.newline "b") = ["a"; "b"]
  ∧ Text.split_lines "" = [""].
Proof. by vm_compute. Qed.

Example parseInt_sample :
  Text.parseInt "4100" = Some 4100 ∧ Text.parseInt "123abc" = Some 123
  ∧ Text.parseInt "-5" = Some (-5) ∧ Text.parseInt "abc" = None.
Proof. by vm_compute. Qed.

Example match_port_sample :
  Text.match_port "opencode serve --port   4100 --print-logs" = Some "4100"
  ∧ Text.match_port "opencode serve --port=4100" = None
  ∧ Text.match_port "x --port y --port 4101" = Some "4101".
Proof. by vm_compute. Qed.

Example scan_line_sample :
  scan_line "user 101 0.0 0.1 opencode serve --port 4100" = Some 4100
  ∧ scan_line "user 102 0.0 0.1 grep opencode serve --port 4100" = None
  ∧ scan_line "user 103 0.0 0.1 opencode serve --port 6000" = None
  ∧ scan_line "user 104 0.0 0.1 opencode attach http://localhost:4100" = None.
Proof. by vm_compute. Qed.

Example scan_output_sample :
  scan_output (unlines three_workers) = [4100]
  ∧ sort_ascending [4100; 4098; 4099] = [4098; 4099; 4100].
Proof. by vm_compute. Qed.

Example attach_pid_sample :
  attach_pid 4097 "user   2201  0.0  0.1 opencode attach http://localhost:4097"
  = Some 2201
  ∧ attach_pid 4097 "user   2202  0.0  0.1 opencode attach http://localhost:4098"
    = None.
Proof. by vm_compute. Qed.

(** ** The health probe *)

Lemma strictly_true_iff v : strictly_true v = true ↔ v = Some (JBool true).
Proof.
  split; [|by intros ->].
  destruct v as [[| [] | | | |]|]; simpl; congruence.
Qed.

Lemma checkHealth_run w port s :
  run w (checkHealth port) s
  = (Resolved (verdict (reply w s (Fetch port))), after_call w s (Fetch port)).
Proof.
  unfold checkHealth, verdict.
  rewrite run_try_catch, run_bind. unfold call; cbn [run].
  destruct (reply w s (Fetch port)) as [|r]; [done|]. cbn beta iota.
  destruct (ok r); [|done]. cbn [andb].
  destruct (body r) as [data|]; [|done].
  by destruct data.
Qed.

Lemma verdict_true_iff r : verdict r = true ↔ reports_healthy r.
Proof.
  unfold verdict, reports_healthy. split.
  - destruct r as [|resp]; [done|].
    destruct (ok resp) eqn:Hok; [|done]. cbn [andb].
    destruct (body resp) as [[| | | | |members]|] eqn:Hbody; try done.
    rewrite strictly_true_iff. intros Hm. by exists resp, members.
  - intros (resp & members & -> & -> & -> & Hm). by rewrite Hm.
Qed.

(** The probe settles with a verdict, which is [true] exactly for a
    healthy report. *)
Lemma checkHealth_settles w port s :
  ∃ b, run w (checkHealth port) s = (Resolved b, after_call w s (Fetch port))
       ∧ (b = true ↔ reports_healthy (reply w s (Fetch port))).
Proof.
  exists (verdict (reply w s (Fetch port))).
  split; [apply checkHealth_run | apply verdict_true_iff].
Qed.

(** C6: the probe never throws, and it answers [true] exactly when the
    response is successful and its body is an object whose member
    [healthy] is the boolean [true]; a failed transport, a response that
    is not successful, a body that is not JSON, a JSON value that is not
    an object, and an object without [healthy: true] all give [false]. *)
Theorem checkHealth_healthy_iff w port s :
  let r := reply w s (Fetch port) in
  ∃ b, run w (checkHealth port) s = (Resolved b, after_call w s (Fetch port))
       ∧ (b = true ↔ reports_healthy r)
       ∧ (r = FetchRejected → b = false)
       ∧ (∀ resp, r = FetchResponse resp → ok resp = false → b = false)
       ∧ (∀ resp, r = FetchResponse resp → body resp = BodyInvalid → b = false)
       ∧ (∀ resp data, r = FetchResponse resp → body resp = BodyJson data →
            (∀ members, data = JObject members →
                        get_member "healthy" members ≠ Some (JBool true)) →
            b = false).
Proof.
  intros r. subst r. unfold checkHealth, reports_healthy.
  rewrite run_try_catch, run_bind. unfold call; cbn [run].
  destruct (reply w s (Fetch port)) as [|r]; cbn beta iota.
  { exists false. repeat split; try done. by intros (?&?&?&_). }
  destruct (ok r) eqn:Hok; cbn beta iota.
  2:{ exists false. repeat split; try done.
      intros (?&?&[= <-]&?&_); congruence. }
  destruct (body r) as [data|] eqn:Hbody; cbn beta iota.
  2:{ exists false. repeat split; try done.
      intros (?&?&[= <-]&_&?&_); congruence. }
  destruct data as [|b|n|str|items|members]; cbn [read_healthy run];
    try (exists false; repeat split; try done;
         intros (?&?&[= <-]&_&?&_); congruence).
  exists (strictly_true (get_member "healthy" members)).
  split; [done|]. split; [|split; [|split; [|split]]].
  - rewrite strictly_true_iff. split.
    + intros Hm. by exists r, members.
    + intros (r'&ms&[= <-]&_&Hb&Hm). congruence.
  - done.
  - intros resp [= <-]. congruence.
  - intros resp [= <-]. congruence.
  - intros resp data [= <-] Hb Hno. rewrite Hbody in Hb. injection Hb as <-.
    apply not_true_is_false. rewrite strictly_true_iff. by apply Hno.
Qed.

Lemma checkHealth_healthy_iff_witness :
  ∃ b, run (world_of never_healthy) (checkHealth 4097) boot
       = (Resolved b, after_call (world_of never_healthy) boot (Fetch 4097))
       ∧ b = false.
Proof.
  destruct (checkHealth_healthy_iff (world_of never_healthy) 4097 boot)
    as (b & Hrun & _ & Hrej & _).
  exists b. split; [exact Hrun|]. apply Hrej. reflexivity.
Defined.

(** ** Port allocation *)

Lemma isPortAvailable_run w p s :
  run w (isPortAvailable p) s =
  (Resolved (match reply w s (Listen p) with
             | Listening => true
             | ListenError _ => false
             end),
   after_call w s (Listen p)).
Proof.
  unfold isPortAvailable. rewrite run_bind. unfold call; cbn [run].
  destruct (reply w s (Listen p)) as [|code]; simpl; [done|].
  by destruct (String.eqb code "EADDRINUSE").
Qed.

Lemma isPortAvailable_free w free p s :
  ports_are w free →
  run w (isPortAvailable p) s = (Resolved (free p), after_call w s (Listen p)).
Proof.
  intros Hw. rewrite isPortAvailable_run. f_equal. f_equal.
  specialize (Hw (tick s) p). simpl.
  destruct (respond w (tick s) (Listen p)), (free p); try done.
  - by destruct Hw as [Hw _]; specialize (Hw eq_refl).
  - by destruct Hw as [_ Hw]; specialize (Hw eq_refl).
Qed.

Lemma findAvailablePort_from_run w free candidates a b s :
  ports_are w free →
  ∃ s', mem s' = mem s ∧
    run w (findAvailablePort_from candidates a b) s =
    (match List.find free candidates with
     | Some p => Resolved p
     | None => Rejected (PortExhausted a b)
     end, s').
Proof.
  intros Hw. revert s.
  induction candidates as [|p rest IH]; intros s; [by exists s|].
  cbn [findAvailablePort_from List.find].
  rewrite run_bind, (isPortAvailable_free _ _ _ _ Hw).
  destruct (free p); [by exists (after_call w s (Listen p))|].
  destruct (IH (after_call w s (Listen p))) as (s' & Hmem & ->).
  by exists s'.
Qed.

(** The first candidate of a range that satisfies a test. *)
Lemma find_seqZ_Some (f : Z -> bool) (n : nat) a p :
  List.find f (seqZ a (Z.of_nat n)) = Some p →
  a ≤ p < a + Z.of_nat n ∧ f p = true ∧ ∀ q, a ≤ q < p → f q = false.
Proof.
  revert a. induction n as [|n IH]; intros a; [done|].
  rewrite seqZ_cons by lia. simpl.
  replace (Z.pred (Z.of_nat (S n))) with (Z.of_nat n) by lia.
  destruct (f a) eqn:Hfa.
  - intros [= <-]. repeat split; lia || done.
  - intros Hfind. destruct (IH _ Hfind) as (Hr & Hf & Hmin).
    repeat split; [lia | lia | done |].
    intros q Hq. destruct (decide (q = a)) as [->|]; [done|].
    apply Hmin; lia.
Qed.

Lemma find_seqZ_None (f : Z -> bool) (n : nat) a :
  List.find f (seqZ a (Z.of_nat n)) = None ↔
  ∀ q, a ≤ q < a + Z.of_nat n → f q = false.
Proof.
  revert a. induction n as [|n IH]; intros a.
  { split; [intros _ q; lia | done]. }
  rewrite seqZ_cons by lia. simpl.
  replace (Z.pred (Z.of_nat (S n))) with (Z.of_nat n) by lia.
  destruct (f a) eqn:Hfa.
  - split; [done|]. intros H. specialize (H a). rewrite Hfa in H.
    discriminate H; lia.
  - rewrite IH. split; intros H q Hq.
    + destruct (decide (q = a)) as [->|]; [done|]. apply H; lia.
    + apply H; lia.
Qed.

(** The candidates [seqZ a (b - a + 1)] are the ports [a .. b], none
    when [b < a]. *)
Lemma range_as_nat a b : b - a + 1 = Z.of_nat (Z.to_nat (b - a + 1)) ∨ b - a + 1 < 0.
Proof. lia. Qed.

Lemma find_range_Some (f : Z -> bool) a b p :
  List.find f (seqZ a (b - a + 1)) = Some p →
  a ≤ p ≤ b ∧ f p = true ∧ ∀ q, a ≤ q < p → f q = false.
Proof.
  destruct (range_as_nat a b) as [Heq|Hneg].
  - rewrite Heq. intros H. apply find_seqZ_Some in H.
    destruct H as (?&?&?). repeat split; lia || done.
  - rewrite seqZ_nil by lia. done.
Qed.

Lemma find_range_None (f : Z -> bool) a b :
  List.find f (seqZ a (b - a + 1)) = None ↔ ∀ q, a ≤ q ≤ b → f q = false.
Proof.
  destruct (range_as_nat a b) as [Heq|Hneg].
  - rewrite Heq, find_seqZ_None. split; intros H q Hq; apply H; lia.
  - rewrite seqZ_nil by lia. split; [intros _ q; lia | done].
Qed.

Lemma allocatePort_run w free s :
  ports_are w free →
  let next := nextPort (mem s) in
  ∃ s', mem s' = mem s ∧
    run w ProjectRegistry.allocatePort s =
    match List.find free (seqZ next (default_maxPort - next + 1)) with
    | Some p => (Resolved p, with_mem (set_nextPort (p + 1)) s')
    | None => (Rejected (PortExhausted next default_maxPort), s')
    end.
Proof.
  intros Hw next.
  unfold ProjectRegistry.allocatePort.
  rewrite run_bind. unfold call at 1; cbn [run].
  destruct (reply w s ImportModule).
  rewrite run_bind, run_read.
  rewrite run_bind. unfold findAvailablePort.
  set (s1 := after_call w s ImportModule).
  change (mem s1) with (mem s). fold next.
  destruct (findAvailablePort_from_run w free
              (seqZ next (default_maxPort - next + 1)) next default_maxPort
              s1 Hw) as (s' & Hmem & ->).
  exists s'. split; [done|].
  destruct (List.find free _) as [p|]; [|done].
  by rewrite run_bind, run_modify.
Qed.

Lemma world_of_ports mc : ports_are (world_of mc) (m_free mc).
Proof. intros n p. simpl. by destruct (m_free mc p). Qed.

(** C5: [allocatePort] answers the first port, counting up from the
    cursor, on which a listener can be bound; it fails when no port up to
    the ceiling 4196 is free, in particular when none of 4097..4196 is;
    and with 4097 taken and 4098 free it answers 4098. *)
Theorem allocatePort_first_free w free s :
  ports_are w free →
  let next := nextPort (mem s) in
  let r := run w ProjectRegistry.allocatePort s in
  (∀ p, r.1 = Resolved p →
        next ≤ p ≤ 4196 ∧ free p = true ∧
        (∀ q, next ≤ q < p → free q = false) ∧
        nextPort (mem r.2) = p + 1)
  ∧ ((∃ p, next ≤ p ≤ 4196 ∧ free p = true) → ∃ p, r.1 = Resolved p)
  ∧ (4097 ≤ next → (∀ q, 4097 ≤ q ≤ 4196 → free q = false) →
     r.1 = Rejected (PortExhausted next 4196))
  ∧ (next = 4097 → free 4097 = false → free 4098 = true →
     r.1 = Resolved 4098).
Proof.
  intros Hw next r. subst r.
  destruct (allocatePort_run w free s Hw) as (s' & Hmem & ->). fold next.
  unfold default_maxPort.
  destruct (List.find free (seqZ next (4196 - next + 1))) as [p|] eqn:Hfind.
  - apply find_range_Some in Hfind. destruct Hfind as (Hrange & Hfree & Hmin).
    cbn [fst snd]. split; [|split; [|split]].
    + intros p' [= <-]. by repeat split; try lia.
    + by exists p.
    + intros Hnext Hnone. rewrite Hnone in Hfree by lia. done.
    + intros Hn H97 H98. f_equal.
      destruct (decide (p = 4097)) as [->|]; [congruence|].
      destruct (decide (p = 4098)) as [->|]; [done|].
      rewrite (Hmin 4098) in H98 by lia. done.
  - rewrite find_range_None in Hfind.
    cbn [fst snd]. split; [|split; [|split]]; try done.
    + intros (p & Hp & Hfree). rewrite Hfind in Hfree by lia. done.
    + intros Hn H97 H98. rewrite Hfind in H98 by lia. done.
Qed.

Lemma allocatePort_first_free_witness :
  (run (world_of base_port_taken) ProjectRegistry.allocatePort boot).1
  = Resolved 4098.
Proof.
  apply (allocatePort_first_free (world_of base_port_taken)
           (m_free base_port_taken) boot (world_of_ports base_port_taken));
    reflexivity.
Defined.

(** ** Which queries a task makes *)

Section Queries.
Context {A B : Type} (P : Query -> Prop).

Lemma queries_in_bind (t : Task A) (k : A -> Task B) :
  queries_in P t → (∀ a, queries_in P (k a)) → queries_in P (t ≫= k).
Proof.
  unfold mbind, Task_bind. intros Ht Hk.
  induction Ht; simpl; auto; by constructor.
Qed.

Lemma queries_in_try_catch (t : Task A) (h : Error -> Task A) :
  queries_in P t → (∀ e, queries_in P (h e)) → queries_in P (try_catch t h).
Proof.
  intros Ht Hh. induction Ht; simpl; auto; by constructor.
Qed.

Lemma run_trace_queries w (t : Task A) s :
  queries_in P t →
  ∃ evs, trace (run w t s).2 = trace s ++ evs
         ∧ Forall (fun ev => P (ev_query ev)) evs.
Proof.
  intros Ht. revert s.
  induction Ht as [r|e| |k Hk IH|f t Ht IH|q k Hq Hk IH]; intros s; simpl.
  1-3: by exists []; rewrite app_nil_r.
  - apply IH.
  - apply (IH (with_mem f s)).
  - destruct (IH (reply w s q) (after_call w s q)) as (evs & -> & Hevs).
    exists (Ev q (reply w s q) :: evs). simpl.
    split; [by rewrite <- app_assoc | by constructor].
Qed.
End Queries.

Lemma queries_in_weaken {A} (P Q : Query -> Prop) (t : Task A) :
  (∀ q, P q → Q q) → queries_in P t → queries_in Q t.
Proof. intros HPQ Ht. induction Ht; constructor; auto. Qed.

(** A synchronous task is finished by the time it first yields. *)
Lemma advance_synchronous {A} w (t : Task A) s :
  synchronous t →
  advance w t s = (settled (run w t s).1, (run w t s).2).
Proof.
  intros Ht. revert s.
  induction Ht as [r|e| |k Hk IH|f t Ht IH|q k Hq Hk IH]; intros s; simpl;
    rewrite ?Hq; auto.
Qed.

(** Proving [queries_in] by following the structure of a task. *)
Ltac queries_step :=
  match goal with
  | |- queries_in _ (_ ≫= _) => apply queries_in_bind
  | |- queries_in _ (try_catch _ _) => apply queries_in_try_catch
  | |- queries_in _ (match ?x with _ => _ end) => destruct x
  | |- queries_in _ (if ?x then _ else _) => destruct x
  | |- queries_in _ (call _) => apply qi_Call
  | |- queries_in _ (log _ _ _) => apply qi_Call
  | |- queries_in _ (modify _) => apply qi_Modify
  | |- queries_in _ read => apply qi_Read
  | |- queries_in _ (Ret _) => apply qi_Ret
  | |- queries_in _ (Throw _) => apply qi_Throw
  | |- queries_in _ Stall => apply qi_Stall
  | |- ∀ _, _ => intro
  end.

Ltac queries := repeat queries_step; try done.

(** ** The registry *)

Lemma run_get w p s :
  run w (ProjectRegistry.get p) s = (Resolved (registry (mem s) !! p), s).
Proof. reflexivity. Qed.

Lemma run_update_None w p u s :
  registry (mem s) !! p = None →
  run w (ProjectRegistry.update p u) s = (Resolved None, s).
Proof.
  intros H. unfold ProjectRegistry.update.
  rewrite run_bind, run_read. cbn beta iota. by rewrite H.
Qed.

Lemma run_update_Some w p u s e :
  registry (mem s) !! p = Some e →
  run w (ProjectRegistry.update p u) s =
  (Resolved (Some (merge_updates e u (clock s))),
   with_mem (set_registry (insert p (merge_updates e u (clock s))))
     (after_call w s DateNow)).
Proof.
  intros H. unfold ProjectRegistry.update.
  rewrite run_bind, run_read. cbn beta iota. rewrite H.
  rewrite run_bind. unfold call; cbn [run].
  by rewrite run_bind, run_modify.
Qed.

Lemma run_add w p entry s :
  run w (ProjectRegistry.add p entry) s =
  (Resolved (ProjectRegistry.stamp entry (clock s)),
   with_mem (set_registry (insert p (ProjectRegistry.stamp entry (clock s))))
     (after_call w s DateNow)).
Proof.
  unfold ProjectRegistry.add.
  rewrite run_bind. unfold call; cbn [run].
  by rewrite run_bind, run_modify.
Qed.

Lemma run_remove w p s :
  run w (ProjectRegistry.remove p) s =
  match registry (mem s) !! p with
  | Some _ => (Resolved true, with_mem (set_registry (delete p)) s)
  | None => (Resolved false, s)
  end.
Proof.
  unfold ProjectRegistry.remove.
  rewrite run_bind, run_read. cbn beta iota.
  destruct (registry (mem s) !! p); [|done].
  by rewrite run_bind, run_modify.
Qed.

Lemma get_queries P p : queries_in P (ProjectRegistry.get p).
Proof. unfold ProjectRegistry.get. queries. Qed.

Lemma update_queries (P : Query -> Prop) p u :
  P DateNow → queries_in P (ProjectRegistry.update p u).
Proof. intros ?. unfold ProjectRegistry.update. queries. Qed.

Lemma add_queries (P : Query -> Prop) p e :
  P DateNow → queries_in P (ProjectRegistry.add p e).
Proof. intros ?. unfold ProjectRegistry.add. queries. Qed.

Lemma remove_queries P p : queries_in P (ProjectRegistry.remove p).
Proof. unfold ProjectRegistry.remove. queries. Qed.

(** ** Stopping a server *)

Lemma process_kill_run w target sig s :
  run w (process_kill target sig) s =
  (match reply w s (ProcessKill target sig) with
   | KillDelivered => Resolved tt
   | KillThrows => Rejected KillFailed
   end, after_call w s (ProcessKill target sig)).
Proof.
  unfold process_kill. rewrite run_bind. unfold call; cbn [run].
  by destruct (reply w s (ProcessKill target sig)).
Qed.

Lemma getAttachProcessPIDs_run w port s :
  ∃ pids s', run w (getAttachProcessPIDs port) s = (Resolved pids, s')
             ∧ mem s' = mem s.
Proof.
  unfold getAttachProcessPIDs.
  rewrite run_try_catch, run_bind. unfold call; cbn [run].
  destruct (reply w s ExecPs) as [out|]; cbn [run].
  - by eexists _, _.
  - rewrite run_bind, run_log. cbn [run]. by eexists _, _.
Qed.

Lemma kill_each_run w port pids s :
  ∃ s', run w (kill_each port pids) s = (Resolved tt, s') ∧ mem s' = mem s.
Proof.
  revert s. induction pids as [|p rest IH]; intros s; [by exists s|].
  cbn [kill_each].
  rewrite run_bind, run_try_catch, run_bind, process_kill_run.
  destruct (reply w s (ProcessKill p SIGTERM)); rewrite run_log;
    match goal with |- context [run w (kill_each port rest) ?s1] =>
      destruct (IH s1) as (s' & -> & Hmem) end;
    by exists s'.
Qed.

Lemma killAttachProcesses_run w port s :
  ∃ s', run w (killAttachProcesses port) s = (Resolved tt, s') ∧ mem s' = mem s.
Proof.
  unfold killAttachProcesses. rewrite run_bind.
  destruct (getAttachProcessPIDs_run w port s) as (pids & s1 & -> & Hmem1).
  destruct pids as [|p rest]; [by exists s1|].
  rewrite run_bind, run_log.
  destruct (kill_each_run w port (p :: rest)
              (after_call w s1 (Log Info "Killing attach processes"
                 [("port", VNumber port); ("pids", VNumbers (p :: rest))])))
    as (s' & -> & Hmem).
  exists s'. split; [done|]. by rewrite Hmem.
Qed.

Lemma getAttachProcessPIDs_synchronous port :
  synchronous (getAttachProcessPIDs port).
Proof. unfold synchronous, getAttachProcessPIDs. queries. Qed.

Lemma kill_each_synchronous port pids : synchronous (kill_each port pids).
Proof.
  unfold synchronous. induction pids; cbn [kill_each]; [by constructor|].
  unfold process_kill. queries.
Qed.

Lemma killAttachProcesses_synchronous port :
  synchronous (killAttachProcesses port).
Proof.
  unfold synchronous, killAttachProcesses.
  apply queries_in_bind; [apply getAttachProcessPIDs_synchronous|].
  intros [|p rest]; [by constructor|].
  apply queries_in_bind; [queries|]. intros _. apply kill_each_synchronous.
Qed.

Lemma stopServer_synchronous p : synchronous (stopServer p).
Proof.
  unfold synchronous, stopServer.
  apply queries_in_bind; [apply get_queries|]. intros [e|]; [|by constructor].
  apply queries_in_bind; [queries|]. intros _.
  apply queries_in_bind; [apply killAttachProcesses_synchronous|]. intros _.
  apply queries_in_bind; [queries|]. intros m.
  apply queries_in_bind.
  { destruct (processes m !! p); unfold process_kill; queries. }
  intros _.
  apply queries_in_bind; [by apply update_queries|]. intros _.
  apply queries_in_bind; [apply remove_queries|]. intros _. constructor.
Qed.

Lemma stopServer_unknown w p s :
  registry (mem s) !! p = None →
  run w (stopServer p) s = (Resolved false, s).
Proof.
  intros H. unfold stopServer. rewrite run_bind, run_get. by rewrite H.
Qed.

Lemma stopServer_known w p s e :
  registry (mem s) !! p = Some e →
  ∃ s', run w (stopServer p) s = (Resolved true, s')
        ∧ registry (mem s') = delete p (registry (mem s))
        ∧ processes (mem s') = delete p (processes (mem s)).
Proof.
  intros H. unfold stopServer. rewrite run_bind, run_get. rewrite H.
  rewrite run_bind, run_log. rewrite run_bind.
  match goal with |- context [run w (killAttachProcesses _) ?s0] =>
    destruct (killAttachProcesses_run w (port e) s0) as (s1 & -> & Hmem1) end.
  cbn [mem after_call] in Hmem1.
  rewrite run_bind, run_read. rewrite run_bind.
  assert (∃ s2, run w
            (match processes (mem s1) !! p with
             | Some proc =>
                 call (ProcKill proc SIGTERM);;
                 modify (set_processes (delete p))
             | None => try_catch (process_kill (pid e) SIGTERM) (fun _ => Ret tt)
             end) s1 = (Resolved tt, s2)
            ∧ registry (mem s2) = registry (mem s)
            ∧ processes (mem s2) = delete p (processes (mem s)))
    as (s2 & -> & Hreg2 & Hproc2).
  { destruct (processes (mem s1) !! p) as [proc|] eqn:Hproc.
    - rewrite run_bind. unfold call; cbn [run]. rewrite run_modify.
      eexists; split; [done|]. cbn. by rewrite Hmem1.
    - rewrite run_try_catch, process_kill_run.
      destruct (reply w s1 (ProcessKill (pid e) SIGTERM)); cbn [run];
        (eexists; split; [done|]); cbn; rewrite Hmem1;
        (split; [done|]); symmetry; apply delete_id; by rewrite <- Hmem1.
  }
  rewrite run_bind.
  rewrite (run_update_Some w p _ s2 e) by (by rewrite Hreg2).
  rewrite run_bind, run_remove. cbn [mem with_mem after_call registry set_registry].
  rewrite lookup_insert_eq. cbn [run].
  eexists; split; [done|]. cbn.
  rewrite Hreg2, Hproc2. by rewrite delete_insert_eq.
Qed.

(** For a path that names no member of [Object.prototype]:
    [stopServer] on a path without an entry answers [false] and does
    nothing at all, so no signal is sent; on a path with an entry it
    answers [true] and the entry is gone, whatever the world says about
    the signals; and it never suspends, so it does not wait for the
    process to exit. *)
Lemma stopServer_removes_entry w p s :
  inherited p = false →
  synchronous (stopServer p)
  ∧ (registry (mem s) !! p = None →
     run w (stopServer p) s = (Resolved false, s)
     ∧ signals (trace (run w (stopServer p) s).2) = signals (trace s))
  ∧ (is_Some (registry (mem s) !! p) →
     ∃ s', run w (stopServer p) s = (Resolved true, s')
           ∧ registry (mem s') !! p = None).
Proof.
  intros _. split; [apply stopServer_synchronous|]. split.
  - intros H. by rewrite (stopServer_unknown w p s H).
  - intros [e He]. destruct (stopServer_known w p s e He) as (s' & Hrun & Hreg & _).
    exists s'. split; [done|]. rewrite Hreg. apply lookup_delete_eq.
Qed.

Example stopServer_on_proj :
  run (world_of signals_fail) (stopServer "/proj") boot = (Resolved false, boot)
  ∧ ∃ s', run (world_of signals_fail) (stopServer "/proj")
              (sys_with "/proj" (entry_4097 running)) = (Resolved true, s')
          ∧ registry (mem s') !! "/proj" = None.
Proof.
  split.
  - by apply (stopServer_removes_entry (world_of signals_fail) "/proj" boot).
  - apply (stopServer_removes_entry (world_of signals_fail) "/proj"
             (sys_with "/proj" (entry_4097 running))); [done|].
    exists (entry_4097 running). vm_compute. reflexivity.
Qed.

(** ** The registry at run time *)

(** On keys that name no member of [Object.prototype], the object that
    holds the entries of a typed registry answers as the typed registry
    does, and [update], [remove] and [stopServer] over it do what their
    typed embeddings do. *)

Lemma inherited_not_proto key :
  inherited key = false → String.eqb key "__proto__" = false.
Proof.
  intros H. destruct (String.eqb_spec key "__proto__") as [->|]; [|done].
  by vm_compute in H.
Qed.

Lemma property_of_entries entries key :
  inherited key = false →
  Plain.property (Plain.of_entries entries) key
  = match entries !! key with
    | Some e => Plain.Stored (Plain.object_of e)
    | None => Plain.Undefined
    end.
Proof.
  intros H. unfold Plain.property, Plain.of_entries.
  cbn [Plain.own Plain.proto].
  rewrite lookup_fmap. destruct (entries !! key) as [e|]; [done|].
  cbn. by rewrite (inherited_not_proto key H), H.
Qed.

Lemma overlay_object_of e u now :
  {| Plain.fields := Plain.overlay (Plain.fields (Plain.object_of e)) u;
     Plain.stamped := now |}
  = Plain.object_of (merge_updates e u now).
Proof.
  destruct u as [a b c d f g h i j].
  unfold Plain.object_of, Plain.overlay, merge_updates.
  cbn. by destruct a, b, c, d, f, g, h, i, j.
Qed.

Lemma assign_of_entries entries key e :
  inherited key = false →
  Plain.assign (Plain.of_entries entries) key (Plain.object_of e)
  = Plain.of_entries (<[key := e]> entries).
Proof.
  intros H. unfold Plain.assign, Plain.of_entries.
  cbn [Plain.own Plain.proto].
  by rewrite (inherited_not_proto key H), fmap_insert.
Qed.

Lemma unset_of_entries entries key :
  Plain.unset (Plain.of_entries entries) key
  = Plain.of_entries (delete key entries).
Proof.
  unfold Plain.unset, Plain.of_entries. cbn [Plain.own Plain.proto].
  by rewrite fmap_delete.
Qed.

Lemma plain_update_run w p u s :
  inherited p = false →
  run w (Plain.update (Plain.of_entries (registry (mem s))) p u) s
  = match registry (mem s) !! p with
    | Some e =>
        let e' := merge_updates e u (clock s) in
        (Resolved (Plain.Stored (Plain.object_of e'),
                   Plain.of_entries (<[p := e']> (registry (mem s)))),
         after_call w s DateNow)
    | None =>
        (Resolved (Plain.Undefined, Plain.of_entries (registry (mem s))), s)
    end.
Proof.
  intros H. unfold Plain.update. rewrite property_of_entries by done.
  destruct (registry (mem s) !! p) as [e|];
    cbn [Plain.truthy Plain.spread]; [|done].
  rewrite run_bind. unfold call; cbn [run reply].
  by rewrite overlay_object_of, assign_of_entries.
Qed.

Lemma plain_remove p entries :
  inherited p = false →
  Plain.remove (Plain.of_entries entries) p
  = (bool_decide (is_Some (entries !! p)),
     Plain.of_entries (delete p entries)).
Proof.
  intros H. unfold Plain.remove. rewrite property_of_entries by done.
  destruct (entries !! p) as [e|] eqn:He; cbn [Plain.truthy].
  - by rewrite unset_of_entries, bool_decide_true.
  - rewrite delete_id by done. rewrite bool_decide_false; [done|].
    by intros [? ?].
Qed.

Lemma plain_kill_each_run w n pids s :
  run w (Plain.kill_each (Some n) pids) s = run w (kill_each n pids) s.
Proof.
  revert s. induction pids as [|p rest IH]; intros s; [done|].
  cbn [Plain.kill_each kill_each]. rewrite !run_bind.
  change (Plain.port_field (Some n)) with [("port", VNumber n)].
  match goal with |- context [run w (try_catch ?t ?h) s] =>
    destruct (run w (try_catch t h) s) as [[[]|e|] s1] end;
    [apply IH|done|done].
Qed.

Lemma plain_killAttachProcesses_run w n s :
  run w (Plain.killAttachProcesses (Some n)) s
  = run w (killAttachProcesses n) s.
Proof.
  unfold Plain.killAttachProcesses, killAttachProcesses.
  rewrite !run_bind.
  change (Plain.getAttachProcessPIDs (Some n)) with (getAttachProcessPIDs n).
  destruct (run w (getAttachProcessPIDs n) s) as [[pids|e|] s1]; [|done|done].
  destruct pids as [|p rest]; [done|].
  rewrite !run_bind.
  change (Plain.port_field (Some n) ++ ?l) with (("port", VNumber n) :: l).
  rewrite !run_log. apply plain_kill_each_run.
Qed.

(** [stopServer] over the object and its typed embedding run alike:
    the same answer, the same queries, the same registry at the end
    (which the typed embedding keeps in [Mem]). *)
Lemma stopServer_plain_agrees w p s :
  inherited p = false →
  ∃ b s',
    run w (stopServer p) s = (Resolved b, s')
    ∧ run w (Plain.stopServer (Plain.of_entries (registry (mem s))) p) s
      = (Resolved (b, Plain.of_entries (registry (mem s'))),
         with_mem (set_registry (fun _ => registry (mem s))) s').
Proof.
  intros H. unfold stopServer, Plain.stopServer, Plain.get.
  rewrite property_of_entries by done. rewrite run_bind, run_get.
  destruct (registry (mem s) !! p) as [e|] eqn:He; cbn [Plain.truthy].
  2:{ exists false, s. split; [done|]. cbn [run]. by destruct s as [[] ? ? ?]. }
  cbn [Plain.port_of Plain.pid_of Plain.object_of Plain.fields u_port u_pid
       Plain.port_field].
  rewrite !run_bind, !run_log. rewrite !run_bind.
  rewrite plain_killAttachProcesses_run.
  match goal with |- context [run w (killAttachProcesses _) ?s0] =>
    destruct (killAttachProcesses_run w (port e) s0) as (s1 & -> & Hmem1) end.
  cbn [mem after_call] in Hmem1.
  rewrite !run_bind, !run_read. rewrite !run_bind.
  cbn [Plain.process_kill_value].
  match goal with |- context [run w ?t s1] =>
    assert (∃ s2, run w t s1 = (Resolved tt, s2)
                  ∧ registry (mem s2) = registry (mem s))
      as (s2 & -> & Hreg2) end.
  { destruct (processes (mem s1) !! p) as [proc|].
    - rewrite run_bind. unfold call; cbn [run]. rewrite run_modify.
      eexists. split; [done|]. cbn. by rewrite Hmem1.
    - rewrite run_try_catch, process_kill_run.
      destruct (reply w s1 (ProcessKill (pid e) SIGTERM)); cbn [run];
        (eexists; split; [done|]); cbn; by rewrite Hmem1. }
  rewrite !run_bind.
  rewrite (run_update_Some w p _ s2 e) by (by rewrite Hreg2).
  rewrite <- Hreg2. rewrite plain_update_run by done.
  rewrite Hreg2, He. cbv zeta. cbn iota beta.
  rewrite run_bind, run_remove.
  cbn [mem with_mem after_call registry set_registry].
  rewrite lookup_insert_eq. cbn [run].
  rewrite plain_remove by done. cbn [run].
  eexists _, _. split; [done|].
  cbn [mem with_mem after_call registry set_registry].
  rewrite Hreg2. f_equal.
  destruct s2 as [[reg2 np2 pr2] c2 t2 tr2]. cbn in Hreg2. subst reg2.
  reflexivity.
Qed.

Lemma plain_getAttachProcessPIDs_settles w port s :
  ∃ pids s',
    run w (Plain.getAttachProcessPIDs port) s = (Resolved pids, s')
    ∧ mem s' = mem s.
Proof.
  unfold Plain.getAttachProcessPIDs.
  rewrite run_try_catch, run_bind. unfold call; cbn [run].
  destruct (reply w s ExecPs) as [out|]; cbn [run].
  - by eexists _, _.
  - rewrite run_bind, run_log. cbn [run]. by eexists _, _.
Qed.

Lemma plain_kill_each_settles w port pids s :
  ∃ s', run w (Plain.kill_each port pids) s = (Resolved tt, s')
        ∧ mem s' = mem s.
Proof.
  revert s. induction pids as [|p rest IH]; intros s; [by exists s|].
  cbn [Plain.kill_each].
  rewrite run_bind, run_try_catch, run_bind, process_kill_run.
  destruct (reply w s (ProcessKill p SIGTERM)); rewrite run_log;
    match goal with |- context [run w (Plain.kill_each port rest) ?s1] =>
      destruct (IH s1) as (s' & -> & Hmem) end;
    by exists s'.
Qed.

Lemma plain_killAttachProcesses_settles w port s :
  ∃ s', run w (Plain.killAttachProcesses port) s = (Resolved tt, s')
        ∧ mem s' = mem s.
Proof.
  unfold Plain.killAttachProcesses. rewrite run_bind.
  destruct (plain_getAttachProcessPIDs_settles w port s)
    as (pids & s1 & -> & Hmem1).
  destruct pids as [|p rest]; [by exists s1|].
  rewrite run_bind, run_log.
  match goal with |- context [run w (Plain.kill_each _ _) ?s0] =>
    destruct (plain_kill_each_settles w port (p :: rest) s0)
      as (s' & -> & Hmem) end.
  exists s'. split; [done|]. by rewrite Hmem.
Qed.

Lemma inherited_property r key :
  inherited key = true →
  Plain.own r !! key = None → Plain.proto r = None →
  Plain.property r key = Plain.Other true.
Proof.
  intros H Hown Hproto. unfold Plain.property.
  rewrite Hown, Hproto. cbn. rewrite H.
  by destruct (String.eqb key "__proto__").
Qed.

(** Whatever the world, [stopServer] answers [true] for a key that names
    a member of [Object.prototype] when the registry has no property
    under it, and leaves the own properties as they were. *)
Lemma stopServer_inherited w r key s :
  inherited key = true →
  Plain.own r !! key = None → Plain.proto r = None →
  ∃ r' s', run w (Plain.stopServer r key) s = (Resolved (true, r'), s')
           ∧ Plain.own r' = Plain.own r.
Proof.
  intros H Hown Hproto. unfold Plain.stopServer, Plain.get.
  rewrite (inherited_property r key H Hown Hproto).
  cbn [Plain.truthy Plain.port_of Plain.pid_of Plain.port_field
       Plain.process_kill_value].
  rewrite run_bind, run_log. rewrite run_bind.
  match goal with |- context [run w (Plain.killAttachProcesses _) ?s0] =>
    destruct (plain_killAttachProcesses_settles w None s0) as (s1 & -> & _) end.
  rewrite run_bind, run_read. rewrite run_bind.
  match goal with |- context [run w ?t s1] =>
    assert (∃ s2, run w t s1 = (Resolved tt, s2)) as (s2 & ->) end.
  { destruct (processes (mem s1) !! key) as [proc|].
    - rewrite run_bind. unfold call; cbn [run]. rewrite run_modify. by eexists.
    - cbn [try_catch run]. by eexists. }
  rewrite run_bind. unfold Plain.update.
  rewrite (inherited_property r key H Hown Hproto). cbn [Plain.truthy].
  rewrite run_bind. unfold call; cbn [run reply].
  unfold Plain.remove, Plain.property, Plain.assign.
  destruct (String.eqb_spec key "__proto__") as [->|Hkey].
  - cbn [Plain.own Plain.proto]. rewrite Hown.
    cbn [Plain.truthy run]. eexists _, _. split; [done|].
    cbn. by apply delete_id.
  - cbn [Plain.own Plain.proto]. rewrite lookup_insert_eq.
    cbn [Plain.truthy run]. eexists _, _. split; [done|].
    cbn. rewrite delete_insert_eq. by apply delete_id.
Qed.

Example inherited_key_on_empty_registry :
  Plain.get Plain.empty "constructor" = Plain.Other true
  ∧ Plain.remove Plain.empty "constructor"
    = (true, Plain.empty)
  ∧ Plain.get Plain.empty "/proj" = Plain.Undefined
  ∧ Plain.remove Plain.empty "/proj"
    = (false, Plain.empty).
Proof. by vm_compute. Qed.

(** C3 at its failing input: no entry was ever added, and [stopServer]
    is called for the path ["constructor"] (the routes hand the decoded
    path on as it comes).  The registry has no property of its own under
    that key, yet the read finds [Object.prototype.constructor], so the
    guard [if (!entry) return false] does not fire.  [stopServer] logs,
    looks in the process table for TUIs attached to port [undefined],
    has [process.kill(undefined, ...)] throw and swallows that, lets
    [update] read the clock and store an object under the key, lets
    [remove] delete it again, and answers [true].  For a path such as
    ["/proj"] the same call answers [false] and does nothing. *)
Theorem stopServer_answers_true_for_inherited_key :
  let w := world_of all_healthy in
  let r := run w (Plain.stopServer Plain.empty "constructor") boot in
  Plain.own Plain.empty !! "constructor" = None
  ∧ run w (Plain.stopServer Plain.empty "/proj") boot
    = (Resolved (false, Plain.empty), boot)
  ∧ r.1 = Resolved (true, Plain.empty)
  ∧ ev_query <$> trace r.2
    = [Log Info "Stopping server" [("projectPath", VString "constructor")];
       ExecPs; DateNow]
  ∧ ∃ o r1,
      (run w (Plain.update Plain.empty "constructor"
                (status_update stopped)) boot).1
      = Resolved (Plain.Stored o, r1)
      ∧ Plain.own r1 !! "constructor" = Some o
      ∧ u_status (Plain.fields o) = Some stopped
      ∧ Plain.port_of (Plain.Stored o) = None.
Proof.
  cbv zeta. split; [done|]. split; [by vm_compute|].
  split; [by vm_compute|]. split; [by vm_compute|].
  eexists _, _. split; [vm_compute; reflexivity|]. by vm_compute.
Qed.

(** ** The queries of the supervisor's parts *)

Section SupervisorQueries.
Context (P : Query -> Prop).

Lemma checkHealth_queries port :
  P (Fetch port) → queries_in P (checkHealth port).
Proof. intros ?. unfold checkHealth, read_healthy. queries. Qed.

Lemma isPortAvailable_queries port :
  P (Listen port) → queries_in P (isPortAvailable port).
Proof. intros ?. unfold isPortAvailable. queries. Qed.

Lemma findAvailablePort_from_queries candidates a b :
  (∀ p, P (Listen p)) → queries_in P (findAvailablePort_from candidates a b).
Proof.
  intros ?. induction candidates as [|p rest IH]; cbn [findAvailablePort_from].
  - constructor.
  - apply queries_in_bind; [by apply isPortAvailable_queries|].
    intros []; [constructor | done].
Qed.

Lemma allocatePort_queries :
  P ImportModule → (∀ p, P (Listen p)) →
  queries_in P ProjectRegistry.allocatePort.
Proof.
  intros ??. unfold ProjectRegistry.allocatePort.
  apply queries_in_bind; [queries|]. intros _.
  apply queries_in_bind; [queries|]. intros m.
  apply queries_in_bind; [by apply findAvailablePort_from_queries|].
  intros port. queries.
Qed.

Lemma waitForServer_loop_queries fuel port start timeoutMs :
  P DateNow → P (Fetch port) → P (SetTimeout poll_interval) →
  queries_in P (waitForServer_loop fuel port start timeoutMs).
Proof.
  intros ???. induction fuel as [|fuel IH]; cbn [waitForServer_loop].
  - queries.
  - apply queries_in_bind; [queries|]. intros now.
    destruct (now - start <? timeoutMs); [|constructor].
    apply queries_in_bind; [by apply checkHealth_queries|].
    intros []; [constructor|].
    apply queries_in_bind; [queries | done].
Qed.

Lemma waitForServer_queries port timeoutMs :
  P DateNow → P (Fetch port) → P (SetTimeout poll_interval) →
  queries_in P (waitForServer port timeoutMs).
Proof.
  intros ???. unfold waitForServer.
  apply queries_in_bind; [queries|]. intros start.
  by apply waitForServer_loop_queries.
Qed.
End SupervisorQueries.

(** ** Process exit *)

Lemma spawned_app tr1 tr2 : spawned (tr1 ++ tr2) = spawned tr1 ++ spawned tr2.
Proof. apply omap_app. Qed.

Lemma exit_watchers_app tr1 tr2 :
  exit_watchers (tr1 ++ tr2) = exit_watchers tr1 ++ exit_watchers tr2.
Proof. apply omap_app. Qed.

Lemma spawned_none evs :
  Forall (fun ev => is_spawn (ev_query ev) = false) evs → spawned evs = [].
Proof.
  induction 1 as [|[q a] evs Hq _ IH]; [done|].
  unfold spawned in *. cbn [omap list_omap]. rewrite IH.
  by destruct q.
Qed.

Ltac supervisor_queries :=
  repeat first
    [ apply get_queries | apply update_queries | apply add_queries
    | apply remove_queries | apply waitForServer_queries
    | apply checkHealth_queries | apply allocatePort_queries
    | queries_step ];
  try done.

Lemma after_spawn_queries (P : Query -> Prop) p port proc :
  P DateNow → P (Fetch port) → P (SetTimeout poll_interval) →
  (∀ l msg fields, P (Log l msg fields)) →
  P (OnError proc p port) → P (OnExit proc p port) →
  queries_in P (after_spawn p port proc).
Proof. intros ??????. unfold after_spawn. supervisor_queries. Qed.

(** What [startServer] does with the child process it got: the two
    listeners first, and no further spawn. *)
Lemma after_spawn_trace w p port proc s :
  ∃ evs, trace (run w (after_spawn p port proc) s).2
         = trace s ++ [Ev (OnError proc p port) tt;
                       Ev (OnExit proc p port) tt] ++ evs
         ∧ spawned evs = [].
Proof.
  unfold after_spawn.
  rewrite run_bind. unfold call at 1; cbn [run].
  rewrite run_bind. unfold call at 1; cbn [run].
  match goal with |- context [run w ?t ?s0] =>
    destruct (run_trace_queries (fun q => is_spawn q = false) w t s0)
      as (evs & -> & Hev) end.
  { supervisor_queries. }
  apply spawned_none in Hev. exists evs. split; [|done].
  cbn [trace after_call reply]. rewrite <- !app_assoc. cbn.
  by destruct (respond w (tick s) (OnError proc p port)),
              (respond w (S (tick s)) (OnExit proc p port)).
Qed.

Lemma spawn_and_wait_trace w p s :
  ∃ evs, trace (run w (spawn_and_wait p) s).2 = trace s ++ evs ∧
    ∀ x, x ∈ spawned evs → x.1.1 = p ∧ x ∈ exit_watchers evs.
Proof.
  unfold spawn_and_wait. rewrite run_bind.
  destruct (run_trace_queries (fun q => is_spawn q = false) w
              ProjectRegistry.allocatePort s) as (evs1 & Htr1 & Hev1).
  { by apply allocatePort_queries. }
  apply spawned_none in Hev1.
  destruct (run w ProjectRegistry.allocatePort s) as [[port|e|] s1];
    cbn [snd] in Htr1.
  2,3: exists evs1; split; [done|]; rewrite Hev1; intros x Hx; by inversion Hx.
  rewrite run_bind, run_log. rewrite run_bind. unfold call at 1; cbn [run].
  match goal with |- context [reply w ?s0 (Spawn p port)] => set (s2 := s0) end.
  assert (trace (after_call w s2 (Spawn p port))
          = trace s ++ evs1
            ++ [Ev (Log Info "Starting OpenCode server"
                      [("projectPath", VString p); ("port", VNumber port)]) tt;
                Ev (Spawn p port) (reply w s2 (Spawn p port))]) as Htr2.
  { subst s2. cbn [trace after_call]. rewrite Htr1, <- !app_assoc. cbn.
    by match goal with |- context [respond w (tick s1) ?q] =>
         destruct (respond w (tick s1) q) end. }
  destruct (reply w s2 (Spawn p port)) as [proc|] eqn:Hsp.
  - destruct (after_spawn_trace w p port proc (after_call w s2 (Spawn p port)))
      as (evs2 & -> & Hev2).
    rewrite Htr2, <- !app_assoc. eexists. split; [done|].
    rewrite !spawned_app, !exit_watchers_app, Hev1. cbn. rewrite Hev2.
    intros x Hx. apply list_elem_of_singleton in Hx. subst x.
    split; [done|]. set_solver.
  - cbn [run snd]. rewrite Htr2. eexists. split; [done|].
    rewrite !spawned_app, Hev1. cbn. intros x Hx. by inversion Hx.
Qed.

Lemma startServer_trace w p s :
  ∃ evs, trace (run w (startServer p) s).2 = trace s ++ evs ∧
    ∀ x, x ∈ spawned evs → x.1.1 = p ∧ x ∈ exit_watchers evs.
Proof.
  unfold startServer. rewrite run_bind, run_get.
  destruct (registry (mem s) !! p) as [e|] eqn:He;
    [destruct (decide (status e = running)) as [Hst|Hst]|];
    try apply spawn_and_wait_trace.
  rewrite run_bind. unfold isServerHealthy.
  destruct (checkHealth_settles w (port e) s) as ([] & -> & _).
  { eexists [_]. split; [done|]. intros x Hx. by inversion Hx. }
  rewrite run_bind, (run_update_Some w p _ _ e) by done.
  match goal with |- context [run w (spawn_and_wait p) ?s0] =>
    destruct (spawn_and_wait_trace w p s0) as (evs & -> & Hevs) end.
  cbn [trace after_call with_mem]. rewrite <- !app_assoc.
  eexists. split; [done|].
  intros x Hx. rewrite !spawned_app in Hx. cbn in Hx.
  destruct (Hevs x Hx) as [? ?]. split; [done|].
  rewrite !exit_watchers_app. set_solver.
Qed.

Lemma exit_listener_attached tr p prt proc code :
  (p, prt, proc) ∈ exit_watchers tr →
  exitHandler p prt code ∈ exit_listeners tr proc code.
Proof.
  unfold exit_watchers, exit_listeners. rewrite !list_elem_of_omap.
  intros ([q a] & Hin & Hev). exists (Ev q a). split; [done|].
  destruct q; try discriminate. injection Hev as -> -> ->.
  by rewrite decide_True.
Qed.

Lemma exitHandler_run w p prt code s :
  let now := clock s + Z.of_N (elapse w (tick s)) in
  ∃ s', run w (exitHandler p prt code) s = (Resolved tt, s') ∧
    registry (mem s') =
      match registry (mem s) !! p with
      | Some e => <[p := merge_updates e exit_update now]> (registry (mem s))
      | None => registry (mem s)
      end
    ∧ nextPort (mem s') = nextPort (mem s)
    ∧ processes (mem s') = delete p (processes (mem s)).
Proof.
  intros now. unfold exitHandler.
  rewrite run_bind, run_log. rewrite run_bind, run_modify. rewrite run_bind.
  destruct (registry (mem s) !! p) as [e|] eqn:He.
  - rewrite (run_update_Some w p _ _ e) by done. cbn [run].
    eexists; split; [reflexivity|]. cbn. unfold duration.
    by rewrite Z.add_0_r.
  - rewrite run_update_None by done. cbn [run].
    eexists; split; [reflexivity|]. by cbn.
Qed.

(** C4: [startServer] attaches the exit listener to every process it
    spawns, and the listener, whatever the exit code, leaves no process
    tracked under the project path and turns the path's entry, if there is
    one, to [stopped] with no session; the exit code reaches the log
    only. *)
Theorem exit_marks_entry_stopped w p s :
  (∃ evs, trace (run w (startServer p) s).2 = trace s ++ evs ∧
     ∀ cwd prt proc code,
       (cwd, prt, proc) ∈ spawned evs →
       cwd = p ∧ exitHandler cwd prt code ∈ exit_listeners evs proc code)
  ∧ ∀ prt code,
      let r := run w (exitHandler p prt code) s in
      r.1 = Resolved tt
      ∧ processes (mem r.2) !! p = None
      ∧ (∀ e, registry (mem s) !! p = Some e →
           ∃ e', registry (mem r.2) !! p = Some e' ∧
                 status e' = stopped ∧ sessionId e' = None ∧
                 port e' = port e ∧ pid e' = pid e)
      ∧ (registry (mem s) !! p = None → registry (mem r.2) !! p = None)
      ∧ mem r.2 = mem (run w (exitHandler p prt (Some 0)) s).2.
Proof.
  split.
  - destruct (startServer_trace w p s) as (evs & Htr & Hevs).
    exists evs. split; [done|]. intros cwd prt proc code Hx.
    destruct (Hevs _ Hx) as [Hp Hw]. cbn in Hp. subst cwd.
    split; [done|]. by apply exit_listener_attached.
  - intros prt code r. subst r.
    destruct (exitHandler_run w p prt code s) as (s' & -> & Hreg & Hnext & Hproc).
    destruct (exitHandler_run w p prt (Some 0) s)
      as (s0 & -> & Hreg0 & Hnext0 & Hproc0).
    cbn [fst snd]. split; [done|]. split; [|split; [|split]].
    + rewrite Hproc. apply lookup_delete_eq.
    + intros e He. rewrite Hreg, He, lookup_insert_eq. by eexists.
    + intros He. by rewrite Hreg, He.
    + destruct (mem s'), (mem s0). cbn in *. congruence.
Qed.

Lemma exit_marks_entry_stopped_witness :
  ∃ e', registry (mem (run (world_of signals_fail)
                         (exitHandler "/proj" 4097 (Some 1))
                         (sys_with "/proj" (entry_4097 running))).2)
          !! "/proj" = Some e'
        ∧ status e' = stopped ∧ sessionId e' = None
        ∧ port e' = 4097 ∧ pid e' = 1234.
Proof.
  destruct (exit_marks_entry_stopped (world_of signals_fail) "/proj"
              (sys_with "/proj" (entry_4097 running))) as [_ H].
  destruct (H 4097 (Some 1)) as (_ & _ & He & _).
  apply (He (entry_4097 running)). vm_compute. reflexivity.
Defined.

(** ** Starting a server that is already running *)

Lemma isServerHealthy_run w prt s :
  reports_healthy (reply w s (Fetch prt)) →
  run w (isServerHealthy prt) s = (Resolved true, after_call w s (Fetch prt)).
Proof.
  intros H. unfold isServerHealthy.
  destruct (checkHealth_settles w prt s) as (b & -> & Hb).
  apply Hb in H. by subst b.
Qed.

Lemma startServer_running_healthy w p s e :
  registry (mem s) !! p = Some e →
  status e = running →
  reports_healthy (reply w s (Fetch (port e))) →
  run w (startServer p) s = (Resolved (port e), after_call w s (Fetch (port e))).
Proof.
  intros He Hst Hh. unfold startServer. rewrite run_bind, run_get, He.
  rewrite decide_True by done.
  by rewrite run_bind, isServerHealthy_run.
Qed.

(** C1, as amended: when the entry of the path has status [running] and
    its worker passes the health probe, [startServer] answers the entry's
    port after that one probe: nothing is spawned, no port is probed or
    allocated, and the module state is as it was. *)
Theorem startServer_reuses_running w p s e :
  registry (mem s) !! p = Some e →
  status e = running →
  reports_healthy (reply w s (Fetch (port e))) →
  run w (startServer p) s = (Resolved (port e), after_call w s (Fetch (port e)))
  ∧ let s' := (run w (startServer p) s).2 in
    mem s' = mem s
    ∧ spawned (trace s') = spawned (trace s)
    ∧ probed (trace s') = probed (trace s).
Proof.
  intros He Hst Hh. rewrite (startServer_running_healthy w p s e He Hst Hh).
  split; [done|]. cbn [snd after_call mem trace].
  split; [done|]. unfold spawned, probed. rewrite !omap_app. cbn.
  by rewrite !app_nil_r.
Qed.

Lemma startServer_reuses_running_witness :
  run (world_of base_port_taken) (startServer "/proj")
    (sys_with "/proj" (entry_4097 running))
  = (Resolved 4097,
     after_call (world_of base_port_taken)
       (sys_with "/proj" (entry_4097 running)) (Fetch 4097)).
Proof.
  apply (startServer_reuses_running (world_of base_port_taken) "/proj"
           (sys_with "/proj" (entry_4097 running)) (entry_4097 running)).
  - vm_compute. reflexivity.
  - reflexivity.
  - eexists _, _. repeat split; reflexivity.
Defined.

(** The guard [existing.status === "running"]: with an entry in any
    other status the call makes no probe and goes on at the allocation,
    as it does without an entry. *)
Lemma startServer_skips_probe w p s e :
  registry (mem s) !! p = Some e →
  status e ≠ running →
  run w (startServer p) s = run w (spawn_and_wait p) s.
Proof.
  intros He Hst. unfold startServer. rewrite run_bind, run_get, He.
  by rewrite decide_False.
Qed.

(** C1 as stated fails: the entry exists and its worker passes the probe,
    but its status is [error] (the worker became healthy after the
    start-up timeout); [startServer] allocates port 4098 and spawns a
    second worker. *)
Lemma startServer_respawns_when_not_running :
  let w := world_of base_port_taken in
  let s := sys_with "/proj" (entry_4097 error) in
  let r := run w (startServer "/proj") s in
  registry (mem s) !! "/proj" = Some (entry_4097 error)
  ∧ (∀ n, reports_healthy (respond w n (Fetch 4097)))
  ∧ r.1 = Resolved 4098
  ∧ (spawned (trace r.2)).*1 = [("/proj", 4098)]
  ∧ nextPort (mem s) = 4097 ∧ nextPort (mem r.2) = 4099.
Proof.
  cbv zeta. split; [by vm_compute|]. split.
  { intros n. eexists _, _. repeat split; reflexivity. }
  vm_compute. done.
Qed.

(** ** Fuel is enough *)

Section NeverStalls.
Context {A B : Type}.

Lemma never_stalls_bind (t : Task A) (k : A -> Task B) :
  never_stalls t → (∀ a, never_stalls (k a)) → never_stalls (t ≫= k).
Proof.
  intros Ht Hk w s. rewrite run_bind. specialize (Ht w s).
  destruct (run w t s) as [[a|e|] s']; [apply Hk|done|done].
Qed.

Lemma never_stalls_try_catch (t : Task A) (h : Error -> Task A) :
  never_stalls t → (∀ e, never_stalls (h e)) → never_stalls (try_catch t h).
Proof.
  intros Ht Hh w s. rewrite run_try_catch. specialize (Ht w s).
  destruct (run w t s) as [[a|e|] s']; [done|apply Hh|done].
Qed.

Lemma never_stalls_Call q (k : answer q -> Task A) :
  (∀ a, never_stalls (k a)) → never_stalls (Call q k).
Proof. intros Hk w s. apply Hk. Qed.

Lemma never_stalls_Read (k : Mem -> Task A) :
  (∀ m, never_stalls (k m)) → never_stalls (Read k).
Proof. intros Hk w s. apply Hk. Qed.

Lemma never_stalls_Modify f (t : Task A) :
  never_stalls t → never_stalls (Modify f t).
Proof. intros Ht w s. apply Ht. Qed.

Lemma never_stalls_Ret (a : A) : never_stalls (Ret a).
Proof. by intros w s. Qed.

Lemma never_stalls_Throw e : never_stalls (Throw e : Task A).
Proof. by intros w s. Qed.
End NeverStalls.

Ltac never_stalls_step :=
  match goal with
  | |- never_stalls (_ ≫= _) => apply never_stalls_bind
  | |- never_stalls (try_catch _ _) => apply never_stalls_try_catch
  | |- never_stalls (match ?x with _ => _ end) => destruct x
  | |- never_stalls (if ?x then _ else _) => destruct x
  | |- never_stalls (call _) => apply never_stalls_Call
  | |- never_stalls (log _ _ _) => apply never_stalls_Call
  | |- never_stalls (modify _) => apply never_stalls_Modify
  | |- never_stalls read => apply never_stalls_Read
  | |- never_stalls (Ret _) => apply never_stalls_Ret
  | |- never_stalls (Throw _) => apply never_stalls_Throw
  | |- ∀ _, _ => intro
  end.

Ltac never_stalls := repeat never_stalls_step; try done.

Lemma checkHealth_never_stalls prt : never_stalls (checkHealth prt).
Proof.
  intros w s. by destruct (checkHealth_settles w prt s) as (b & -> & _).
Qed.

Lemma findAvailablePort_from_never_stalls candidates a b :
  never_stalls (findAvailablePort_from candidates a b).
Proof.
  induction candidates as [|p rest IH]; cbn [findAvailablePort_from].
  - never_stalls.
  - unfold isPortAvailable. never_stalls.
Qed.

Lemma allocatePort_never_stalls : never_stalls ProjectRegistry.allocatePort.
Proof.
  unfold ProjectRegistry.allocatePort.
  apply never_stalls_bind; [never_stalls|]. intros _.
  apply never_stalls_bind; [never_stalls|]. intros m.
  apply never_stalls_bind; [apply findAvailablePort_from_never_stalls|].
  never_stalls.
Qed.

Lemma update_never_stalls p u : never_stalls (ProjectRegistry.update p u).
Proof. unfold ProjectRegistry.update. never_stalls. Qed.

Lemma add_never_stalls p e : never_stalls (ProjectRegistry.add p e).
Proof. unfold ProjectRegistry.add. never_stalls. Qed.

(** The clock only moves forward, and a timer takes at least its delay. *)
Lemma clock_after_call w s q : clock s ≤ clock (after_call w s q).
Proof. cbn. unfold duration. destruct q; lia. Qed.

Lemma clock_after_timeout w s ms :
  clock s + ms ≤ clock (after_call w s (SetTimeout ms)).
Proof. cbn. unfold duration. lia. Qed.

(** The poll loop ends before its fuel does: each round that goes on
    sleeps [poll_interval] ms. *)
Lemma waitForServer_loop_never_stalls w fuel prt start timeoutMs s :
  timeoutMs ≤ clock s - start + poll_interval * Z.of_nat fuel →
  (run w (waitForServer_loop fuel prt start timeoutMs) s).1 ≠ Stalled.
Proof.
  revert s. induction fuel as [|fuel IH]; intros s Hfuel;
    cbn [waitForServer_loop]; rewrite run_bind; unfold call at 1; cbn [run reply].
  - destruct (Z.ltb_spec (clock s - start) timeoutMs); [lia|done].
  - destruct (Z.ltb_spec (clock s - start) timeoutMs); [|done].
    rewrite run_bind. unfold isServerHealthy.
    destruct (checkHealth_settles w prt (after_call w s DateNow))
      as ([] & -> & _); [done|].
    rewrite run_bind. unfold call at 1; cbn [run].
    apply IH.
    pose proof (clock_after_call w s DateNow).
    pose proof (clock_after_call w (after_call w s DateNow) (Fetch prt)).
    pose proof (clock_after_timeout w
                  (after_call w (after_call w s DateNow) (Fetch prt))
                  poll_interval).
    unfold poll_interval in *. lia.
Qed.

Lemma waitForServer_never_stalls prt timeoutMs :
  never_stalls (waitForServer prt timeoutMs).
Proof.
  intros w s. unfold waitForServer.
  rewrite run_bind. unfold call at 1; cbn [run reply].
  apply waitForServer_loop_never_stalls.
  pose proof (clock_after_call w s DateNow).
  unfold poll_interval.
  destruct (Z.le_gt_cases 0 timeoutMs).
  - rewrite Nat2Z.inj_add, Z2Nat.id by (apply Z.div_pos; lia).
    pose proof (Z.mod_pos_bound timeoutMs 300 ltac:(lia)).
    pose proof (Z.div_mod timeoutMs 300 ltac:(lia)). lia.
  - lia.
Qed.

Lemma after_spawn_never_stalls p prt proc : never_stalls (after_spawn p prt proc).
Proof.
  unfold after_spawn.
  apply never_stalls_bind; [never_stalls|]. intros _.
  apply never_stalls_bind; [never_stalls|]. intros _.
  destruct (truthy_pid proc); [|never_stalls].
  apply never_stalls_bind; [never_stalls|]. intros _.
  apply never_stalls_bind; [apply add_never_stalls|]. intros _.
  apply never_stalls_bind; [|never_stalls].
  apply never_stalls_try_catch.
  - apply never_stalls_bind; [apply waitForServer_never_stalls|]. intros _.
    apply never_stalls_bind; [apply update_never_stalls|]. never_stalls.
  - intros err. apply never_stalls_bind; [never_stalls|]. intros _.
    apply never_stalls_bind; [apply update_never_stalls|]. never_stalls.
Qed.

Lemma spawn_and_wait_never_stalls p : never_stalls (spawn_and_wait p).
Proof.
  unfold spawn_and_wait.
  apply never_stalls_bind; [apply allocatePort_never_stalls|]. intros prt.
  apply never_stalls_bind; [never_stalls|]. intros _.
  apply never_stalls_bind; [never_stalls|].
  intros [proc|]; [apply after_spawn_never_stalls|never_stalls].
Qed.

(** [startServer] always settles: it resolves or it rejects. *)
Lemma startServer_never_stalls p : never_stalls (startServer p).
Proof.
  unfold startServer.
  apply never_stalls_bind; [unfold ProjectRegistry.get; never_stalls|].
  intros [e|]; [|apply spawn_and_wait_never_stalls].
  destruct (decide (status e = running)); [|apply spawn_and_wait_never_stalls].
  apply never_stalls_bind; [apply checkHealth_never_stalls|].
  intros []; [never_stalls|].
  apply never_stalls_bind; [apply update_never_stalls|]. intros _.
  apply spawn_and_wait_never_stalls.
Qed.

(** ** How the parts of [startServer] settle *)

Lemma findAvailablePort_from_outcome w candidates a b s :
  ∃ o s', run w (findAvailablePort_from candidates a b) s = (o, s')
          ∧ mem s' = mem s
          ∧ ((∃ prt, o = Resolved prt ∧ prt ∈ candidates)
             ∨ o = Rejected (PortExhausted a b)).
Proof.
  revert s. induction candidates as [|p rest IH]; intros s;
    cbn [findAvailablePort_from].
  - eexists _, _. split; [done|]. split; [done|]. by right.
  - rewrite run_bind, isPortAvailable_run.
    destruct (reply w s (Listen p)).
    + eexists _, _. split; [done|]. split; [done|]. left.
      eexists. split; [done|]. apply list_elem_of_here.
    + destruct (IH (after_call w s (Listen p)))
        as (o & s' & -> & Hmem & [(prt & -> & Hin)| ->]).
      * eexists _, _. split; [done|]. split; [done|]. left.
        eexists. split; [done|]. by apply list_elem_of_further.
      * eexists _, _. split; [done|]. split; [done|]. by right.
Qed.

(** Whatever the world does, a port that [allocatePort] hands out lies
    between the cursor and the ceiling, and the cursor moves to one past
    it; a failed allocation leaves the cursor alone. *)
Lemma allocatePort_outcome w s :
  ∃ o s', run w ProjectRegistry.allocatePort s = (o, s')
          ∧ registry (mem s') = registry (mem s)
          ∧ processes (mem s') = processes (mem s)
          ∧ ((∃ prt, o = Resolved prt
                     ∧ nextPort (mem s) ≤ prt ≤ default_maxPort
                     ∧ nextPort (mem s') = prt + 1)
             ∨ (∃ a b, o = Rejected (PortExhausted a b)
                       ∧ nextPort (mem s') = nextPort (mem s))).
Proof.
  unfold ProjectRegistry.allocatePort.
  rewrite run_bind. unfold call at 1; cbn [run].
  rewrite run_bind, run_read. rewrite run_bind. unfold findAvailablePort.
  match goal with |- context [run w (findAvailablePort_from ?c ?a ?b) ?s0] =>
    destruct (findAvailablePort_from_outcome w c a b s0)
      as (o & s1 & -> & Hmem & [(prt & -> & Hin)| ->]) end.
  - rewrite run_bind, run_modify. cbn [run].
    eexists _, _. split; [done|]. cbn. rewrite Hmem.
    split; [done|]. split; [done|]. left.
    eexists. split; [done|]. split; [|done].
    apply elem_of_seqZ in Hin. cbn in Hin. lia.
  - eexists _, _. split; [done|]. rewrite Hmem.
    split; [done|]. split; [done|]. right. by eexists _, _.
Qed.

Lemma waitForServer_loop_outcome w fuel prt start timeoutMs s :
  ∃ o s', run w (waitForServer_loop fuel prt start timeoutMs) s = (o, s')
          ∧ mem s' = mem s
          ∧ ((o = Resolved tt ∧ ∃ k, reports_healthy (respond w k (Fetch prt)))
             ∨ o = Rejected (HealthTimeout prt timeoutMs)
             ∨ o = Stalled).
Proof.
  revert s. induction fuel as [|fuel IH]; intros s;
    cbn [waitForServer_loop]; rewrite run_bind; unfold call at 1; cbn [run reply];
    destruct (clock s - start <? timeoutMs);
    try (eexists _, _; split; [done|]; split; [done|]; tauto).
  rewrite run_bind. unfold isServerHealthy.
  destruct (checkHealth_settles w prt (after_call w s DateNow))
    as ([] & -> & Hb).
  { eexists _, _; split; [done|]; split; [done|]. left. split; [done|].
    eexists. by apply Hb. }
  rewrite run_bind. unfold call at 1; cbn [run].
  match goal with |- context [run w (waitForServer_loop _ _ _ _) ?s0] =>
    destruct (IH s0) as (o & s' & -> & Hmem & Ho) end.
  by eexists _, _.
Qed.

Lemma waitForServer_run w prt timeoutMs s :
  run w (waitForServer prt timeoutMs) s =
  run w (waitForServer_loop (Z.to_nat (timeoutMs / poll_interval) + 1)
           prt (clock s) timeoutMs) (after_call w s DateNow).
Proof. unfold waitForServer. by rewrite run_bind. Qed.

Lemma waitForServer_outcome w prt timeoutMs s :
  ∃ o s', run w (waitForServer prt timeoutMs) s = (o, s')
          ∧ mem s' = mem s
          ∧ ((o = Resolved tt ∧ ∃ k, reports_healthy (respond w k (Fetch prt)))
             ∨ o = Rejected (HealthTimeout prt timeoutMs)).
Proof.
  pose proof (waitForServer_never_stalls prt timeoutMs w s) as Hns.
  rewrite waitForServer_run in *.
  match goal with |- context [run w (waitForServer_loop ?f _ ?st _) ?s0] =>
    destruct (waitForServer_loop_outcome w f prt st timeoutMs s0)
      as (o & s' & Hrun & Hmem & Ho) end.
  rewrite Hrun in *. eexists _, _. split; [done|]. split; [done|].
  cbn in Hns. tauto.
Qed.

(** What [startServer] does once [spawn] has returned [proc]: without
    a pid it resolves at once and touches nothing; with one it records
    the process and the entry, and the poll decides between [running]
    and [error]. *)
Lemma after_spawn_outcome w p prt proc s :
  ∃ o s', run w (after_spawn p prt proc) s = (o, s')
    ∧ spawned (trace s') = spawned (trace s)
    ∧ nextPort (mem s') = nextPort (mem s)
    ∧ match truthy_pid proc with
      | None => o = Resolved prt ∧ mem s' = mem s
      | Some n =>
          processes (mem s') = <[p := proc]> (processes (mem s))
          ∧ ∃ e, registry (mem s') = <[p := e]> (registry (mem s))
                 ∧ port e = prt ∧ pid e = n
                 ∧ ((o = Resolved prt ∧ status e = running
                     ∧ ∃ k, reports_healthy (respond w k (Fetch prt)))
                    ∨ (o = Rejected (HealthTimeout prt default_timeoutMs)
                       ∧ status e = error))
      end.
Proof.
  destruct (after_spawn_trace w p prt proc s) as (evs & Htr & Hevs).
  destruct (run w (after_spawn p prt proc) s) as [o s'] eqn:Hrun.
  cbn [snd] in Htr.
  assert (spawned (trace s') = spawned (trace s)) as Hsp.
  { rewrite Htr, !spawned_app, Hevs. cbn. by rewrite app_nil_r. }
  clear Htr Hevs. exists o, s'. split; [done|]. split; [done|]. clear Hsp.
  revert Hrun. unfold after_spawn.
  rewrite run_bind. unfold call at 1; cbn [run].
  rewrite run_bind. unfold call at 1; cbn [run].
  match goal with |- context [run w _ ?s0] => set (s5 := s0) end.
  assert (mem s5 = mem s) as Hmem5 by done.
  clearbody s5.
  destruct (truthy_pid proc) as [n|].
  2:{ cbn [run]. intros [= <- <-]. by rewrite Hmem5. }
  rewrite run_bind, run_modify. rewrite run_bind, run_add.
  rewrite run_bind, run_try_catch, run_bind.
  match goal with |- context [run w (waitForServer _ _) ?s0] =>
    set (s7 := s0);
    destruct (waitForServer_outcome w prt default_timeoutMs s7)
      as (oW & s8 & -> & Hmem8 & HoW) end.
  set (e7 := ProjectRegistry.stamp
               {| n_port := prt; n_pid := n; n_status := starting;
                  n_hasTUI := false; n_tmuxSession := None;
                  n_tmuxWindow := None; n_tmuxPane := None;
                  n_sessionId := None |}
               (clock (with_mem (set_processes (insert p proc)) s5))) in *.
  assert (registry (mem s8) = <[p := e7]> (registry (mem s))) as Hreg8.
  { rewrite Hmem8. subst s7. cbn. by rewrite Hmem5. }
  assert (nextPort (mem s8) = nextPort (mem s)) as Hnext8.
  { rewrite Hmem8. subst s7. cbn. by rewrite Hmem5. }
  assert (processes (mem s8) = <[p := proc]> (processes (mem s))) as Hp8.
  { rewrite Hmem8. subst s7. cbn. by rewrite Hmem5. }
  assert (registry (mem s8) !! p = Some e7) as He8.
  { rewrite Hreg8. apply lookup_insert_eq. }
  destruct HoW as [[-> Hk] | ->].
  - rewrite run_bind, (run_update_Some w p _ s8 e7 He8).
    rewrite run_log. cbn [run]. intros [= <- <-].
    cbn [mem after_call with_mem set_registry registry nextPort processes].
    rewrite Hnext8, Hreg8, Hp8, insert_insert_eq.
    split; [done|]. split; [done|]. eexists. split; [done|].
    split; [done|]. split; [done|]. left. done.
  - rewrite run_bind, run_log. rewrite run_bind.
    match goal with |- context [run w (ProjectRegistry.update p ?u) ?s0] =>
      rewrite (run_update_Some w p u s0 e7 He8) end.
    cbn [run]. intros [= <- <-].
    cbn [mem after_call with_mem set_registry registry nextPort processes].
    rewrite Hnext8, Hreg8, Hp8, insert_insert_eq.
    split; [done|]. split; [done|]. eexists. split; [done|].
    split; [done|]. split; [done|]. right. done.
Qed.

(** How [startServer] settles from the allocation on. *)
Lemma spawn_and_wait_outcome w p s :
  ∃ o s', run w (spawn_and_wait p) s = (o, s') ∧
    match o with
    | Resolved prt =>
        ∃ proc,
          spawned (trace s') = spawned (trace s) ++ [(p, prt, proc)] ∧
          (∃ k, respond w k (Spawn p prt) = Spawned proc) ∧
          match truthy_pid proc with
          | Some n =>
              ∃ e, registry (mem s') !! p = Some e ∧ status e = running
                   ∧ port e = prt ∧ pid e = n
                   ∧ processes (mem s') !! p = Some proc
                   ∧ ∃ k, reports_healthy (respond w k (Fetch prt))
          | None => registry (mem s') = registry (mem s)
          end
    | Rejected (HealthTimeout prt t) =>
        t = default_timeoutMs ∧
        (∃ proc k, respond w k (Spawn p prt) = Spawned proc
                   ∧ truthy_pid proc ≠ None
                   ∧ spawned (trace s') = spawned (trace s) ++ [(p, prt, proc)]
                   ∧ processes (mem s') !! p = Some proc) ∧
        ∃ e, registry (mem s') !! p = Some e ∧ status e = error ∧ port e = prt
    | Rejected (PortExhausted a b) =>
        registry (mem s') = registry (mem s)
        ∧ spawned (trace s') = spawned (trace s)
        ∧ (run w ProjectRegistry.allocatePort s).1 = Rejected (PortExhausted a b)
    | Rejected SpawnError =>
        registry (mem s') = registry (mem s)
        ∧ processes (mem s') = processes (mem s)
        ∧ spawned (trace s') = spawned (trace s)
        ∧ exit_watchers (trace s') = exit_watchers (trace s)
        ∧ ∃ k prt, respond w k (Spawn p prt) = SpawnThrows
    | Rejected _ => False
    | Stalled => False
    end.
Proof.
  unfold spawn_and_wait. rewrite run_bind.
  destruct (run_trace_queries
              (fun q => is_spawn q = false
                        ∧ match q with OnExit _ _ _ => False | _ => True end)
              w ProjectRegistry.allocatePort s) as (evs1 & Htr1 & Hev1).
  { by apply allocatePort_queries. }
  assert (spawned evs1 = [] ∧ exit_watchers evs1 = []) as [Hsp1 Hex1].
  { clear Htr1. induction Hev1 as [|[q a] evs [Hq Hq'] _ [IH1 IH2]]; [done|].
    unfold spawned, exit_watchers in *. cbn [omap list_omap].
    rewrite IH1, IH2. by destruct q. }
  clear Hev1.
  destruct (allocatePort_outcome w s) as (o & s1 & Hrun & Hreg1 & Hproc1 & Ho).
  rewrite Hrun in *. cbn [snd] in Htr1.
  destruct Ho as [(prt & -> & _) | (a & b & -> & _)].
  2:{ eexists _, _. split; [done|]. cbn. split; [done|].
      by rewrite Htr1, spawned_app, Hsp1, app_nil_r. }
  clear Hrun.
  rewrite run_bind, run_log. rewrite run_bind. unfold call at 1; cbn [run].
  match goal with |- context [reply w ?s0 (Spawn p prt)] => set (s2 := s0) end.
  assert (mem s2 = mem s1) as Hmem2 by done.
  assert (spawned (trace s2) = spawned (trace s)
          ∧ exit_watchers (trace s2) = exit_watchers (trace s)) as [Hsp2 Hex2].
  { subst s2. cbn [trace after_call].
    rewrite Htr1, !spawned_app, !exit_watchers_app, Hsp1, Hex1. cbn.
    by rewrite !app_nil_r. }
  clearbody s2. clear Htr1.
  destruct (reply w s2 (Spawn p prt)) as [proc|] eqn:Hspawn;
    cbn [reply] in Hspawn.
  2:{ cbn [run]. eexists _, _. split; [done|].
      cbn [mem trace after_call]. rewrite Hmem2, Hreg1, Hproc1.
      split; [done|]. split; [done|].
      rewrite spawned_app, exit_watchers_app, Hsp2, Hex2. cbn.
      rewrite Hspawn. cbn. rewrite !app_nil_r.
      split; [done|]. split; [done|]. by exists (tick s2), prt. }
  destruct (after_spawn_outcome w p prt proc (after_call w s2 (Spawn p prt)))
    as (o & s' & -> & Hsp & _ & Ho).
  cbn [trace after_call mem] in Hsp, Ho.
  rewrite spawned_app, Hsp2 in Hsp. cbn in Hsp. rewrite Hspawn in Hsp.
  cbn in Hsp.
  eexists _, _. split; [done|].
  destruct (truthy_pid proc) as [n|] eqn:Hpid.
  - destruct Ho as (Hprocs & e & Hreg & Hport & Hpidn & [(-> & Hst & Hk)|(-> & Hst)]).
    + exists proc. split; [done|]. split; [by exists (tick s2)|].
      rewrite Hpid. exists e. rewrite Hreg, Hprocs, !lookup_insert_eq. done.
    + split; [done|]. split.
      * exists proc, (tick s2). rewrite Hpid, Hprocs, lookup_insert_eq. done.
      * exists e. by rewrite Hreg, lookup_insert_eq.
  - destruct Ho as [-> Hmem]. exists proc. split; [done|].
    split; [by exists (tick s2)|]. rewrite Hpid, Hmem, Hmem2. done.
Qed.

(** [startServer] either answers from the registry or goes on to spawn. *)
Lemma startServer_cases w p s :
  (∃ e, registry (mem s) !! p = Some e ∧ status e = running
        ∧ reports_healthy (reply w s (Fetch (port e)))
        ∧ run w (startServer p) s
          = (Resolved (port e), after_call w s (Fetch (port e))))
  ∨ (∃ s0, run w (startServer p) s = run w (spawn_and_wait p) s0
           ∧ spawned (trace s0) = spawned (trace s)
           ∧ nextPort (mem s0) = nextPort (mem s)
           ∧ (registry (mem s) !! p = None → s0 = s)).
Proof.
  unfold startServer. rewrite run_bind, run_get.
  destruct (registry (mem s) !! p) as [e|] eqn:He;
    [destruct (decide (status e = running)) as [Hst|Hst]|];
    try (right; by exists s).
  rewrite run_bind. unfold isServerHealthy.
  destruct (checkHealth_settles w (port e) s) as ([] & -> & Hb).
  { left. exists e. repeat split; try done. by apply Hb. }
  right. rewrite run_bind, (run_update_Some w p _ _ e) by done.
  eexists. split; [done|]. cbn. unfold spawned. rewrite !omap_app. cbn.
  by rewrite !app_nil_r.
Qed.

(** Whenever [startServer] rejects with a health timeout, the entry of the
    path is there, on the port that timed out and with status [error]. *)
Lemma startServer_timeout_recorded w p s prt t :
  (run w (startServer p) s).1 = Rejected (HealthTimeout prt t) →
  ∃ e, registry (mem (run w (startServer p) s).2) !! p = Some e
       ∧ status e = error ∧ port e = prt.
Proof.
  destruct (startServer_cases w p s) as [(e & _ & _ & _ & ->) | (s0 & -> & _)];
    [done|].
  destruct (spawn_and_wait_outcome w p s0) as (o & s' & -> & Ho).
  cbn [fst snd]. intros ->. by destruct Ho as (_ & _ & ?).
Qed.

(** When a port can be allocated, the spawn yields a pid and no probe is
    ever answered healthy, [startServer] rejects with the health timeout
    and records status [error]. *)
Lemma startServer_health_timeout w free p s :
  ports_are w free →
  (∃ q, nextPort (mem s) ≤ q ≤ 4196 ∧ free q = true) →
  (∀ n cwd prt, spawn_pid (respond w n (Spawn cwd prt)) ≠ None) →
  (∀ n prt, ¬ reports_healthy (respond w n (Fetch prt))) →
  ∃ prt e, (run w (startServer p) s).1 = Rejected (HealthTimeout prt 15000)
           ∧ registry (mem (run w (startServer p) s).2) !! p = Some e
           ∧ status e = error ∧ port e = prt.
Proof.
  intros Hw Hfree Hspawn Hsick.
  destruct (startServer_cases w p s)
    as [(e & _ & _ & Hh & _) | (s0 & -> & _ & Hnext & _)].
  { by apply Hsick in Hh. }
  destruct (spawn_and_wait_outcome w p s0) as (o & s' & Hrun & Ho).
  rewrite Hrun. cbn [fst snd].
  destruct o as [prt|[a b|prt t| | | | | |]|]; try done.
  - destruct Ho as (proc & Htr & [k Hk] & Ho).
    destruct (truthy_pid proc) as [n|] eqn:Hpid.
    + destruct Ho as (e & _ & _ & _ & _ & _ & k' & Hk'). by apply Hsick in Hk'.
    + specialize (Hspawn k p prt). rewrite Hk in Hspawn. by cbn in Hspawn.
  - destruct Ho as (_ & _ & Halloc).
    destruct (allocatePort_run w free s0 Hw) as (s1 & _ & Hrun1).
    rewrite Hrun1 in Halloc. rewrite Hnext in Halloc.
    destruct (List.find free _) as [q|] eqn:Hfind; [done|].
    rewrite find_range_None in Hfind. destruct Hfree as (q & Hq & Hfq).
    unfold default_maxPort in Hfind. rewrite Hfind in Hfq by done. done.
  - destruct Ho as (-> & _ & e & He & Hst & Hprt). by exists prt, e.
  - destruct Ho as (_ & _ & _ & _ & k & prt & Hk).
    specialize (Hspawn k p prt). by rewrite Hk in Hspawn.
Qed.

Example startServer_times_out :
  let r := run (world_of never_healthy) (startServer "/proj") boot in
  r.1 = Rejected (HealthTimeout 4097 15000)
  ∧ status <$> registry (mem r.2) !! "/proj" = Some error.
Proof. vm_compute. done. Qed.

(** ** A spawn that fails *)

(** When [spawn] returns a child process without a pid, [startServer]
    on a path without an entry never rejects for it: it resolves with
    the allocated port (or fails for want of a port), and the path still
    has no entry. *)
Lemma startServer_spawn_failure w p s :
  registry (mem s) !! p = None →
  (∀ n cwd prt, ∃ proc, respond w n (Spawn cwd prt) = Spawned proc
                        ∧ truthy_pid proc = None) →
  let r := run w (startServer p) s in
  registry (mem r.2) !! p = None
  ∧ ((∃ prt, r.1 = Resolved prt) ∨ (∃ a b, r.1 = Rejected (PortExhausted a b))).
Proof.
  intros Hnone Hspawn r. subst r.
  destruct (startServer_cases w p s)
    as [(e & He & _) | (s0 & -> & _ & _ & Hs0)]; [congruence|].
  rewrite (Hs0 Hnone).
  destruct (spawn_and_wait_outcome w p s) as (o & s' & -> & Ho). cbn [fst snd].
  destruct o as [prt|[a b|prt t| | | | | |]|]; try done.
  - destruct Ho as (proc & _ & [k Hk] & Ho).
    destruct (Hspawn k p prt) as (proc' & Hk' & Hpid).
    rewrite Hk in Hk'. injection Hk' as <-. rewrite Hpid in Ho.
    rewrite Ho. split; [done|]. left. by eexists.
  - destruct Ho as (-> & _). split; [done|]. right. by eexists _, _.
  - destruct Ho as (_ & (proc & k & Hk & Hpid & _) & _).
    destruct (Hspawn k p prt) as (proc' & Hk' & Hpid').
    rewrite Hk in Hk'. injection Hk' as <-. done.
  - destruct Ho as (_ & _ & _ & _ & k & prt & Hk).
    destruct (Hspawn k p prt) as (proc' & Hk' & _). by rewrite Hk in Hk'.
Qed.

(** C2 at its failing input: the command cannot be started, so the child
    process has no pid and emits ['error'].  [startServer] resolves with
    port 4097 all the same; the path has no entry, and none after the
    error listener has run, so no status [error] is recorded. *)
Theorem startServer_spawn_failure_resolves :
  let w := world_of spawn_fails in
  let r := run w (startServer "/proj") boot in
  let proc := {| handle := 3; proc_pid := None |} in
  r.1 = Resolved 4097
  ∧ spawned (trace r.2) = [("/proj", 4097, proc)]
  ∧ registry (mem r.2) !! "/proj" = None
  ∧ length (error_listeners (trace r.2) proc) = 1%nat
  ∧ registry (mem (run_all w (error_listeners (trace r.2) proc) r.2))
      !! "/proj" = None.
Proof. vm_compute. done. Qed.

(** ** Two calls for one path *)

(** C9 as stated fails.  The second call for ["/proj"] begins while the
    first polls the health of its worker: it finds the entry in status
    [starting], allocates port 4098 and spawns a second worker; the two
    calls resolve to different ports. *)
Lemma concurrent_startServer_spawns_twice :
  let w := world_of all_healthy in
  let r0 := play w (take 3 second_call_during_poll) [] boot in
  let r := play w second_call_during_poll [] boot in
  registry (mem boot) !! "/proj" = None
  ∧ status <$> registry (mem r0.2) !! "/proj" = Some starting
  ∧ r.1 = [Ret 4097; Ret 4098]
  ∧ (spawned (trace r.2)).*1 = [("/proj", 4097); ("/proj", 4098)].
Proof. vm_compute. done. Qed.

(** C9, as amended: two calls for a path without an entry, made one
    after the other with nothing in between -- the second begins in the
    very state in which the first resolved, and no other call and no
    listener of a worker runs while either is in flight.  When the spawn
    of the first yielded a pid and the worker answers the probe of the
    second, the second call spawns nothing and resolves to the port of
    the first: one worker has been spawned between them. *)
Theorem startServer_twice_in_sequence w p s prt s1 :
  registry (mem s) !! p = None →
  (∀ n cwd q, spawn_pid (respond w n (Spawn cwd q)) ≠ None) →
  run w (startServer p) s = (Resolved prt, s1) →
  reports_healthy (reply w s1 (Fetch prt)) →
  let r2 := run w (startServer p) s1 in
  r2.1 = Resolved prt
  ∧ ∃ proc, spawned (trace r2.2) = spawned (trace s) ++ [(p, prt, proc)].
Proof.
  intros Hnone Hspawn Hrun1 Hh r2. subst r2.
  destruct (startServer_cases w p s)
    as [(e & He & _) | (s0 & Hrun & _ & _ & Hs0)]; [congruence|].
  rewrite (Hs0 Hnone) in Hrun. rewrite Hrun in Hrun1.
  destruct (spawn_and_wait_outcome w p s) as (o & s' & Hsw & Ho).
  rewrite Hsw in Hrun1. injection Hrun1 as -> ->.
  destruct Ho as (proc & Htr & [k Hk] & Ho).
  specialize (Hspawn k p prt). rewrite Hk in Hspawn. cbn [spawn_pid] in Hspawn.
  destruct (truthy_pid proc) as [n|] eqn:Hpid; [|done].
  destruct Ho as (e & He & Hst & <- & _).
  rewrite (startServer_running_healthy w p s1 e He Hst Hh).
  cbn [fst snd trace after_call]. split; [done|]. exists proc.
  rewrite spawned_app, Htr. cbn. by rewrite app_nil_r.
Qed.

Lemma startServer_twice_in_sequence_witness :
  let w := world_of all_healthy in
  let s1 := (run w (startServer "/proj") boot).2 in
  (run w (startServer "/proj") s1).1 = Resolved 4097
  ∧ ∃ proc, spawned (trace (run w (startServer "/proj") s1).2)
            = spawned (trace boot) ++ [("/proj", 4097, proc)].
Proof.
  intros w s1.
  apply (startServer_twice_in_sequence w "/proj" boot 4097 s1).
  - reflexivity.
  - intros n cwd q. vm_compute. discriminate.
  - vm_compute. reflexivity.
  - eexists _, _. repeat split; reflexivity.
Defined.

(** ** The scan of the process table *)

Lemma insert_ascending_perm x l : Permutation (x :: l) (insert_ascending x l).
Proof.
  induction l as [|y l IH]; cbn [insert_ascending]; [done|].
  destruct (x <=? y); [done|].
  rewrite perm_swap. by constructor.
Qed.

Lemma sort_ascending_perm l : Permutation l (sort_ascending l).
Proof.
  induction l as [|x l IH]; [done|]. cbn [sort_ascending foldr].
  rewrite <- insert_ascending_perm. by constructor.
Qed.

Lemma insert_ascending_sorted x l :
  Sorted Z.le l → Sorted Z.le (insert_ascending x l).
Proof.
  induction l as [|y l IH]; cbn [insert_ascending]; intros Hs.
  { by repeat constructor. }
  destruct (Z.leb_spec x y).
  - constructor; [done|]. by constructor.
  - apply Sorted_inv in Hs as [Hs Hhd].
    constructor; [by apply IH|].
    destruct l as [|z l]; cbn [insert_ascending].
    + constructor. lia.
    + destruct (x <=? z); constructor; [lia|]. by inversion Hhd.
Qed.

Lemma sort_ascending_sorted l : Sorted Z.le (sort_ascending l).
Proof.
  induction l as [|x l IH]; [constructor|].
  by apply insert_ascending_sorted.
Qed.

Lemma scan_line_range line p : scan_line line = Some p → 4000 ≤ p ≤ 5000.
Proof.
  unfold scan_line.
  destruct (_ && _ && _); [|done].
  destruct (Text.match_port line) as [digits|]; [|done].
  destruct (Text.parseInt digits) as [n|]; [|done].
  destruct (Z.leb_spec 4000 n), (Z.leb_spec n 5000); try done.
  by intros [= <-].
Qed.

Lemma scan_line_out_of_range line n :
  port_argument line = Some n → ¬ (4000 ≤ n ≤ 5000) → scan_line line = None.
Proof.
  unfold port_argument, scan_line. intros Harg Hn.
  destruct (_ && _ && _); [|done].
  destruct (Text.match_port line) as [digits|]; [|done]. cbn in Harg.
  rewrite Harg.
  destruct (Z.leb_spec 4000 n), (Z.leb_spec n 5000); try done. lia.
Qed.

Lemma scan_output_range out : Forall (fun p => 4000 ≤ p ≤ 5000) (scan_output out).
Proof.
  unfold scan_output. rewrite <- sort_ascending_perm.
  apply Forall_forall. intros p Hp.
  apply list_elem_of_omap in Hp as (line & _ & Hline).
  by apply scan_line_range in Hline.
Qed.

#[local] Arguments Text.newline : simpl never.

Lemma split_lines_line l :
  newline_free l = true → Text.split_lines l = [l].
Proof.
  induction l as [|c l IH]; [done|]. simpl.
  destruct (Ascii.eqb c Text.newline); [done|]. simpl.
  intros H. by rewrite IH.
Qed.

Lemma split_lines_cons l rest :
  newline_free l = true →
  Text.split_lines (l +:+ String Text.newline rest) = l :: Text.split_lines rest.
Proof.
  induction l as [|c l IH]; simpl; [done|].
  destruct (Ascii.eqb c Text.newline); [done|]. simpl.
  intros H. by rewrite IH.
Qed.

Lemma split_lines_unlines lines :
  lines ≠ [] → Forall (fun l => newline_free l = true) lines →
  Text.split_lines (unlines lines) = lines.
Proof.
  intros Hne Hfree. induction Hfree as [|l rest Hl Hrest IH]; [done|].
  destruct rest as [|l' rest]; cbn [unlines].
  - by apply split_lines_line.
  - rewrite split_lines_cons by done. f_equal. by apply IH.
Qed.

Lemma scan_output_unlines lines :
  Forall (fun l => newline_free l = true) lines →
  scan_output (unlines lines) = sort_ascending (omap scan_line lines).
Proof.
  intros Hfree. unfold scan_output.
  destruct lines as [|l rest]; [done|].
  by rewrite split_lines_unlines.
Qed.

Lemma scanExistingOpenCodePorts_run w s :
  ∃ s', run w scanExistingOpenCodePorts s =
        (Resolved match reply w s ExecPs with
                  | ExecOutput out => scan_output out
                  | ExecThrows => []
                  end, s')
        ∧ mem s' = mem s.
Proof.
  unfold scanExistingOpenCodePorts.
  rewrite run_try_catch, run_bind. unfold call at 1; cbn [run].
  destruct (reply w s ExecPs) as [out|]; cbn [run].
  - by eexists.
  - rewrite run_bind, run_log. cbn [run]. by eexists.
Qed.

Lemma highest_bounds (P : Z -> Prop) p ps :
  P p → Forall P ps → P (ProjectRegistry.highest p ps).
Proof.
  intros Hp Hps. unfold ProjectRegistry.highest.
  induction Hps as [|q ps Hq _ IH]; cbn [foldr]; [done|].
  by destruct (Z.max_spec q (foldr Z.max p ps)) as [[_ ->]|[_ ->]].
Qed.

Lemma initializePortAllocation_run w s :
  let s0 := after_call w s ImportModule in
  let ports := match reply w s0 ExecPs with
               | ExecOutput out => scan_output out
               | ExecThrows => []
               end in
  ∃ s', run w ProjectRegistry.initializePortAllocation s = (Resolved tt, s')
        ∧ registry (mem s') = registry (mem s)
        ∧ nextPort (mem s') =
            match ports with
            | [] => nextPort (mem s)
            | p :: ps => Z.max 4097 (ProjectRegistry.highest p ps + 1)
            end.
Proof.
  intros s0 ports. unfold ProjectRegistry.initializePortAllocation.
  rewrite run_bind. unfold call at 1; cbn [run]. fold s0.
  rewrite run_bind.
  destruct (scanExistingOpenCodePorts_run w s0) as (s1 & -> & Hmem). fold ports.
  destruct ports as [|p ps].
  - rewrite run_log. eexists. split; [done|]. cbn. by rewrite Hmem.
  - rewrite run_bind, run_modify. rewrite run_bind, run_read, run_log.
    eexists. split; [done|]. cbn. by rewrite Hmem.
Qed.

(** The cursor never falls below the base port: only [allocatePort] and
    [initializePortAllocation] assign it. *)
Lemma cursor_at_least_base w s :
  4097 ≤ nextPort (mem s) →
  4097 ≤ nextPort (mem (run w ProjectRegistry.allocatePort s).2)
  ∧ 4097 ≤ nextPort (mem (run w ProjectRegistry.initializePortAllocation s).2).
Proof.
  intros Hbase. split.
  - destruct (allocatePort_outcome w s)
      as (o & s' & -> & _ & _ & [(prt & _ & Hprt & Hnext)|(a & b & _ & Hnext)]);
      cbn [snd]; lia.
  - destruct (initializePortAllocation_run w s) as (s' & -> & _ & Hnext).
    cbn [snd]. rewrite Hnext.
    destruct (match reply w _ ExecPs with ExecOutput out => scan_output out
              | ExecThrows => [] end); lia.
Qed.

(** C10: the scan always answers, with the empty list when the process
    table cannot be read; what it reports is sorted in ascending order and
    lies in 4000..5000; a line whose [--port] argument is outside that
    range does not change the report; and port recovery sets the cursor
    from the report alone, to the old cursor or into 4097..5001. *)
Theorem scan_reports_range_only w s :
  (∃ s', run w scanExistingOpenCodePorts s =
         (Resolved match reply w s ExecPs with
                   | ExecOutput out => scan_output out
                   | ExecThrows => []
                   end, s'))
  ∧ (∀ out, Forall (fun p => 4000 ≤ p ≤ 5000) (scan_output out)
            ∧ Sorted Z.le (scan_output out))
  ∧ (∀ before line after n,
       Forall (fun l => newline_free l = true) (before ++ line :: after) →
       port_argument line = Some n → ¬ (4000 ≤ n ≤ 5000) →
       scan_output (unlines (before ++ line :: after))
       = scan_output (unlines (before ++ after)))
  ∧ (let r := run w ProjectRegistry.initializePortAllocation s in
     let ports := match reply w (after_call w s ImportModule) ExecPs with
                  | ExecOutput out => scan_output out
                  | ExecThrows => []
                  end in
     r.1 = Resolved tt
     ∧ nextPort (mem r.2) =
         match ports with
         | [] => nextPort (mem s)
         | p :: ps => Z.max 4097 (ProjectRegistry.highest p ps + 1)
         end
     ∧ (nextPort (mem r.2) = nextPort (mem s)
        ∨ 4097 ≤ nextPort (mem r.2) ≤ 5001)).
Proof.
  split; [|split; [|split]].
  - destruct (scanExistingOpenCodePorts_run w s) as (s' & Hrun & _). by exists s'.
  - intros out. split; [apply scan_output_range|apply sort_ascending_sorted].
  - intros before line after n Hfree Harg Hn.
    rewrite !scan_output_unlines; [|by rewrite Forall_app, Forall_cons in *; tauto|done].
    rewrite !omap_app. cbn [omap list_omap].
    by rewrite (scan_line_out_of_range line n).
  - destruct (initializePortAllocation_run w s) as (s' & -> & _ & Hnext).
    cbn [fst snd]. split; [done|]. split; [done|].
    destruct (match reply w _ ExecPs with ExecOutput out => scan_output out
              | ExecThrows => [] end) as [|p ps] eqn:Hports; [by left|].
    right. rewrite Hnext.
    assert (Forall (fun p => 4000 ≤ p ≤ 5000) (p :: ps)) as Hrange.
    { rewrite <- Hports. destruct (reply w _ ExecPs);
        [apply scan_output_range|constructor]. }
    apply Forall_cons in Hrange as [Hp Hps].
    pose proof (highest_bounds (fun p => 4000 ≤ p ≤ 5000) p ps Hp Hps) as Hh.
    cbv beta in Hh. lia.
Qed.

Lemma scan_reports_range_only_witness :
  scan_output (unlines three_workers) = scan_output (unlines ["user  101  0.0  0.1  opencode serve --port 4100"; "user  103  0.0  0.1  opencode serve --port 3999"]).
Proof.
  destruct (scan_reports_range_only (world_of all_healthy) boot) as (_ & _ & H & _).
  apply (H ["user  101  0.0  0.1  opencode serve --port 4100"]
           "user  102  0.0  0.1  opencode serve --port 6000"
           ["user  103  0.0  0.1  opencode serve --port 3999"] 6000).
  - repeat constructor.
  - reflexivity.
  - lia.
Defined.

(** Recovery after a restart: the worker on 4100 moves the cursor to
    4101, the one on 6000 does not move it, and the next allocation
    answers 4101. *)
Example recovery_after_restart :
  let w := world_of after_restart in
  let r := run w (ProjectRegistry.initializePortAllocation;;
                  ProjectRegistry.allocatePort) boot in
  nextPort (mem (run w ProjectRegistry.initializePortAllocation boot).2) = 4101
  ∧ r.1 = Resolved 4101.
Proof. by vm_compute. Qed.

(** ** The event hub: forwarding *)

Section Forwarding.
Import EventHub HubVocabulary.

Lemma is_forwarded_allow_list ty :
  is_forwarded (Some ty) = if bool_decide (ty ∈ allow_list) then Some ty else None.
Proof.
  unfold is_forwarded, allow_list.
  repeat match goal with
         | |- context [String.eqb ty ?x] =>
             destruct (String.eqb_spec ty x) as [->|]; [by vm_compute|]
         end.
  rewrite bool_decide_false; [done|].
  rewrite !elem_of_cons, elem_of_nil. tauto.
Qed.

Lemma writes_broadcast env message sinks :
  writes (flat_map (write_to env message) sinks)
  = (fun res => (res, message)) <$> sinks.
Proof.
  induction sinks as [|res sinks IH]; [done|].
  cbn [flat_map fmap list_fmap]. unfold writes in *.
  rewrite omap_app, IH. unfold write_to. by destruct (write_throws env res).
Qed.

Lemma delivered_broadcast env message sinks :
  delivered (flat_map (write_to env message) sinks)
  = (fun res => (res, message))
      <$> filter (fun res => write_throws env res = false) sinks.
Proof.
  induction sinks as [|res sinks IH]; [done|].
  cbn [flat_map]. unfold delivered in *.
  rewrite omap_app, IH, filter_cons. unfold write_to.
  destruct (write_throws env res) eqn:Hw; cbn.
  - by rewrite decide_False.
  - by rewrite decide_True.
Qed.

Lemma write_errors_broadcast env message sinks :
  write_errors (flat_map (write_to env message) sinks)
  = length (filter (fun res => write_throws env res = true) sinks).
Proof.
  induction sinks as [|res sinks IH]; [done|].
  cbn [flat_map]. unfold write_errors in *.
  rewrite omap_app, length_app, IH, filter_cons. unfold write_to.
  destruct (write_throws env res) eqn:Hw; cbn.
  - by rewrite decide_True.
  - by rewrite decide_False.
Qed.

(** C7: the loop body runs for the events read while the stream has not
    been cancelled (the abort signal is checked after each read, and an
    event read after cancellation only ends the loop).  Of these, an
    event whose type is on the allow-list is written to every sink of
    the path, in order; each failed write is logged and the sinks after
    it are still written to; any other event produces no output at all;
    and as long as the path has sinks the loop goes on, whatever the
    writes did. *)
Theorem on_event_forwards_allow_list env c event h p prt :
  forwarders h !! c
    = Some {| f_path := p; f_port := prt; f_phase := Streaming |} →
  c ∉ aborted h →
  let r := on_event env c event h in
  let sinks := sinks_of p h in
  (∀ ty, type event = Some ty → ty ∈ allow_list →
     let message := sse_message ty (properties event) in
     writes r.2 = (fun res => (res, message)) <$> sinks
     ∧ delivered r.2 = (fun res => (res, message))
                         <$> filter (fun res => write_throws env res = false) sinks
     ∧ write_errors r.2
       = length (filter (fun res => write_throws env res = true) sinks))
  ∧ ((∀ ty, type event = Some ty → ty ∉ allow_list) → r.2 = [])
  ∧ (is_Some (connections h !! p) → r.1 = h).
Proof.
  intros Hf Hc r sinks. subst r sinks. unfold on_event, sinks_of.
  rewrite Hf, decide_False by done.
  split; [|split].
  - intros ty Hty Hallow. rewrite Hty, is_forwarded_allow_list.
    rewrite bool_decide_true by done. unfold broadcast.
    destruct (connections h !! p) as [sinks|]; cbn [snd default].
    + by rewrite writes_broadcast, delivered_broadcast, write_errors_broadcast.
    + done.
  - intros Hnot. destruct (type event) as [ty|] eqn:Hty.
    + rewrite is_forwarded_allow_list, bool_decide_false by by apply Hnot.
      by destruct (connections h !! p).
    + by destruct (connections h !! p).
  - intros [sinks ->]. done.
Qed.

Lemma on_event_forwards_allow_list_witness :
  let h := (steps running_env
              [AddConnection "/p" 1; AddConnection "/p" 7;
               AddConnection "/p" 3; SubscribeResolved 0]%nat initial).1 in
  let r := on_event running_env 0%nat message_created h in
  let message := sse_message "message.created" "{}" in
  writes r.2 = [(1, message); (7, message); (3, message)]%nat
  ∧ delivered r.2 = [(1, message); (3, message)]%nat
  ∧ write_errors r.2 = 1%nat.
Proof.
  intros h r message.
  destruct (on_event_forwards_allow_list running_env 0%nat message_created h
              "/p" 4097) as (H & _).
  - vm_compute. reflexivity.
  - vm_compute. discriminate.
  - apply (H "message.created"); [reflexivity|].
    unfold allow_list. apply list_elem_of_here.
Defined.

(** The check of the abort signal: an event read after the stream was
    cancelled ends the loop, and nothing is written for it. *)
Lemma on_event_after_abort env c event h p prt :
  forwarders h !! c
    = Some {| f_path := p; f_port := prt; f_phase := Streaming |} →
  c ∈ aborted h →
  on_event env c event h = (finish c p h, []).
Proof.
  intros Hf Hc. unfold on_event. by rewrite Hf, decide_True.
Qed.

Example cancelled_stream_ends :
  let h := (steps running_env resubscribed initial).1 in
  sinks_of "/p" h = [2%nat]
  ∧ (on_event running_env 0%nat message_created h).2 = []
  ∧ writes (on_event running_env 1%nat message_created h).2
    = [(2%nat, sse_message "message.created" "{}")].
Proof. by vm_compute. Qed.
End Forwarding.

(** ** The event hub: one stream per path *)

Section OneStream.
Import EventHub HubVocabulary.

(** The last subscriber leaving cancels the stream the hub has on
    record for the path, and forgets the path. *)
Lemma closeHandler_last_subscriber p res c h :
  connections h !! p = Some [res] →
  activeStreams h !! p = Some c →
  let h' := closeHandler p res h in
  c ∈ aborted h' ∧ activeStreams h' !! p = None ∧ connections h' !! p = None.
Proof.
  intros Hconn Hact h'. subst h'. unfold closeHandler.
  cbn [connections with_connections].
  rewrite lookup_alter_eq, Hconn. cbn [fmap option_fmap option_map].
  unfold set_delete. rewrite filter_cons, decide_False, filter_nil by tauto.
  cbn [activeStreams with_connections]. rewrite Hact.
  cbn. rewrite !lookup_delete_eq. split; [set_solver|done].
Qed.

(** The retry callback starts nothing for a path without subscribers or
    with a stream on record. *)
Lemma retry_guard env p h :
  connections h !! p = None ∨ is_Some (activeStreams h !! p) →
  retry env p h = (h, []).
Proof.
  unfold retry. intros [-> | [c ->]]; [done|].
  by destruct (connections h !! p).
Qed.

(** A new subscriber starts nothing for a path with a stream on
    record. *)
Lemma addConnection_reuses_stream env p res c h :
  activeStreams h !! p = Some c →
  let h' := (addConnection env p res h).1 in
  forwarders h' = forwarders h ∧ activeStreams h' = activeStreams h.
Proof.
  intros Hact h'. subst h'. unfold addConnection.
  destruct (connections h !! p); cbn; by rewrite Hact.
Qed.

(** What is on record stays sound, whatever happens to the hub: the
    defect below is a stream that is open without being on record, never
    a record without its stream. *)
Lemma records_sound_initial : records_sound initial.
Proof. repeat split; intros *; by rewrite ?lookup_empty, ?elem_of_empty. Qed.

Lemma startEventForwarding_sound env p h :
  records_sound h → records_sound (startEventForwarding env p h).1.
Proof.
  intros (Hrec & Hab & Hfw). unfold startEventForwarding.
  destruct (env_registry env !! p) as [e|]; [|done].
  destruct (decide (status e = running)); [|done].
  split; [|split]; cbn.
  - intros p' c. rewrite lookup_insert. case_decide as Hp.
    + intros [= <-]. split.
      * intros Hin. apply Hab in Hin. lia.
      * rewrite lookup_insert_eq. subst p'. by eexists.
    + intros Hc. destruct (Hrec p' c Hc) as (Hnot & f & Hf & Hpath).
      split; [done|]. exists f. split; [|done].
      rewrite lookup_insert_ne; [done|]. apply Hfw in Hf. lia.
  - intros c Hc. apply Hab in Hc. lia.
  - intros c f. rewrite lookup_insert. case_decide; [lia|].
    intros Hf. apply Hfw in Hf. lia.
Qed.

(** Records of different paths name different controllers. *)
Lemma records_differ h p p' c :
  records_sound h →
  activeStreams h !! p = Some c → activeStreams h !! p' = Some c → p = p'.
Proof.
  intros (Hrec & _) Hp Hp'.
  destruct (Hrec p c Hp) as (_ & f & Hf & <-).
  destruct (Hrec p' c Hp') as (_ & f' & Hf' & <-). congruence.
Qed.

Lemma cancel_sound h p c :
  records_sound h → activeStreams h !! p = Some c →
  records_sound (with_activeStreams (delete p) (abort c h)).
Proof.
  intros Hs Hp. pose proof Hs as (Hrec & Hab & Hfw).
  split; [|split]; cbn.
  - intros p' c'. rewrite lookup_delete. case_decide as Hne; [done|].
    intros Hc'. destruct (Hrec p' c' Hc') as (Hnot & Hf). split; [|done].
    rewrite elem_of_union, elem_of_singleton. intros [->|]; [|done].
    by destruct Hne; eapply records_differ.
  - intros c'. rewrite elem_of_union, elem_of_singleton. intros [->|]; [|by apply Hab].
    destruct (Hrec p c Hp) as (_ & f & Hf & _). by eapply Hfw.
  - done.
Qed.

Lemma finish_sound h p c f :
  records_sound h → forwarders h !! c = Some f → f_path f = p →
  records_sound (finish c p h).
Proof.
  intros (Hrec & Hab & Hfw) Hf Hpath. split; [|split]; cbn.
  - intros p' c'. rewrite lookup_delete. case_decide as Hne; [done|].
    intros Hc'. destruct (Hrec p' c' Hc') as (Hnot & f' & Hf' & Hpath').
    split; [done|]. exists f'. split; [|done].
    rewrite lookup_delete_ne; [done|]. intros <-. congruence.
  - done.
  - intros c' f'. rewrite lookup_delete. case_decide; [done|]. apply Hfw.
Qed.

Lemma closeHandler_sound p res h :
  records_sound h → records_sound (closeHandler p res h).
Proof.
  intros Hs. unfold closeHandler.
  destruct (connections (with_connections _ h) !! p) as [[|]|]; try done.
  destruct (activeStreams _ !! p) as [c|] eqn:Hc; [|done].
  by apply (cancel_sound (with_connections (delete p)
              (with_connections (alter (set_delete res) p) h)) p c).
Qed.

Lemma on_close_sound res h : records_sound h → records_sound (on_close res h).
Proof.
  unfold on_close. generalize (filter (fun l => l.1 = res) (close_listeners h)).
  intros ls. revert h. induction ls as [|l ls IH]; intros h Hs; [done|].
  cbn [foldl]. apply IH. by apply closeHandler_sound.
Qed.

Lemma records_sound_step env a h :
  records_sound h → records_sound (step env a h).1.
Proof.
  intros Hs. destruct a as [p res|res|c|c ev|c|c|p|p]; cbn [step fst].
  - unfold addConnection.
    match goal with |- context [startEventForwarding env p ?h2] =>
      assert (records_sound h2) as Hs2 by (by destruct (connections h !! p))
    end.
    destruct (activeStreams _ !! p).
    + done.
    + apply (startEventForwarding_sound env p) in Hs2.
      destruct (startEventForwarding env p _) as [h3 out]. done.
  - by apply on_close_sound.
  - unfold on_subscribed. destruct (forwarders h !! c) as [[p n []]|] eqn:Hf;
      try done.
    destruct Hs as (Hrec & Hab & Hfw). split; [|split]; cbn; [|done|].
    + intros p' c' Hc'. destruct (Hrec p' c' Hc') as (Hnot & f & Hf' & Hpath).
      split; [done|]. rewrite lookup_insert. case_decide as Hcc.
      * subst c'. rewrite Hf in Hf'. injection Hf' as <-. by eexists.
      * by exists f.
    + intros c' f. rewrite lookup_insert. case_decide as Hcc; [|apply Hfw].
      intros _. subst c'. by eapply Hfw.
  - unfold on_event. destruct (forwarders h !! c) as [[p n []]|] eqn:Hf;
      try done.
    destruct (decide (c ∈ aborted h)); cbn [fst].
    + by eapply finish_sound.
    + destruct (connections h !! p); cbn [fst]; [done|]. by eapply finish_sound.
  - unfold on_end. destruct (forwarders h !! c) as [[p n []]|] eqn:Hf;
      try done. by eapply finish_sound.
  - unfold on_failure. destruct (forwarders h !! c) as [f|] eqn:Hf; [|done].
    destruct (decide (c ∈ aborted h)); cbn [fst]; by eapply finish_sound.
  - unfold on_timer. destruct (take_timer p (timers h)); [|done].
    unfold retry. cbn [connections activeStreams with_timers].
    destruct (connections h !! p); [|done].
    destruct (activeStreams h !! p); [done|].
    by apply startEventForwarding_sound.
  - unfold stopEventForwarding.
    destruct (activeStreams h !! p) as [c|] eqn:Hc; [|done].
    by apply cancel_sound.
Qed.

Lemma records_sound_steps env actions h :
  records_sound h → records_sound (steps env actions h).1.
Proof.
  revert h. induction actions as [|a rest IH]; intros h Hs; [done|].
  cbn [steps]. pose proof (records_sound_step env a h Hs) as Hs1.
  destruct (step env a h) as [h1 out1]. specialize (IH h1 Hs1).
  by destruct (steps env rest h1).
Qed.

(** C8 at its failing input.  A first subscriber comes and goes and a
    second one comes; the cancelled first invocation then reads an
    event, and its [finally] deletes the record of the second stream.
    The third subscriber therefore opens another stream: two streams
    for ["/p"] are open and not cancelled, each event reaches every
    subscriber twice, and when the last subscriber has left only the
    stream on record has been cancelled. *)
Theorem stale_finally_allows_second_stream :
  let h := (steps running_env third_subscriber initial).1 in
  let streaming := {| f_path := "/p"; f_port := 4097; f_phase := Streaming |} in
  forwarders h !! 1%nat = Some streaming
  ∧ forwarders h !! 2%nat = Some streaming
  ∧ open_streams "/p" h = {[1; 2]}%nat
  ∧ sinks_of "/p" h = [2; 3]%nat
  ∧ (writes (steps running_env
               [StreamEvent 1 message_created;
                StreamEvent 2 message_created]%nat h).2).*1
    = [2; 3; 2; 3]%nat
  ∧ (let h' := (steps running_env [Close 2; Close 3]%nat h).1 in
     connections h' !! "/p" = None
     ∧ open_streams "/p" h' = {[1%nat]}).
Proof.
  cbv zeta. repeat split; vm_compute; reflexivity.
Qed.
(** The records are sound even there: what went wrong is not on record. *)
Example records_sound_at_failing_input :
  records_sound (steps running_env third_subscriber initial).1.
Proof. apply records_sound_steps, records_sound_initial. Qed.
End OneStream.

(** * Further properties *)

(** ** The registry as a map *)

(** A typed registry stands for the object that holds its entries and
    has its first prototype ([Plain.of_entries]).  Where a
    statement below speaks of a path without an entry, it is for the
    paths that name no member of [Object.prototype]: there the typed
    embedding and the object agree ([property_of_entries],
    [plain_update_run], [plain_remove], [stopServer_plain_agrees]). *)


(** X2: for a path that names no member of [Object.prototype],
    [update] never adds or removes a key and leaves the entries of the
    other paths alone.  For a path without an entry it does nothing at
    all, not even read the clock, and answers [undefined]; for a path
    with an entry the entry it answers is the one stored, and its
    [lastActivity] is the time of the call. *)
Theorem update_keeps_keys w p u s :
  inherited p = false →
  let r := run w (ProjectRegistry.update p u) s in
  dom (registry (mem r.2)) =@{gset string} dom (registry (mem s))
  ∧ delete p (registry (mem r.2)) = delete p (registry (mem s))
  ∧ (registry (mem s) !! p = None → r = (Resolved None, s))
  ∧ (∀ e, registry (mem s) !! p = Some e →
       ∃ e', r.1 = Resolved (Some e')
             ∧ registry (mem r.2) !! p = Some e'
             ∧ lastActivity e' = clock s).
Proof.
  intros _. cbv zeta. destruct (registry (mem s) !! p) as [e|] eqn:He.
  - rewrite (run_update_Some w p u s e He). cbn.
    rewrite delete_insert_eq, lookup_insert_eq.
    split; [|split; [done|split; [done|]]].
    + apply dom_insert_lookup_L. by rewrite He.
    + intros e0 [= <-]. by eexists.
  - rewrite (run_update_None w p u s He). cbn. repeat split; done.
Qed.

Lemma update_keeps_keys_witness :
  let s := sys_with "/proj" (entry_4097 running) in
  let w := world_of all_healthy in
  run w (ProjectRegistry.update "/other" (status_update stopped)) s
  = (Resolved None, s)
  ∧ ∃ e', (run w (ProjectRegistry.update "/proj" (status_update stopped)) s).1
          = Resolved (Some e')
          ∧ lastActivity e' = 0.
Proof.
  intros s w. split.
  - apply (update_keeps_keys w "/other" (status_update stopped) s); by vm_compute.
  - destruct (update_keeps_keys w "/proj" (status_update stopped) s)
      as (_ & _ & _ & H); [by vm_compute|].
    destruct (H (entry_4097 running)) as (e' & He' & _ & Hlast);
      [by vm_compute|].
    by exists e'.
Defined.

(** X3: for a path that names no member of [Object.prototype],
    [remove] answers whether the path had an entry; afterwards the path
    has none, a second [remove] answers [false], and the entries of the
    other paths are as they were.  It asks nothing of the runtime. *)
Theorem remove_then_get w p s :
  inherited p = false →
  let r := run w (ProjectRegistry.remove p) s in
  r.1 = Resolved (bool_decide (is_Some (registry (mem s) !! p)))
  ∧ run w (ProjectRegistry.get p) r.2 = (Resolved None, r.2)
  ∧ run w (ProjectRegistry.remove p) r.2 = (Resolved false, r.2)
  ∧ delete p (registry (mem r.2)) = delete p (registry (mem s))
  ∧ trace r.2 = trace s.
Proof.
  intros _. cbv zeta. rewrite !run_remove, run_get.
  destruct (registry (mem s) !! p) as [e|] eqn:He; cbn.
  - rewrite !lookup_delete_eq, delete_delete_eq. done.
  - rewrite He. done.
Qed.

Lemma remove_then_get_witness :
  let s := sys_with "/proj" (entry_4097 running) in
  let w := world_of all_healthy in
  let r := run w (ProjectRegistry.remove "/proj") s in
  r.1 = Resolved true
  ∧ run w (ProjectRegistry.get "/proj") r.2 = (Resolved None, r.2)
  ∧ run w (ProjectRegistry.remove "/proj") r.2 = (Resolved false, r.2).
Proof.
  intros s w r.
  destruct (remove_then_get w "/proj" s) as (H1 & H2 & H3 & _);
    [by vm_compute|].
  split; [exact H1|]. split; [exact H2|exact H3].
Defined.

(** X4: [setTUI] records the pane and [clearTUI] forgets it again; both
    keep the port, the pid, the status, the session id and the start
    time of the entry. *)
Theorem clearTUI_undoes_setTUI w p session window pane s e :
  registry (mem s) !! p = Some e →
  let s1 := (run w (setTUI p session window pane) s).2 in
  let s2 := (run w (clearTUI p) s1).2 in
  ∃ e1 e2,
    registry (mem s1) !! p = Some e1 ∧ registry (mem s2) !! p = Some e2
    ∧ (hasTUI e1, tmuxSession e1, tmuxWindow e1, tmuxPane e1)
      = (true, Some session, Some window, Some pane)
    ∧ (hasTUI e2, tmuxSession e2, tmuxWindow e2, tmuxPane e2)
      = (false, None, None, None)
    ∧ (port e1, pid e1, status e1, sessionId e1, startedAt e1)
      = (port e, pid e, status e, sessionId e, startedAt e)
    ∧ (port e2, pid e2, status e2, sessionId e2, startedAt e2)
      = (port e, pid e, status e, sessionId e, startedAt e).
Proof.
  intros He. cbv zeta. unfold setTUI, clearTUI.
  rewrite (run_update_Some w p _ s e He). cbn [snd].
  match goal with |- context [run w (ProjectRegistry.update p ?u) ?s1] =>
    rewrite (run_update_Some w p u s1
               (merge_updates e (tui_update session window pane) (clock s)))
      by (cbn; apply lookup_insert_eq) end.
  cbn [snd]. eexists _, _. cbn. rewrite !lookup_insert_eq. done.
Qed.

Lemma clearTUI_undoes_setTUI_witness :
  let s := sys_with "/proj" (entry_4097 running) in
  let s1 := (run (world_of all_healthy) (setTUI "/proj" "dev" "proj" "%3") s).2 in
  let s2 := (run (world_of all_healthy) (clearTUI "/proj") s1).2 in
  ∃ e1 e2,
    registry (mem s1) !! "/proj" = Some e1 ∧ registry (mem s2) !! "/proj" = Some e2
    ∧ (hasTUI e1, tmuxSession e1, tmuxWindow e1, tmuxPane e1)
      = (true, Some "dev", Some "proj", Some "%3")
    ∧ (hasTUI e2, tmuxSession e2, tmuxWindow e2, tmuxPane e2)
      = (false, None, None, None)
    ∧ (port e1, pid e1, status e1, sessionId e1, startedAt e1)
      = (4097, 1234, running, Some "ses_1", 0)
    ∧ (port e2, pid e2, status e2, sessionId e2, startedAt e2)
      = (4097, 1234, running, Some "ses_1", 0).
Proof.
  apply (clearTUI_undoes_setTUI (world_of all_healthy) "/proj" "dev" "proj" "%3"
           (sys_with "/proj" (entry_4097 running)) (entry_4097 running)).
  vm_compute. reflexivity.
Defined.

(** ** The port cursor *)

(** X5: a port handed out by [allocatePort] lies in the range from the
    cursor to 4196, and as long as nothing lowers the cursor in between,
    a later allocation hands out a greater port: no port is handed out
    twice. *)
Theorem allocatePort_never_repeats w w' s s' prt prt' :
  (run w ProjectRegistry.allocatePort s).1 = Resolved prt →
  nextPort (mem (run w ProjectRegistry.allocatePort s).2) ≤ nextPort (mem s') →
  (run w' ProjectRegistry.allocatePort s').1 = Resolved prt' →
  nextPort (mem s) ≤ prt ∧ prt < prt' ∧ prt' ≤ 4196.
Proof.
  destruct (allocatePort_outcome w s)
    as (o & s1 & -> & _ & _ & [(q & -> & Hq & Hnext)|(a & b & -> & _)]);
    cbn [fst snd]; [|done].
  intros [= ->] Hle.
  destruct (allocatePort_outcome w' s')
    as (o' & s1' & -> & _ & _ & [(q' & -> & Hq' & _)|(a & b & -> & _)]);
    cbn [fst snd]; [|done].
  intros [= ->]. unfold default_maxPort in *. lia.
Qed.

Lemma allocatePort_never_repeats_witness :
  nextPort (mem boot) ≤ 4097 ∧ 4097 < 4098 ∧ 4098 ≤ 4196.
Proof.
  apply (allocatePort_never_repeats (world_of all_healthy) (world_of all_healthy)
           boot (run (world_of all_healthy) ProjectRegistry.allocatePort boot).2
           4097 4098).
  - vm_compute. reflexivity.
  - vm_compute. discriminate.
  - vm_compute. reflexivity.
Defined.

Lemma probed_after_call w s q :
  probed (trace (after_call w s q))
  = probed (trace s) ++ match q with Listen prt => [prt] | _ => [] end.
Proof.
  unfold probed. cbn [trace after_call]. rewrite omap_app. f_equal.
  destruct q; reflexivity.
Qed.

(** X6: once the cursor has passed 4196 an allocation fails without
    trying any port, whatever ports are free; so does [startServer] for
    a path without an entry, and it spawns nothing and changes
    nothing. *)
Theorem allocatePort_exhausted w p s :
  default_maxPort < nextPort (mem s) →
  run w ProjectRegistry.allocatePort s
  = (Rejected (PortExhausted (nextPort (mem s)) default_maxPort),
     after_call w s ImportModule)
  ∧ (registry (mem s) !! p = None →
     let r := run w (startServer p) s in
     r.1 = Rejected (PortExhausted (nextPort (mem s)) default_maxPort)
     ∧ spawned (trace r.2) = spawned (trace s)
     ∧ probed (trace r.2) = probed (trace s)
     ∧ mem r.2 = mem s).
Proof.
  intros Hfull.
  assert (run w ProjectRegistry.allocatePort s
          = (Rejected (PortExhausted (nextPort (mem s)) default_maxPort),
             after_call w s ImportModule)) as Halloc.
  { unfold ProjectRegistry.allocatePort.
    rewrite run_bind. unfold call at 1; cbn [run].
    rewrite run_bind, run_read. rewrite run_bind. unfold findAvailablePort.
    cbn [mem after_call]. rewrite seqZ_nil by lia. done. }
  split; [done|]. intros Hnone. cbv zeta.
  unfold startServer. rewrite run_bind, run_get, Hnone.
  unfold spawn_and_wait. rewrite run_bind, Halloc. cbn [fst snd].
  split; [done|]. rewrite probed_after_call, app_nil_r.
  cbn [trace after_call mem]. rewrite spawned_app. cbn. by rewrite app_nil_r.
Qed.

Lemma allocatePort_exhausted_witness :
  let s := with_mem (set_nextPort 4197) boot in
  (run (world_of all_healthy) (startServer "/proj") s).1
  = Rejected (PortExhausted 4197 4196).
Proof.
  intros s.
  destruct (allocatePort_exhausted (world_of all_healthy) "/proj" s) as [_ H].
  - vm_compute. reflexivity.
  - apply H. reflexivity.
Defined.

Lemma highest_upper p ps :
  Forall (fun q => q ≤ ProjectRegistry.highest p ps) (p :: ps).
Proof.
  unfold ProjectRegistry.highest. induction ps as [|q ps IH]; cbn [foldr].
  - by repeat constructor.
  - apply Forall_cons in IH as [Hp Hps]. repeat constructor; [lia|lia|].
    eapply Forall_impl; [exact Hps|]. cbv beta. intros. lia.
Qed.

(** X7: after port recovery, an allocation never hands out a port that
    the scan of the process table has reported, nor a smaller one: the
    workers that survived a restart of the manager keep their ports. *)
Theorem recovery_skips_reported_ports w w' s psOutput prt :
  respond w (S (tick s)) ExecPs = ExecOutput psOutput →
  let s1 := (run w ProjectRegistry.initializePortAllocation s).2 in
  (run w' ProjectRegistry.allocatePort s1).1 = Resolved prt →
  Forall (fun q => q < prt) (scan_output psOutput).
Proof.
  intros Hps. cbv zeta.
  destruct (initializePortAllocation_run w s) as (s1 & -> & _ & Hnext).
  cbn [snd]. cbn [reply after_call tick] in Hnext. rewrite Hps in Hnext.
  destruct (allocatePort_outcome w' s1)
    as (o & s2 & -> & _ & _ & [(q & -> & Hq & _)|(a & b & -> & _)]);
    cbn [fst]; [|done].
  intros [= ->].
  destruct (scan_output psOutput) as [|p ps]; [constructor|].
  eapply Forall_impl; [apply highest_upper|]. cbv beta. intros. lia.
Qed.

Lemma recovery_skips_reported_ports_witness :
  Forall (fun q => q < 4101) (scan_output (unlines three_workers)).
Proof.
  apply (recovery_skips_reported_ports (world_of after_restart)
           (world_of after_restart) boot (unlines three_workers) 4101).
  - reflexivity.
  - vm_compute. reflexivity.
Defined.

(** ** Attach processes *)

Lemma attach_pid_line port line pid :
  attach_pid port line = Some pid →
  is_attach_line port line = true ∧ any_attach_pid line = Some pid.
Proof.
  unfold attach_pid, is_attach_line, any_attach_pid.
  destruct (Text.includes "opencode attach" line); [|done].
  destruct (Text.includes ("http://localhost:" +:+ _) line); [|done].
  destruct (Text.includes "grep" line); done.
Qed.

(** X8: [isTUIAttached] always answers and changes nothing; it answers
    [false] when the process table cannot be read, and [true] whenever
    [getAttachProcessPIDs] finds a pid for the same port in the same
    table. *)
Theorem isTUIAttached_agrees_with_pids w port s :
  let attached := run w (isTUIAttached port) s in
  let pids := run w (getAttachProcessPIDs port) s in
  mem attached.2 = mem s
  ∧ (∃ b, attached.1 = Resolved b)
  ∧ (respond w (tick s) ExecPs = ExecThrows → attached.1 = Resolved false)
  ∧ (∀ pid rest, pids.1 = Resolved (pid :: rest) → attached.1 = Resolved true).
Proof.
  cbv zeta. unfold isTUIAttached, getAttachProcessPIDs.
  rewrite !run_try_catch, !run_bind. unfold call; cbn [run reply].
  destruct (respond w (tick s) ExecPs) as [out|]; cbn [run fst snd].
  - split; [done|]. split; [by eexists|]. split; [done|].
    intros pid rest [= Hpids]. f_equal. apply existsb_exists.
    assert (pid ∈ omap (attach_pid port) (Text.split_lines out)) as Hin.
    { rewrite Hpids. apply list_elem_of_here. }
    apply list_elem_of_omap in Hin as (line & Hline & Hpid).
    exists line. split; [by apply list_elem_of_In|].
    by apply attach_pid_line in Hpid as [? _].
  - rewrite !run_bind, !run_log. cbn [run fst snd].
    split; [done|]. split; [by eexists|]. done.
Qed.

Lemma signals_after_call w s q :
  signals (trace (after_call w s q))
  = signals (trace s) ++ (if is_signal q then [q] else []).
Proof.
  unfold signals. cbn [trace after_call]. rewrite fmap_app, filter_app.
  f_equal. cbn [fmap list_fmap ev_query]. rewrite filter_cons, filter_nil.
  destruct (is_signal q) eqn:Hq.
  - by rewrite decide_True.
  - by rewrite decide_False by congruence.
Qed.

Lemma kill_each_signals w port pids s :
  signals (trace (run w (kill_each port pids) s).2)
  = signals (trace s) ++ terminate pids.
Proof.
  revert s. induction pids as [|p rest IH]; intros s.
  { cbn. by rewrite app_nil_r. }
  cbn [kill_each].
  rewrite run_bind, run_try_catch, run_bind, process_kill_run.
  destruct (reply w s (ProcessKill p SIGTERM)); rewrite run_log;
    destruct (run w (kill_each port rest) _) as [[| |] s'] eqn:Hrest;
    match type of Hrest with run w _ ?s1 = _ =>
      pose proof (IH s1) as IH1; rewrite Hrest in IH1;
      pose proof (kill_each_run w port rest s1) as (? & Hk & _);
      rewrite Hrest in Hk
    end; try done;
    cbn [snd] in *; rewrite IH1, !signals_after_call; cbn;
    by rewrite app_nil_r, <- app_assoc.
Qed.

(** The pids [getAttachProcessPIDs] answers when it runs in [s]. *)
Lemma getAttachProcessPIDs_result w port s :
  (run w (getAttachProcessPIDs port) s).1
  = Resolved match respond w (tick s) ExecPs with
             | ExecOutput out => omap (attach_pid port) (Text.split_lines out)
             | ExecThrows => []
             end.
Proof.
  unfold getAttachProcessPIDs.
  rewrite run_try_catch, run_bind. unfold call; cbn [run reply].
  destruct (respond w (tick s) ExecPs) as [out|]; cbn [run fst]; [done|].
  by rewrite run_bind, run_log.
Qed.

Lemma killAttachProcesses_trace w port s :
  ∃ s', run w (killAttachProcesses port) s = (Resolved tt, s')
        ∧ mem s' = mem s
        ∧ signals (trace s')
          = signals (trace s)
              ++ terminate match respond w (tick s) ExecPs with
                           | ExecOutput out =>
                               omap (attach_pid port) (Text.split_lines out)
                           | ExecThrows => []
                           end.
Proof.
  destruct (killAttachProcesses_run w port s) as (s' & Hrun & Hmem).
  exists s'. split; [done|]. split; [done|].
  revert Hrun. unfold killAttachProcesses, getAttachProcessPIDs.
  rewrite run_bind, !run_try_catch, !run_bind. unfold call at 1; cbn [run reply].
  destruct (respond w (tick s) ExecPs) as [out|]; cbn [run fst snd].
  - destruct (omap (attach_pid port) (Text.split_lines out)) as [|p rest] eqn:Hl.
    + intros [= <-]. rewrite signals_after_call. cbn. by rewrite !app_nil_r.
    + rewrite run_bind, run_log. intros Hrun.
      pose proof (kill_each_signals w port (p :: rest)
                    (after_call w (after_call w s ExecPs)
                       (Log Info "Killing attach processes"
                          [("port", VNumber port); ("pids", VNumbers (p :: rest))])))
        as Hsig.
      rewrite Hrun in Hsig. cbn [snd] in Hsig.
      rewrite Hsig, !signals_after_call. cbn. by rewrite !app_nil_r.
  - rewrite !run_bind, !run_log. cbn [run fst snd].
    intros [= <-]. rewrite !signals_after_call. cbn. by rewrite !app_nil_r.
Qed.

(** X9: [killAttachProcesses] sends [SIGTERM] to the pids that
    [getAttachProcessPIDs] lists, to each once and in that order; a
    signal that cannot be sent does not keep it from the others.  It
    sends nothing else, never throws and changes nothing. *)
Theorem killAttachProcesses_signals w port s pids :
  (run w (getAttachProcessPIDs port) s).1 = Resolved pids →
  let r := run w (killAttachProcesses port) s in
  r.1 = Resolved tt
  ∧ mem r.2 = mem s
  ∧ signals (trace r.2) = signals (trace s) ++ terminate pids.
Proof.
  rewrite getAttachProcessPIDs_result. intros [= <-]. cbv zeta.
  by destruct (killAttachProcesses_trace w port s) as (s' & -> & Hmem & Hsig).
Qed.

Lemma killAttachProcesses_signals_witness :
  let r := run (world_of tuis_attached) (killAttachProcesses 4097) boot in
  r.1 = Resolved tt
  ∧ mem r.2 = mem boot
  ∧ signals (trace r.2) = [ProcessKill 201 SIGTERM; ProcessKill 203 SIGTERM].
Proof.
  apply (killAttachProcesses_signals (world_of tuis_attached) 4097 boot [201; 203]).
  vm_compute. reflexivity.
Defined.

Lemma kill_every_run w pids s :
  ∃ s', run w (kill_every pids) s = (Resolved tt, s')
        ∧ mem s' = mem s
        ∧ signals (trace s') = signals (trace s) ++ terminate pids.
Proof.
  revert s. induction pids as [|p rest IH]; intros s.
  { exists s. cbn. by rewrite app_nil_r. }
  cbn [kill_every].
  rewrite run_bind, run_try_catch, run_bind, process_kill_run.
  destruct (reply w s (ProcessKill p SIGTERM)); rewrite run_log;
    match goal with |- context [run w (kill_every rest) ?s1] =>
      destruct (IH s1) as (s' & -> & Hmem & Hsig) end;
    exists s'; (split; [done|]); (split; [done|]);
    rewrite Hsig, !signals_after_call; cbn;
    by rewrite app_nil_r, <- app_assoc.
Qed.

Lemma killAllAttachProcesses_run w s :
  ∃ s', run w killAllAttachProcesses s = (Resolved tt, s')
        ∧ mem s' = mem s
        ∧ signals (trace s')
          = signals (trace s)
              ++ match respond w (tick s) ExecPs with
                 | ExecOutput out =>
                     terminate (omap any_attach_pid (Text.split_lines out))
                 | ExecThrows => []
                 end.
Proof.
  unfold killAllAttachProcesses.
  rewrite run_try_catch, run_bind. unfold call at 1; cbn [run reply].
  destruct (respond w (tick s) ExecPs) as [out|] eqn:Hps; cbn [run fst snd].
  - destruct (omap any_attach_pid (Text.split_lines out)) as [|p rest].
    + rewrite run_log. eexists. split; [done|]. split; [done|].
      rewrite !signals_after_call. cbn. by rewrite !app_nil_r.
    + rewrite run_bind, run_log.
      match goal with |- context [run w (kill_every ?l) ?s1] =>
        destruct (kill_every_run w l s1) as (s' & -> & Hmem & Hsig) end.
      exists s'. split; [done|]. split; [done|].
      rewrite Hsig, !signals_after_call. cbn. by rewrite !app_nil_r.
  - rewrite run_log. eexists. split; [done|]. split; [done|].
    rewrite !signals_after_call. cbn. by rewrite !app_nil_r.
Qed.

(** X10: [killAllAttachProcesses] never throws and changes nothing, also
    when the process table cannot be read, in which case it sends no
    signal.  Otherwise it sends [SIGTERM] once for each line of an
    attach process, and so to every pid that [getAttachProcessPIDs]
    would list for any port. *)
Theorem killAllAttachProcesses_covers w s :
  let r := run w killAllAttachProcesses s in
  r.1 = Resolved tt
  ∧ mem r.2 = mem s
  ∧ (respond w (tick s) ExecPs = ExecThrows →
     signals (trace r.2) = signals (trace s))
  ∧ (∀ psOutput, respond w (tick s) ExecPs = ExecOutput psOutput →
       signals (trace r.2)
       = signals (trace s)
           ++ terminate (omap any_attach_pid (Text.split_lines psOutput))
       ∧ ∀ port pid,
           pid ∈ omap (attach_pid port) (Text.split_lines psOutput) →
           ProcessKill pid SIGTERM ∈ signals (trace r.2)).
Proof.
  cbv zeta. destruct (killAllAttachProcesses_run w s) as (s' & -> & Hmem & Hsig).
  cbn [fst snd]. split; [done|]. split; [done|]. split.
  - intros Hps. rewrite Hps in Hsig. by rewrite app_nil_r in Hsig.
  - intros out Hps. rewrite Hps in Hsig. split; [done|]. intros port pid Hin.
    rewrite Hsig. apply elem_of_app. right. unfold terminate.
    apply list_elem_of_fmap. exists pid. split; [done|].
    apply list_elem_of_omap in Hin as (line & Hline & Hpid).
    apply list_elem_of_omap. exists line. split; [done|].
    by apply attach_pid_line in Hpid as [_ ?].
Qed.

(** ** The status of a server *)

(** X11: [getServerStatus] never rejects and never changes the registry,
    whatever the probe finds.  For a path without an entry it answers
    unhealthy, without a port and without a probe; for a path with an
    entry it probes the port of the entry once, whatever the status of
    the entry, and answers healthy exactly when the probe reports so. *)
Theorem getServerStatus_probes_entry w p s :
  let r := run w (getServerStatus p) s in
  mem r.2 = mem s
  ∧ (registry (mem s) !! p = None →
     r = (Resolved {| st_healthy := false; st_port := None |}, s))
  ∧ (∀ e, registry (mem s) !! p = Some e →
       ∃ b, r.1 = Resolved {| st_healthy := b; st_port := Some (port e) |}
            ∧ (b = true ↔ reports_healthy (respond w (tick s) (Fetch (port e))))
            ∧ fetched (trace r.2) = fetched (trace s) ++ [port e]).
Proof.
  cbv zeta. unfold getServerStatus. rewrite run_bind, run_get.
  destruct (registry (mem s) !! p) as [e|]; [|done].
  rewrite run_bind. unfold isServerHealthy.
  destruct (checkHealth_settles w (port e) s) as (b & -> & Hb).
  cbn [run fst snd]. split; [done|]. split; [done|].
  intros ? [= <-]. exists b. split; [done|]. split; [done|].
  unfold fetched. cbn [trace after_call]. by rewrite omap_app.
Qed.

(** ** Stopping servers *)

(** The signal [stopServer] sends to the worker of [entry]. *)
Lemma stopServer_trace w p s e :
  registry (mem s) !! p = Some e →
  ∃ s', run w (stopServer p) s = (Resolved true, s')
        ∧ registry (mem s') = delete p (registry (mem s))
        ∧ processes (mem s') = delete p (processes (mem s))
        ∧ nextPort (mem s') = nextPort (mem s)
        ∧ signals (trace s')
          = signals (trace s)
              ++ terminate match respond w (S (tick s)) ExecPs with
                           | ExecOutput out =>
                               omap (attach_pid (port e)) (Text.split_lines out)
                           | ExecThrows => []
                           end
              ++ [worker_signal (processes (mem s) !! p) e].
Proof.
  intros H. unfold stopServer, worker_signal. rewrite run_bind, run_get. rewrite H.
  rewrite run_bind, run_log. rewrite run_bind.
  match goal with |- context [run w (killAttachProcesses _) ?s0] =>
    destruct (killAttachProcesses_trace w (port e) s0)
      as (s1 & -> & Hmem1 & Hsig1) end.
  cbn [mem after_call tick] in Hmem1, Hsig1.
  rewrite signals_after_call in Hsig1. cbn [is_signal] in Hsig1.
  rewrite app_nil_r in Hsig1.
  rewrite run_bind, run_read. rewrite run_bind.
  assert (∃ s2, run w
            (match processes (mem s1) !! p with
             | Some proc =>
                 call (ProcKill proc SIGTERM);;
                 modify (set_processes (delete p))
             | None => try_catch (process_kill (pid e) SIGTERM) (fun _ => Ret tt)
             end) s1 = (Resolved tt, s2)
            ∧ registry (mem s2) = registry (mem s)
            ∧ processes (mem s2) = delete p (processes (mem s))
            ∧ nextPort (mem s2) = nextPort (mem s)
            ∧ signals (trace s2)
              = signals (trace s1)
                  ++ [match processes (mem s) !! p with
                      | Some proc => ProcKill proc SIGTERM
                      | None => ProcessKill (pid e) SIGTERM
                      end])
    as (s2 & -> & Hreg2 & Hproc2 & Hnext2 & Hsig2).
  { rewrite Hmem1. destruct (processes (mem s) !! p) as [proc|] eqn:Hproc.
    - rewrite run_bind. unfold call; cbn [run]. rewrite run_modify.
      eexists; split; [done|]. cbn [mem with_mem after_call trace].
      rewrite Hmem1. split; [done|]. split; [done|]. split; [done|].
      change (trace s1 ++ [Ev (ProcKill proc SIGTERM) (reply w s1 (ProcKill proc SIGTERM))])
        with (trace (after_call w s1 (ProcKill proc SIGTERM))).
      by rewrite signals_after_call.
    - rewrite run_try_catch, process_kill_run.
      destruct (reply w s1 (ProcessKill (pid e) SIGTERM)); cbn [run];
        (eexists; split; [done|]); rewrite signals_after_call;
        cbn [mem after_call]; rewrite Hmem1;
        (split; [done|]); (split; [|done]); symmetry; by apply delete_id. }
  rewrite run_bind.
  rewrite (run_update_Some w p _ s2 e) by (by rewrite Hreg2).
  rewrite run_bind, run_remove. cbn [mem with_mem after_call registry set_registry].
  rewrite lookup_insert_eq. cbn [run].
  eexists; split; [done|]. cbn [mem with_mem after_call registry set_registry
    processes nextPort trace].
  rewrite Hreg2, Hproc2, Hnext2, delete_insert_eq.
  split; [done|]. split; [done|]. split; [done|].
  change (trace s2 ++ [Ev DateNow (reply w s2 DateNow)])
    with (trace (after_call w s2 DateNow)).
  rewrite signals_after_call, Hsig2, Hsig1. cbn [is_signal].
  by rewrite app_nil_r, <- app_assoc.
Qed.

(** X12: [stopServer] on a path with an entry first sends [SIGTERM] to
    the TUIs attached to the port of the entry, then one [SIGTERM] to the
    worker: through the process handle when the manager has one, by the
    pid of the entry otherwise.  It answers [true] whether or not any of
    these signals could be sent, and leaves the cursor where it was. *)
Theorem stopServer_signals_worker w p s e :
  registry (mem s) !! p = Some e →
  let r := run w (stopServer p) s in
  r.1 = Resolved true
  ∧ nextPort (mem r.2) = nextPort (mem s)
  ∧ signals (trace r.2)
    = signals (trace s)
        ++ terminate match respond w (S (tick s)) ExecPs with
                     | ExecOutput out =>
                         omap (attach_pid (port e)) (Text.split_lines out)
                     | ExecThrows => []
                     end
        ++ [worker_signal (processes (mem s) !! p) e].
Proof.
  intros He. cbv zeta.
  by destruct (stopServer_trace w p s e He) as (s' & -> & _ & _ & ? & ?).
Qed.

Lemma stopServer_signals_worker_witness :
  let s := sys_with "/proj" (entry_4097 running) in
  let r := run (world_of tuis_attached) (stopServer "/proj") s in
  r.1 = Resolved true
  ∧ nextPort (mem r.2) = 4097
  ∧ signals (trace r.2)
    = [ProcessKill 201 SIGTERM; ProcessKill 203 SIGTERM; ProcessKill 1234 SIGTERM].
Proof.
  apply (stopServer_signals_worker (world_of tuis_attached) "/proj"
           (sys_with "/proj" (entry_4097 running)) (entry_4097 running)).
  vm_compute. reflexivity.
Defined.

(** X13: for a path that names no member of [Object.prototype], an
    exit event that arrives after [stopServer] finds no entry and
    creates none: the path stays without an entry and without a process
    handle, and the other entries are untouched. *)
Theorem late_exit_after_stop w p prt code s :
  inherited p = false →
  let s1 := (run w (stopServer p) s).2 in
  let s2 := (run w (exitHandler p prt code) s1).2 in
  registry (mem s2) = registry (mem s1)
  ∧ registry (mem s2) = delete p (registry (mem s))
  ∧ processes (mem s2) = delete p (processes (mem s))
  ∧ nextPort (mem s2) = nextPort (mem s).
Proof.
  intros _. cbv zeta.
  assert (∃ s1, (run w (stopServer p) s).2 = s1
                ∧ registry (mem s1) = delete p (registry (mem s))
                ∧ delete p (processes (mem s1)) = delete p (processes (mem s))
                ∧ nextPort (mem s1) = nextPort (mem s))
    as (s1 & -> & Hreg1 & Hproc1 & Hnext1).
  { destruct (registry (mem s) !! p) as [e|] eqn:He.
    - destruct (stopServer_trace w p s e He) as (s1 & -> & ? & Hp & ? & _).
      exists s1. rewrite Hp, delete_delete_eq. done.
    - rewrite (stopServer_unknown w p s He). exists s. cbn [snd].
      by rewrite delete_id. }
  destruct (exitHandler_run w p prt code s1) as (s2 & -> & Hreg2 & Hnext2 & Hproc2).
  cbn [snd]. rewrite Hreg2, Hproc2, Hnext2, Hreg1, Hproc1, Hnext1.
  by rewrite lookup_delete_eq.
Qed.

Lemma late_exit_after_stop_witness :
  let w := world_of all_healthy in
  let s := (run w (startServer "/proj") boot).2 in
  let s1 := (run w (stopServer "/proj") s).2 in
  let s2 := (run w (exitHandler "/proj" 4097 None) s1).2 in
  is_Some (registry (mem s) !! "/proj")
  ∧ registry (mem s2) = registry (mem s1)
  ∧ registry (mem s2) = delete "/proj" (registry (mem s))
  ∧ processes (mem s2) = delete "/proj" (processes (mem s))
  ∧ nextPort (mem s2) = nextPort (mem s).
Proof.
  intros w s s1 s2. split; [eexists; vm_compute; reflexivity|].
  apply (late_exit_after_stop w "/proj" 4097 None s). by vm_compute.
Defined.









(** ** Killing everything *)










(** ** Ports of the entries *)







(** ** How [startServer] fails *)

Lemma signals_none evs :
  Forall (fun ev => is_signal (ev_query ev) = false) evs →
  ∀ tr, signals (tr ++ evs) = signals tr.
Proof.
  intros Hevs tr. unfold signals. rewrite fmap_app, filter_app.
  rewrite <- (app_nil_r (filter _ (ev_query <$> tr))) at 2. f_equal.
  induction Hevs as [|ev evs Hev _ IH]; [done|].
  cbn [fmap list_fmap]. rewrite filter_cons, decide_False by congruence.
  exact IH.
Qed.

Lemma startServer_sends_no_signal p :
  queries_in (fun q => is_signal q = false) (startServer p).
Proof.
  assert (queries_in (fun q => is_signal q = false) (spawn_and_wait p)) as Hspawn.
  { unfold spawn_and_wait.
    apply queries_in_bind; [by apply allocatePort_queries|]. intros prt.
    apply queries_in_bind; [queries|]. intros _.
    apply queries_in_bind; [queries|].
    intros [proc|]; [by apply after_spawn_queries|constructor]. }
  unfold startServer. apply queries_in_bind; [apply get_queries|].
  intros [e|]; [|done]. destruct (decide (status e = running)); [|done].
  apply queries_in_bind; [by apply checkHealth_queries|].
  intros []; [constructor|].
  apply queries_in_bind; [by apply update_queries|]. by intros _.
Qed.

(** X17: [startServer] sends no signal, and a call that runs
    undisturbed can fail in three ways only.  No port is left: nothing
    was spawned.  The call of [spawn] threw: there is no child process.
    The worker it spawned, which had a pid, did not become healthy
    within the 15 s of the poll: that worker is the one thing the call
    has spawned. *)
Theorem startServer_failure_modes w p s :
  let r := run w (startServer p) s in
  signals (trace r.2) = signals (trace s)
  ∧ ∀ err, r.1 = Rejected err →
      (∃ a b, err = PortExhausted a b
              ∧ spawned (trace r.2) = spawned (trace s))
      ∨ (err = SpawnError ∧ spawned (trace r.2) = spawned (trace s))
      ∨ (∃ prt proc, err = HealthTimeout prt default_timeoutMs
                     ∧ spawned (trace r.2) = spawned (trace s) ++ [(p, prt, proc)]
                     ∧ truthy_pid proc ≠ None).
Proof.
  cbv zeta. split.
  { destruct (run_trace_queries (fun q => is_signal q = false) w
                (startServer p) s (startServer_sends_no_signal p))
      as (evs & -> & Hevs).
    by apply signals_none. }
  destruct (startServer_cases w p s)
    as [(e & _ & _ & _ & ->) | (s0 & -> & Htr0 & _)]; [done|].
  destruct (spawn_and_wait_outcome w p s0) as (o & s' & -> & Ho).
  cbn [fst snd]. intros err [= ->]. rewrite <- Htr0.
  destruct err as [a b|prt t| | | | | |]; try done.
  - left. exists a, b. by destruct Ho as (_ & -> & _).
  - right. right. destruct Ho as (-> & (proc & k & _ & Hpid & Hsp & _) & _).
    by exists prt, proc.
  - right. left. by destruct Ho as (_ & _ & -> & _).
Qed.

Example startServer_spawn_throws :
  let w := {| respond := fun n q =>
                match q as q0 return answer q0 with
                | Spawn _ _ => SpawnThrows
                | q0 => respond (world_of all_healthy) n q0
                end;
              elapse := fun _ => 1%N |} in
  let r := run w (startServer "/proj") boot in
  r.1 = Rejected SpawnError
  ∧ registry (mem r.2) = ∅ ∧ processes (mem r.2) = ∅
  ∧ nextPort (mem r.2) = 4098.
Proof. by vm_compute. Qed.

(** ** Waiting for a worker *)

Lemma fetched_after_call w s q :
  fetched (trace (after_call w s q))
  = fetched (trace s) ++ match q with Fetch prt => [prt] | _ => [] end.
Proof.
  unfold fetched. cbn [trace after_call]. rewrite omap_app. f_equal.
  destruct q; reflexivity.
Qed.

Lemma waitForServer_loop_bounds w fuel prt start timeoutMs s :
  ∃ o s' k, run w (waitForServer_loop fuel prt start timeoutMs) s = (o, s')
    ∧ fetched (trace s') = fetched (trace s) ++ replicate k prt
    ∧ (k ≤ fuel)%nat
    ∧ clock s ≤ clock s'
    ∧ (o = Resolved tt → (1 ≤ k)%nat)
    ∧ (∀ e, o = Rejected e → start + timeoutMs ≤ clock s').
Proof.
  revert s. induction fuel as [|fuel IH]; intros s;
    cbn [waitForServer_loop]; rewrite run_bind; unfold call at 1; cbn [run reply];
    pose proof (clock_after_call w s DateNow) as Hclock;
    destruct (Z.ltb_spec (clock s - start) timeoutMs) as [Hlt|Hge].
  - exists Stalled, (after_call w s DateNow), 0%nat. split; [done|].
    rewrite fetched_after_call, app_nil_r. cbn [replicate].
    rewrite app_nil_r. repeat split; try done.
  - exists (Rejected (HealthTimeout prt timeoutMs)), (after_call w s DateNow), 0%nat.
    split; [done|].
    rewrite fetched_after_call, app_nil_r. cbn [replicate].
    rewrite app_nil_r. repeat split; try done. intros e _. lia.
  - rewrite run_bind. unfold isServerHealthy.
    pose proof (clock_after_call w (after_call w s DateNow) (Fetch prt)) as Hclock2.
    destruct (checkHealth_settles w prt (after_call w s DateNow))
      as ([] & -> & _).
    + exists (Resolved tt), (after_call w (after_call w s DateNow) (Fetch prt)), 1%nat.
      split; [done|].
      rewrite !fetched_after_call, app_nil_r. cbn [replicate].
      repeat split; try done; lia.
    + rewrite run_bind. unfold call at 1; cbn [run].
      pose proof (clock_after_call w
                    (after_call w (after_call w s DateNow) (Fetch prt))
                    (SetTimeout poll_interval)) as Hclock3.
      match goal with |- context [run w (waitForServer_loop _ _ _ _) ?s0] =>
        destruct (IH s0) as (o & s' & k & -> & Hf & Hk & Hc & Hres & Hrej) end.
      exists o, s', (S k). split; [done|].
      split.
      { rewrite Hf, !fetched_after_call, app_nil_r. cbn [replicate].
        by rewrite app_nil_r, <- app_assoc. }
      repeat split; try done; lia.
  - exists (Rejected (HealthTimeout prt timeoutMs)), (after_call w s DateNow), 0%nat.
    split; [done|].
    rewrite fetched_after_call, app_nil_r. cbn [replicate].
    rewrite app_nil_r. repeat split; try done; lia.
Qed.

(** X18: [waitForServer] settles after at most [timeoutMs / 300 + 1]
    health probes, all of the port it waits for (51 with the default of
    15 seconds).  It resolves only after a probe, and when it rejects,
    at least [timeoutMs] milliseconds have passed since it was called:
    a health timeout is never reported early. *)
Theorem waitForServer_bounded w prt timeoutMs s :
  let r := run w (waitForServer prt timeoutMs) s in
  ∃ k, fetched (trace r.2) = fetched (trace s) ++ replicate k prt
       ∧ (k ≤ Z.to_nat (timeoutMs / poll_interval) + 1)%nat
       ∧ (r.1 = Resolved tt ∧ (1 ≤ k)%nat
          ∨ r.1 = Rejected (HealthTimeout prt timeoutMs)
            ∧ clock s + timeoutMs ≤ clock r.2).
Proof.
  cbv zeta.
  destruct (waitForServer_outcome w prt timeoutMs s)
    as (o & s' & Hrun & _ & Ho).
  rewrite Hrun. rewrite waitForServer_run in Hrun.
  destruct (waitForServer_loop_bounds w
              (Z.to_nat (timeoutMs / poll_interval) + 1) prt (clock s)
              timeoutMs (after_call w s DateNow))
    as (o' & s'' & k & Hrun' & Hf & Hk & _ & Hres & Hrej).
  rewrite Hrun in Hrun'. injection Hrun' as <- <-.
  exists k. cbn [fst snd]. rewrite fetched_after_call in Hf. cbn in Hf.
  rewrite app_nil_r in Hf. split; [done|]. split; [done|].
  destruct Ho as [[-> _]| ->]; [left|right]; split; try done.
  - by apply Hres.
  - by eapply Hrej.
Qed.

(** ** The event hub: subscribers *)

Section Subscribers.
Import EventHub HubVocabulary HubInvariants.

Lemma history_app events1 events2 h :
  history (events1 ++ events2) h
  = let '(h1, out1) := history events1 h in
    let '(h2, out2) := history events2 h1 in
    (h2, out1 ++ out2).
Proof.
  revert h. induction events1 as [|[env a] rest IH]; intros h.
  { cbn. by destruct (history events2 h). }
  cbn [history app]. destruct (step env a h) as [h1 out1]. rewrite IH.
  destruct (history rest h1) as [h2 out2].
  destruct (history events2 h2) as [h3 out3]. by rewrite app_assoc.
Qed.

(** What the transitions do to the three components the sets depend
    on. *)
Lemma startEventForwarding_keeps env p h :
  let h' := (startEventForwarding env p h).1 in
  connections h' = connections h
  ∧ close_listeners h' = close_listeners h
  ∧ timers h' = timers h
  ∧ aborted h' = aborted h
  ∧ (∀ p' c, activeStreams h' !! p' = Some c →
             p' = p ∨ activeStreams h !! p' = Some c).
Proof.
  cbv zeta. unfold startEventForwarding.
  destruct (env_registry env !! p) as [e|]; [|by repeat split; auto].
  destruct (decide (status e = running)); [|by repeat split; auto].
  cbn. repeat split; try done. intros p' c.
  rewrite lookup_insert. case_decide; auto.
Qed.

Lemma addConnection_sets env p res h :
  let h' := (addConnection env p res h).1 in
  connections h'
  = <[p := set_add res (default [] (connections h !! p))]> (connections h)
  ∧ close_listeners h' = close_listeners h ++ [(res, p)]
  ∧ timers h' = timers h
  ∧ aborted h' = aborted h
  ∧ (∀ p' c, activeStreams h' !! p' = Some c →
             p' = p ∨ activeStreams h !! p' = Some c).
Proof.
  cbv zeta. unfold addConnection.
  set (h1 := match connections h !! p with
             | None => with_connections (insert p []) h
             | Some _ => h
             end).
  set (h2 := with_connections (alter (set_add res) p) h1).
  assert (connections h2
          = <[p := set_add res (default [] (connections h !! p))]> (connections h))
    as Hconn.
  { subst h2 h1. destruct (connections h !! p) as [l|] eqn:Hl; cbn.
    - apply map_eq. intros k. destruct (decide (k = p)) as [->|Hk].
      + by rewrite lookup_alter_eq, lookup_insert_eq, Hl.
      + by rewrite lookup_alter_ne, lookup_insert_ne.
    - apply map_eq. intros k. destruct (decide (k = p)) as [->|Hk].
      + by rewrite lookup_alter_eq, !lookup_insert_eq.
      + by rewrite lookup_alter_ne, !lookup_insert_ne. }
  assert (close_listeners h2 = close_listeners h ∧ timers h2 = timers h
          ∧ aborted h2 = aborted h ∧ activeStreams h2 = activeStreams h)
    as (Hcl & Htm & Hab & Hact).
  { subst h2 h1. by destruct (connections h !! p). }
  clearbody h2. clear h1.
  destruct (activeStreams h2 !! p) as [c|] eqn:Hc.
  - cbn. rewrite Hconn, Hcl, Htm, Hab, Hact. repeat split; auto.
  - destruct (startEventForwarding_keeps env p h2) as (H1 & H2 & H3 & H4 & H5).
    destruct (startEventForwarding env p h2) as [h3 out]. cbn in *.
    rewrite H1, H2, H3, H4, Hconn, Hcl, Htm, Hab. repeat split; try done.
    intros p' c Hp'. rewrite <- Hact. by apply H5.
Qed.

Lemma closeHandler_spec p res h :
  let h' := closeHandler p res h in
  close_listeners h' = close_listeners h
  ∧ timers h' = timers h
  ∧ forwarders h' = forwarders h
  ∧ match connections h !! p with
    | Some l =>
        match set_delete res l with
        | [] => connections h' = delete p (connections h)
                ∧ activeStreams h' = delete p (activeStreams h)
        | l' => connections h' = <[p := l']> (connections h)
                ∧ activeStreams h' = activeStreams h
        end
    | None => connections h' = connections h
              ∧ activeStreams h' = activeStreams h
    end.
Proof.
  cbv zeta. unfold closeHandler. cbn [connections with_connections].
  rewrite lookup_alter_eq.
  destruct (connections h !! p) as [l|] eqn:Hl; cbn [fmap option_fmap option_map].
  - destruct (set_delete res l) as [|x l'] eqn:Hdel.
    + cbn [activeStreams with_connections].
      destruct (activeStreams h !! p) as [c|] eqn:Hc; cbn.
      * by rewrite delete_alter_eq.
      * rewrite delete_alter_eq. by rewrite (delete_id (activeStreams h)).
    + cbn. repeat split; try done.
      apply map_eq. intros k. destruct (decide (k = p)) as [->|Hk].
      * by rewrite lookup_alter_eq, lookup_insert_eq, Hl; cbn; rewrite Hdel.
      * by rewrite lookup_alter_ne, lookup_insert_ne.
  - cbn. repeat split; try done.
    apply map_eq. intros k. destruct (decide (k = p)) as [->|Hk].
    + by rewrite lookup_alter_eq, Hl.
    + by rewrite lookup_alter_ne.
Qed.
Lemma set_add_spec res l :
  set_add res l ≠ []
  ∧ (NoDup l → NoDup (set_add res l))
  ∧ (∀ x, x ∈ set_add res l ↔ x ∈ l ∨ x = res).
Proof.
  unfold set_add. destruct (decide (res ∈ l)) as [Hin|Hin].
  - split; [by intros ->; inversion Hin|]. split; [done|].
    intros x. split; [by left|]. by intros [?| ->].
  - split; [by destruct l|]. split.
    + intros Hl. apply NoDup_app. split; [done|]. split.
      * intros x Hx Hx'. apply list_elem_of_singleton in Hx'. by subst x.
      * apply NoDup_singleton.
    + intros x. by rewrite elem_of_app, list_elem_of_singleton.
Qed.

Lemma set_delete_spec res l :
  (NoDup l → NoDup (set_delete res l))
  ∧ (∀ x, x ∈ set_delete res l ↔ x ∈ l ∧ x ≠ res).
Proof.
  unfold set_delete. split; [apply NoDup_filter|].
  intros x. rewrite list_elem_of_filter. tauto.
Qed.

(** The sets are sound in a state that differs in what is on record
    only by having less of it. *)
Lemma sets_sound_weaken h h' :
  sets_sound h →
  connections h' = connections h →
  (∀ x, x ∈ close_listeners h → x ∈ close_listeners h') →
  (∀ p c, activeStreams h' !! p = Some c → activeStreams h !! p = Some c) →
  sets_sound h'.
Proof.
  intros [Hsets Hrec] Hconn Hcl Hact. split.
  - intros p l. rewrite Hconn. intros Hl.
    destruct (Hsets p l Hl) as (? & ? & Hin). repeat split; auto.
  - intros p c Hc. rewrite Hconn. eapply Hrec, Hact, Hc.
Qed.

Lemma startEventForwarding_sets_sound env p h :
  sets_sound h → is_Some (connections h !! p) →
  sets_sound (startEventForwarding env p h).1.
Proof.
  intros [Hsets Hrec] Hp.
  destruct (startEventForwarding_keeps env p h) as (Hconn & Hcl & _ & _ & Hact).
  split.
  - intros p' l. rewrite Hconn, Hcl. apply Hsets.
  - intros p' c Hc. rewrite Hconn.
    destruct (Hact p' c Hc) as [->|Hold]; [done|]. by eapply Hrec.
Qed.

Lemma addConnection_sets_sound env p res h :
  sets_sound h → sets_sound (addConnection env p res h).1.
Proof.
  intros [Hsets Hrec].
  destruct (addConnection_sets env p res h) as (Hconn & Hcl & _ & _ & Hact).
  destruct (set_add_spec res (default [] (connections h !! p)))
    as (Hne & Hnodup & Hin).
  split.
  - intros p' l. rewrite Hconn, Hcl, lookup_insert. case_decide as Hp.
    + subst p'. intros [= <-]. split; [done|]. split.
      * apply Hnodup. destruct (connections h !! p) as [l|] eqn:Hl; cbn.
        -- by destruct (Hsets p l Hl) as (_ & ? & _).
        -- constructor.
      * intros x. rewrite Hin, elem_of_app, list_elem_of_singleton.
        intros [Hx| ->]; [left|by right].
        destruct (connections h !! p) as [l|] eqn:Hl; cbn in Hx.
        -- destruct (Hsets p l Hl) as (_ & _ & Hls). by apply Hls.
        -- by inversion Hx.
    + intros Hl. destruct (Hsets p' l Hl) as (? & ? & Hls).
      split; [done|]. split; [done|]. intros x Hx. apply elem_of_app.
      left. by apply Hls.
  - intros p' c Hc. rewrite Hconn, lookup_insert. case_decide; [done|].
    destruct (Hact p' c Hc) as [->|Hold]; [done|]. by eapply Hrec.
Qed.

Lemma closeHandler_sets_sound p res h :
  sets_sound h → sets_sound (closeHandler p res h).
Proof.
  intros [Hsets Hrec].
  destruct (closeHandler_spec p res h) as (Hcl & _ & _ & Hspec).
  destruct (connections h !! p) as [l|] eqn:Hl.
  2:{ destruct Hspec as [Hconn Hact]. split.
      - intros p' l'. rewrite Hconn, Hcl. apply Hsets.
      - intros p' c. rewrite Hconn, Hact. apply Hrec. }
  destruct (Hsets p l Hl) as (_ & Hnodup & Hin).
  destruct (set_delete_spec res l) as [Hnodup' Hin'].
  destruct (set_delete res l) as [|x l'] eqn:Hdel; destruct Hspec as [Hconn Hact].
  - split.
    + intros p' l0. rewrite Hconn, Hcl, lookup_delete. case_decide; [done|].
      apply Hsets.
    + intros p' c. rewrite Hconn, Hact, !lookup_delete. case_decide; [done|].
      apply Hrec.
  - split.
    + intros p' l0. rewrite Hconn, Hcl, lookup_insert. case_decide as Hp.
      * subst p'. intros [= <-]. split; [done|]. split; [by apply Hnodup'|].
        intros y Hy. apply Hin. by apply Hin'.
      * apply Hsets.
    + intros p' c. rewrite Hconn, Hact, lookup_insert. case_decide; [done|].
      apply Hrec.
Qed.

Lemma on_close_sets_sound res h : sets_sound h → sets_sound (on_close res h).
Proof.
  unfold on_close. generalize (filter (fun l => l.1 = res) (close_listeners h)).
  intros ls. revert h. induction ls as [|l ls IH]; intros h Hs; [done|].
  cbn [foldl]. apply IH. by apply closeHandler_sets_sound.
Qed.

Lemma finish_sets_sound c p h : sets_sound h → sets_sound (finish c p h).
Proof.
  intros Hs. apply (sets_sound_weaken h); try done.
  intros p' c'. cbn. rewrite lookup_delete. by case_decide.
Qed.

Lemma sets_sound_step env a h : sets_sound h → sets_sound (step env a h).1.
Proof.
  intros Hs. destruct a as [p res|res|c|c ev|c|c|p|p]; cbn [step fst].
  - by apply addConnection_sets_sound.
  - by apply on_close_sets_sound.
  - unfold on_subscribed. by destruct (forwarders h !! c) as [[p n []]|].
  - unfold on_event. destruct (forwarders h !! c) as [[p n []]|]; try done.
    destruct (decide (c ∈ aborted h)); cbn [fst]; [by apply finish_sets_sound|].
    destruct (connections h !! p); cbn [fst]; [done|]. by apply finish_sets_sound.
  - unfold on_end. destruct (forwarders h !! c) as [[p n []]|]; try done.
    by apply finish_sets_sound.
  - unfold on_failure. destruct (forwarders h !! c) as [f|]; [|done].
    destruct (decide (c ∈ aborted h)); cbn [fst]; apply finish_sets_sound; [done|].
    by apply (sets_sound_weaken h).
  - unfold on_timer. destruct (take_timer p (timers h)) as [ts|]; [|done].
    assert (sets_sound (with_timers (fun _ => ts) h)) as Hs'
      by by apply (sets_sound_weaken h).
    unfold retry. cbn [connections activeStreams with_timers].
    destruct (connections h !! p) as [l|] eqn:Hl; [|done].
    destruct (activeStreams h !! p); [done|].
    apply startEventForwarding_sets_sound; [done|]. cbn. by rewrite Hl.
  - unfold stopEventForwarding.
    destruct (activeStreams h !! p) as [c|] eqn:Hc; [|done].
    apply (sets_sound_weaken h); try done.
    intros p' c'. cbn. rewrite lookup_delete. by case_decide.
Qed.

Lemma sets_sound_history events h :
  sets_sound h → sets_sound (history events h).1.
Proof.
  revert h. induction events as [|[env a] rest IH]; intros h Hs; [done|].
  cbn [history]. pose proof (sets_sound_step env a h Hs) as Hs1.
  destruct (step env a h) as [h1 out1]. specialize (IH h1 Hs1).
  by destruct (history rest h1).
Qed.

Lemma records_sound_history events h :
  records_sound h → records_sound (history events h).1.
Proof.
  revert h. induction events as [|[env a] rest IH]; intros h Hs; [done|].
  cbn [history]. pose proof (records_sound_step env a h Hs) as Hs1.
  destruct (step env a h) as [h1 out1]. specialize (IH h1 Hs1).
  by destruct (history rest h1).
Qed.

Lemma sets_sound_initial : sets_sound initial.
Proof. split; intros *; cbn; by rewrite lookup_empty. Qed.

(** X19: whatever happens to the hub, no path keeps an empty set of
    sinks, no set holds a sink twice, and a stream is on record only for
    a path that has sinks; so an event that an invocation forwards is
    written to each sink of the path once. *)
Theorem sinks_stay_sound events :
  let h := (history events initial).1 in
  (∀ p, connections h !! p ≠ Some [])
  ∧ (∀ p, NoDup (sinks_of p h))
  ∧ (∀ p c, activeStreams h !! p = Some c → sinks_of p h ≠ [])
  ∧ (∀ env c event, NoDup (writes (on_event env c event h).2).*1).
Proof.
  cbv zeta.
  pose proof (sets_sound_history events initial sets_sound_initial)
    as [Hsets Hrec].
  set (h := (history events initial).1) in *.
  assert (∀ p, NoDup (sinks_of p h)) as Hnodup.
  { intros p. unfold sinks_of.
    destruct (connections h !! p) as [l|] eqn:Hl; cbn; [|constructor].
    by destruct (Hsets p l Hl) as (_ & ? & _). }
  split; [|split; [done|split]].
  - intros p Hp. by destruct (Hsets p [] Hp) as (? & _).
  - intros p c Hc. destruct (Hrec p c Hc) as [l Hl]. unfold sinks_of.
    rewrite Hl. cbn. by destruct (Hsets p l Hl) as (? & _).
  - intros env c event. unfold on_event.
    destruct (forwarders h !! c) as [[p n []]|]; try by constructor.
    destruct (decide (c ∈ aborted h)); [by constructor|].
    assert (NoDup (writes
              match is_forwarded (type event) with
              | Some eventType => broadcast env p eventType (properties event) h
              | None => []
              end).*1) as Hout.
    { destruct (is_forwarded (type event)) as [ty|]; [|by constructor].
      unfold broadcast. specialize (Hnodup p). unfold sinks_of in Hnodup.
      destruct (connections h !! p) as [l|]; [|by constructor].
      rewrite writes_broadcast, <- list_fmap_compose.
      cbn in Hnodup. by rewrite list_fmap_id. }
    by destruct (connections h !! p).
Qed.

(** X20: whatever happens to the hub, a controller on record for a path
    is never one that was aborted, and it is the controller of an open
    stream for that path: when the last subscriber leaves, the stream
    that is cancelled is one that still runs. *)
Theorem records_name_open_streams events :
  let h := (history events initial).1 in
  ∀ p c, activeStreams h !! p = Some c →
         (c ∉ aborted h) ∧ c ∈ open_streams p h.
Proof.
  cbv zeta. intros p c Hc.
  destruct (records_sound_history events initial records_sound_initial)
    as (Hrec & _).
  destruct (Hrec p c Hc) as (Hnot & f & Hf & Hpath). split; [done|].
  unfold open_streams. apply elem_of_dom. exists f.
  apply map_lookup_filter_Some. by repeat split.
Qed.

Lemma records_name_open_streams_witness :
  let h := (history [(running_env, AddConnection "/p" 1%nat)] initial).1 in
  (0%nat ∉ aborted h) ∧ 0%nat ∈ open_streams "/p" h.
Proof.
  apply (records_name_open_streams [(running_env, AddConnection "/p" 1%nat)]
           "/p" 0%nat).
  vm_compute. reflexivity.
Defined.

(** What a close listener does to the sets: it adds no sink anywhere
    and removes [res] from the set of its path. *)
Lemma closeHandler_shrinks p res h p' l' :
  connections (closeHandler p res h) !! p' = Some l' →
  ∃ l, connections h !! p' = Some l
       ∧ (∀ x, x ∈ l' → x ∈ l)
       ∧ (p' = p → res ∉ l').
Proof.
  destruct (closeHandler_spec p res h) as (_ & _ & _ & Hspec).
  destruct (connections h !! p) as [l|] eqn:Hl.
  2:{ destruct Hspec as [-> _]. intros Hl'. exists l'. split; [done|].
      split; [done|]. intros ->. congruence. }
  destruct (set_delete_spec res l) as [_ Hin].
  destruct (set_delete res l) as [|x l0] eqn:Hdel; destruct Hspec as [-> _].
  - rewrite lookup_delete. case_decide; [done|]. intros Hl'. exists l'.
    by repeat split.
  - rewrite lookup_insert. case_decide as Hp.
    + subst p'. intros [= <-]. exists l. split; [done|]. split.
      * intros y Hy. by apply Hin.
      * intros _ Hres. by apply Hin in Hres as [_ ?].
    + intros Hl'. exists l'. by repeat split.
Qed.

Lemma close_listeners_shrink res ls h p' l' :
  connections (foldl (fun h' l => closeHandler l.2 res h') h ls) !! p' = Some l' →
  ∃ l, connections h !! p' = Some l
       ∧ (∀ x, x ∈ l' → x ∈ l)
       ∧ ((res, p') ∈ ls → res ∉ l').
Proof.
  revert h. induction ls as [|[r p] ls IH]; intros h; cbn [foldl snd].
  { intros Hl'. exists l'. split; [done|]. split; [done|]. by intros ?%elem_of_nil. }
  intros Hl'. destruct (IH _ Hl') as (l1 & Hl1 & Hsub1 & Hres1).
  destruct (closeHandler_shrinks p res h p' l1 Hl1) as (l & Hl & Hsub & Hres).
  exists l. split; [done|]. split; [auto|].
  intros Hin Hx. apply elem_of_cons in Hin as [[= _ ->]|Hin].
  - apply Hres; [done|]. by apply Hsub1.
  - by apply Hres1.
Qed.

Lemma on_close_unsubscribes res h :
  sets_sound h → unsubscribed res (on_close res h).
Proof.
  intros [Hsets _] p l' Hl' Hres.
  destruct (close_listeners_shrink res _ h p l' Hl') as (l & Hl & Hsub & Hnot).
  apply Hnot; [|done]. apply list_elem_of_filter. split; [done|].
  destruct (Hsets p l Hl) as (_ & _ & Hls). apply Hls. by apply Hsub.
Qed.

(** The sinks a transition writes to are sinks of some path. *)
Lemma step_writes env a h res message :
  (res, message) ∈ writes (step env a h).2 →
  ∃ p l, connections h !! p = Some l ∧ res ∈ l.
Proof.
  destruct a as [p r|r|c|c ev|c|c|p|p]; cbn [step snd];
    try (by intros ?%elem_of_nil).
  - unfold addConnection.
    match goal with |- context [startEventForwarding env p ?h2] =>
      generalize h2 end.
    intros h2. destruct (activeStreams h2 !! p); [by intros ?%elem_of_nil|].
    unfold startEventForwarding.
    destruct (env_registry env !! p) as [e|]; [|cbn; by intros ?%elem_of_nil].
    destruct (decide (status e = running)); cbn; by intros ?%elem_of_nil.
  - unfold on_event. destruct (forwarders h !! c) as [[p n []]|];
      try (by intros ?%elem_of_nil).
    destruct (decide (c ∈ aborted h)); [by intros ?%elem_of_nil|].
    assert ((res, message) ∈ writes
              match is_forwarded (type ev) with
              | Some eventType => broadcast env p eventType (properties ev) h
              | None => []
              end → ∃ p l, connections h !! p = Some l ∧ res ∈ l) as Hout.
    { destruct (is_forwarded (type ev)) as [ty|]; [|by intros ?%elem_of_nil].
      unfold broadcast. destruct (connections h !! p) as [l|] eqn:Hl;
        [|by intros ?%elem_of_nil].
      rewrite writes_broadcast. intros (r & [= <- _] & Hr)%list_elem_of_fmap.
      by exists p, l. }
    by destruct (connections h !! p).
  - unfold on_failure. destruct (forwarders h !! c) as [f|];
      [|by intros ?%elem_of_nil].
    destruct (decide (c ∈ aborted h)); cbn; by intros ?%elem_of_nil.
  - unfold on_timer. destruct (take_timer p (timers h)) as [ts|];
      [|by intros ?%elem_of_nil].
    unfold retry. cbn [connections activeStreams with_timers].
    destruct (connections h !! p); [|by intros ?%elem_of_nil].
    destruct (activeStreams h !! p); [by intros ?%elem_of_nil|].
    unfold startEventForwarding. cbn.
    destruct (env_registry env !! p) as [e|]; [|cbn; by intros ?%elem_of_nil].
    destruct (decide (status e = running)); cbn; by intros ?%elem_of_nil.
Qed.

(** Only [addConnection] puts a sink into a set. *)
Lemma step_unsubscribed env a h res :
  ¬ adds res a → unsubscribed res h → unsubscribed res (step env a h).1.
Proof.
  intros Ha Hun. destruct a as [p r|r|c|c ev|c|c|p|p]; cbn [step fst].
  - destruct (addConnection_sets env p r h) as (Hconn & _).
    intros p' l'. rewrite Hconn, lookup_insert. case_decide as Hp; [|apply Hun].
    intros [= <-]. destruct (set_add_spec r (default [] (connections h !! p)))
      as (_ & _ & Hin).
    rewrite Hin. intros [Hres| ->]; [|apply Ha; by exists p].
    destruct (connections h !! p) as [l|] eqn:Hl; cbn in Hres.
    + by apply (Hun p l).
    + by inversion Hres.
  - intros p' l' Hl'.
    destruct (close_listeners_shrink r _ h p' l' Hl') as (l & Hl & Hsub & _).
    intros Hres. by apply (Hun p' l Hl), Hsub.
  - unfold on_subscribed. by destruct (forwarders h !! c) as [[p n []]|].
  - unfold on_event. destruct (forwarders h !! c) as [[p n []]|]; try done.
    destruct (decide (c ∈ aborted h)); [done|]. by destruct (connections h !! p).
  - unfold on_end. by destruct (forwarders h !! c) as [[p n []]|].
  - unfold on_failure. destruct (forwarders h !! c) as [f|]; [|done].
    by destruct (decide (c ∈ aborted h)).
  - unfold on_timer. destruct (take_timer p (timers h)) as [ts|]; [|done].
    unfold retry. cbn [connections activeStreams with_timers].
    destruct (connections h !! p); [|done].
    destruct (activeStreams h !! p); [done|].
    intros p' l'.
    destruct (startEventForwarding_keeps env p (with_timers (fun _ => ts) h))
      as (-> & _). apply Hun.
  - unfold stopEventForwarding. by destruct (activeStreams h !! p).
Qed.

Lemma unsubscribed_history events h res :
  Forall (fun ea => ¬ adds res ea.2) events → unsubscribed res h →
  ∀ message, (res, message) ∉ writes (history events h).2.
Proof.
  intros Hevents. revert h.
  induction Hevents as [|[env a] rest Ha _ IH]; intros h Hun message.
  { by intros ?%elem_of_nil. }
  cbn [history].
  pose proof (step_unsubscribed env a h res Ha Hun) as Hun1.
  pose proof (step_writes env a h res message) as Hw.
  destruct (step env a h) as [h1 out1]. cbn [fst snd] in *.
  specialize (IH h1 Hun1 message).
  destruct (history rest h1) as [h2 out2]. cbn [snd] in *.
  unfold writes in *. rewrite omap_app, elem_of_app. intros [Hin|Hin]; [|done].
  destruct (Hw Hin) as (p & l & Hl & Hres). by apply (Hun p l).
Qed.

(** X21: once a response has emitted ['close'], nothing is written to
    it any more, whatever happens to the hub afterwards, unless it is
    added again. *)
Theorem closed_sink_is_not_written env before after res :
  Forall (fun ea => ¬ adds res ea.2) after →
  let h := (history (before ++ [(env, Close res)]) initial).1 in
  unsubscribed res h
  ∧ ∀ message, ((res, message) ∉ writes (history after h).2).
Proof.
  intros Hafter. cbv zeta.
  assert (unsubscribed res (history (before ++ [(env, Close res)]) initial).1)
    as Hun.
  { rewrite history_app.
    pose proof (sets_sound_history before initial sets_sound_initial) as Hs.
    destruct (history before initial) as [h1 out1]. cbn [history step fst].
    by apply on_close_unsubscribes. }
  split; [done|]. by apply unsubscribed_history.
Qed.

Lemma closed_sink_is_not_written_witness :
  let h := (history
              ([(running_env, AddConnection "/p" 1%nat);
                (running_env, AddConnection "/p" 2%nat);
                (running_env, SubscribeResolved 0%nat)]
               ++ [(running_env, Close 1%nat)]) initial).1 in
  sinks_of "/p" h = [2%nat]
  ∧ ∀ message,
      ((1%nat, message)
       ∉ writes (history [(running_env, StreamEvent 0%nat message_created)] h).2).
Proof.
  intros h. split; [by vm_compute|].
  apply (closed_sink_is_not_written running_env
           [(running_env, AddConnection "/p" 1%nat);
            (running_env, AddConnection "/p" 2%nat);
            (running_env, SubscribeResolved 0%nat)]
           [(running_env, StreamEvent 0%nat message_created)] 1%nat).
  repeat constructor. intros [p Hp]. discriminate Hp.
Defined.

Lemma on_close_keeps res h :
  timers (on_close res h) = timers h ∧ forwarders (on_close res h) = forwarders h.
Proof.
  unfold on_close. generalize (filter (fun l => l.1 = res) (close_listeners h)).
  intros ls. revert h. induction ls as [|l ls IH]; intros h; [done|].
  cbn [foldl]. destruct (IH (closeHandler l.2 res h)) as [-> ->].
  by destruct (closeHandler_spec l.2 res h) as (_ & -> & -> & _).
Qed.

(** X22: a retry is scheduled by one thing only, the failure of an
    invocation whose controller has not been aborted, and then exactly
    one, for the path of that invocation; a stream that ends without an
    error, a cancelled invocation that fails and a subscriber that
    leaves schedule none.  A pending retry goes away only by firing. *)
Theorem retry_only_after_failure env a h :
  let h' := (step env a h).1 in
  timers h' = timers h
  ∨ (∃ c f, a = StreamFailed c ∧ forwarders h !! c = Some f ∧ (c ∉ aborted h)
            ∧ timers h' = timers h ++ [f_path f])
  ∨ (∃ p, a = TimerFired p ∧ take_timer p (timers h) = Some (timers h')).
Proof.
  cbv zeta. destruct a as [p r|r|c|c ev|c|c|p|p]; cbn [step fst].
  - left. by destruct (addConnection_sets env p r h) as (_ & _ & ? & _).
  - left. by destruct (on_close_keeps r h).
  - left. unfold on_subscribed. by destruct (forwarders h !! c) as [[p n []]|].
  - left. unfold on_event. destruct (forwarders h !! c) as [[p n []]|]; try done.
    destruct (decide (c ∈ aborted h)); [done|]. by destruct (connections h !! p).
  - left. unfold on_end. by destruct (forwarders h !! c) as [[p n []]|].
  - unfold on_failure. destruct (forwarders h !! c) as [f|] eqn:Hf; [|by left].
    destruct (decide (c ∈ aborted h)); [by left|].
    right. left. by exists c, f.
  - unfold on_timer. destruct (take_timer p (timers h)) as [ts|] eqn:Hts;
      [|by left].
    right. right. exists p. split; [done|]. f_equal.
    unfold retry. cbn [connections activeStreams with_timers].
    destruct (connections h !! p); [|done].
    destruct (activeStreams h !! p); [done|].
    by destruct (startEventForwarding_keeps env p (with_timers (fun _ => ts) h))
      as (_ & _ & -> & _).
  - left. unfold stopEventForwarding. by destruct (activeStreams h !! p).
Qed.

Lemma startEventForwarding_forwarders env p h c f :
  forwarders (startEventForwarding env p h).1 !! c = Some f →
  forwarders h !! c = Some f
  ∨ (c = next_controller h ∧ f_path f = p ∧ f_phase f = Subscribing
     ∧ ∃ e, env_registry env !! p = Some e ∧ status e = running
            ∧ f_port f = port e).
Proof.
  unfold startEventForwarding.
  destruct (env_registry env !! p) as [e|] eqn:He; [|by left].
  destruct (decide (status e = running)); [|by left].
  cbn. rewrite lookup_insert. case_decide as Hc; [|by left].
  intros [= <-]. right. subst c. repeat split. by exists e.
Qed.

Lemma finish_forwarders c p h :
  forwarders (finish c p h) = delete c (forwarders h).
Proof. reflexivity. Qed.

(** X23: an invocation of the forwarding loop comes into being only
    when a subscriber is added or a retry fires, only for a path whose
    entry in the registry has status [running], with a controller of
    its own, and it talks to the port of that entry. *)
Theorem new_stream_needs_running_worker env a h c f :
  forwarders h !! c = None →
  forwarders (step env a h).1 !! c = Some f →
  ((∃ res, a = AddConnection (f_path f) res) ∨ a = TimerFired (f_path f))
  ∧ c = next_controller h
  ∧ f_phase f = Subscribing
  ∧ ∃ e, env_registry env !! f_path f = Some e ∧ status e = running
         ∧ f_port f = port e.
Proof.
  intros Hnone. destruct a as [p r|r|c'|c' ev|c'|c'|p|p]; cbn [step fst].
  - unfold addConnection.
    match goal with |- context [startEventForwarding env p ?h2] =>
      assert (forwarders h2 = forwarders h ∧ next_controller h2 = next_controller h)
        as [Hfw Hnc] by (by destruct (connections h !! p));
      generalize dependent h2 end.
    intros h2 Hfw Hnc. destruct (activeStreams h2 !! p).
    { cbn. rewrite Hfw. congruence. }
    pose proof (startEventForwarding_forwarders env p h2 c f) as Hstart.
    destruct (startEventForwarding env p h2) as [h3 out]. cbn in *.
    intros Hf. destruct (Hstart Hf) as [Hold|(-> & <- & ? & ?)].
    { rewrite Hfw in Hold. congruence. }
    split; [left; by exists r|]. by rewrite Hnc.
  - destruct (on_close_keeps r h) as [_ ->]. congruence.
  - unfold on_subscribed.
    destruct (forwarders h !! c') as [[p n []]|] eqn:Hc'; try congruence.
    cbn [forwarders with_forwarders]. rewrite lookup_insert.
    case_decide; congruence.
  - unfold on_event.
    destruct (forwarders h !! c') as [[p n []]|]; cbn [fst]; try congruence.
    destruct (decide (c' ∈ aborted h)); cbn [fst];
      [|destruct (connections h !! p); cbn [fst]; [congruence|]];
      rewrite finish_forwarders, lookup_delete; case_decide; congruence.
  - unfold on_end.
    destruct (forwarders h !! c') as [[p n []]|]; cbn [fst]; try congruence.
    rewrite finish_forwarders, lookup_delete. case_decide; congruence.
  - unfold on_failure.
    destruct (forwarders h !! c') as [f'|]; cbn [fst]; [|congruence].
    destruct (decide (c' ∈ aborted h)); cbn [fst];
      rewrite finish_forwarders; cbn [forwarders with_timers];
      rewrite lookup_delete; case_decide; congruence.
  - unfold on_timer.
    destruct (take_timer p (timers h)) as [ts|]; cbn [fst]; [|congruence].
    unfold retry. cbn [connections activeStreams with_timers].
    destruct (connections h !! p); [|cbn; congruence].
    destruct (activeStreams h !! p); [cbn; congruence|].
    intros Hf.
    destruct (startEventForwarding_forwarders env p _ c f Hf)
      as [Hold|(-> & <- & ? & ?)]; [cbn in Hold; congruence|].
    split; [by right|]. done.
  - unfold stopEventForwarding. destruct (activeStreams h !! p); cbn; congruence.
Qed.

Lemma new_stream_needs_running_worker_witness :
  ∃ e, env_registry running_env !! "/p" = Some e ∧ status e = running
       ∧ 4097 = port e.
Proof.
  destruct (new_stream_needs_running_worker running_env
              (AddConnection "/p" 1%nat) initial 0%nat
              {| f_path := "/p"; f_port := 4097; f_phase := Subscribing |})
    as (_ & _ & _ & H).
  - reflexivity.
  - vm_compute. reflexivity.
  - exact H.
Defined.
End Subscribers.

(** ** The attach command *)

Lemma prefix_append n b : String.prefix n (n +:+ b) = true.
Proof.
  induction n as [|c n IH]; [by destruct b|].
  change (String c n +:+ b) with (String c (n +:+ b)). cbn [String.prefix].
  by destruct (ascii_dec c c).
Qed.

Lemma includes_here n b : Text.includes n (n +:+ b) = true.
Proof.
  destruct (n +:+ b) eqn:Heq; cbn [Text.includes];
    by rewrite <- Heq, prefix_append.
Qed.

Lemma includes_after n a h :
  Text.includes n h = true → Text.includes n (a +:+ h) = true.
Proof.
  intros Hh. induction a as [|c a IH]; [exact Hh|].
  change (String c a +:+ h) with (String c (a +:+ h)).
  cbn [Text.includes]. rewrite IH. apply orb_true_r.
Qed.

Lemma includes_inside n a b : Text.includes n (a +:+ (n +:+ b)) = true.
Proof. apply includes_after, includes_here. Qed.

Lemma append_nil_r a : a +:+ "" = a.
Proof.
  induction a as [|c a IH]; [done|].
  change (String c a +:+ "") with (String c (a +:+ "")). by rewrite IH.
Qed.

Lemma append_assoc a b c : (a +:+ b) +:+ c = a +:+ (b +:+ c).
Proof.
  induction a as [|x a IH]; [done|].
  change ((String x a +:+ b) +:+ c) with (String x ((a +:+ b) +:+ c)).
  change (String x a +:+ (b +:+ c)) with (String x (a +:+ (b +:+ c))).
  by rewrite IH.
Qed.

Lemma attach_command_shape port sessionId :
  ∃ rest, getAttachCommand port sessionId
          = "opencode attach "
              +:+ (("http://localhost:" +:+ Text.number_to_string port) +:+ rest).
Proof.
  unfold getAttachCommand. destruct sessionId as [[|c sid]|].
  - exists "". by rewrite append_nil_r.
  - exists (" --session " +:+ String c sid).
    change ("opencode attach http://localhost:" +:+ Text.number_to_string port)
      with ("opencode attach "
              +:+ ("http://localhost:" +:+ Text.number_to_string port)).
    by rewrite !append_assoc.
  - exists "". by rewrite append_nil_r.
Qed.

(** X24: a line of the process table that ends with the command
    [getAttachCommand] builds for a port, with or without a session, is
    one that [isTUIAttached] takes for a TUI attached to that port: the
    manager recognises the TUIs it starts. *)
Theorem attach_command_is_recognised w port sessionId before lines s :
  let line := before +:+ getAttachCommand port sessionId in
  Text.includes "grep" line = false →
  Forall (fun l => newline_free l = true) lines →
  line ∈ lines →
  respond w (tick s) ExecPs = ExecOutput (unlines lines) →
  (run w (isTUIAttached port) s).1 = Resolved true.
Proof.
  intros line Hgrep Hfree Hin Hps.
  assert (is_attach_line port line = true) as Hline.
  { unfold is_attach_line. rewrite Hgrep. cbn [negb]. rewrite andb_true_r.
    subst line. destruct (attach_command_shape port sessionId) as [rest ->].
    apply andb_true_intro. split.
    - change ("opencode attach " +:+ ?x) with ("opencode attach" +:+ (" " +:+ x)).
      apply includes_inside.
    - apply includes_after, includes_inside. }
  unfold isTUIAttached.
  rewrite run_try_catch, run_bind. unfold call; cbn [run reply]. rewrite Hps.
  cbn [run fst]. f_equal. apply existsb_exists. exists line.
  split; [|done]. apply list_elem_of_In.
  rewrite split_lines_unlines; [done| |done]. intros ->. by inversion Hin.
Qed.

Lemma attach_command_is_recognised_witness :
  (run (world_of tuis_attached) (isTUIAttached 4097) boot).1 = Resolved true.
Proof.
  apply (attach_command_is_recognised (world_of tuis_attached) 4097
           (Some "ses_1") "user  203  0.0  0.1  " attach_table boot).
  - vm_compute. reflexivity.
  - repeat constructor.
  - do 3 apply list_elem_of_further. apply list_elem_of_here.
  - reflexivity.
Defined.

(** ** Stopping what was started *)



(** ** Relative time stamps *)

(** X26: [formatTimestamp] reads the clock once and names the age of a
    time stamp in the largest unit that fits: a time stamp less than a
    minute old, or in the future, is ["Just now"]; minutes are shown
    from 1 to 59, hours from 1 to 23 and days from 1 to 6, rounded
    down; from seven days on the date itself is shown. *)
Theorem formatTimestamp_units toLocaleString isoString w s :
  let age := clock s - isoString in
  ∃ text,
    run w (formatTimestamp toLocaleString isoString) s
    = (Resolved text, after_call w s DateNow)
    ∧ (age < 60000 → text = "Just now")
    ∧ (60000 ≤ age < 3600000 →
       1 ≤ age / 60000 ≤ 59
       ∧ text = Text.number_to_string (age / 60000) +:+ "m ago")
    ∧ (3600000 ≤ age < 86400000 →
       1 ≤ age / 3600000 ≤ 23
       ∧ text = Text.number_to_string (age / 3600000) +:+ "h ago")
    ∧ (86400000 ≤ age < 604800000 →
       1 ≤ age / 86400000 ≤ 6
       ∧ text = Text.number_to_string (age / 86400000) +:+ "d ago")
    ∧ (604800000 ≤ age → text = toLocaleString isoString).
Proof.
  intros age. unfold formatTimestamp.
  rewrite run_bind. unfold call at 1; cbn [run reply]. fold age.
  assert (∀ d q, 0 < d → (age / d <? q) = (age <? q * d)) as Hdiv.
  { intros d q Hd.
    pose proof (Z.div_mod age d) as Hdm.
    pose proof (Z.mod_pos_bound age d Hd) as Hmod.
    destruct (Z.ltb_spec (age / d) q), (Z.ltb_spec age (q * d)); try done; nia. }
  rewrite !Hdiv by lia.
  destruct (Z.ltb_spec age (1 * 60000)); [|destruct (Z.ltb_spec age (60 * 60000));
    [|destruct (Z.ltb_spec age (24 * 3600000));
      [|destruct (Z.ltb_spec age (7 * 86400000))]]];
    cbn [run]; eexists; (split; [reflexivity|]);
    repeat split; try lia; intros; try lia;
    try (apply Z.div_le_lower_bound; lia);
    try (apply Z.lt_succ_r, Z.div_lt_upper_bound; lia); try reflexivity.
Qed.

(** ** The frames the hub writes *)

Section Frames.
Import EventHub HubVocabulary.

Lemma newline_free_append a b :
  newline_free (a +:+ b) = newline_free a && newline_free b.
Proof.
  induction a as [|c a IH]; [done|].
  change (String c a +:+ b) with (String c (a +:+ b)).
  cbn [newline_free]. by rewrite IH, andb_assoc.
Qed.

(** X27: what the hub writes for a forwarded event is one frame of the
    event stream: a line with the event type, a line with the data and
    an empty line, provided the data, as [JSON.stringify] prints it,
    holds no line break.  No type on the allow-list can break the
    frame. *)
Theorem forwarded_message_is_one_frame ty data :
  ty ∈ allow_list →
  newline_free data = true →
  Text.split_lines (sse_message ty data)
  = ["event: " +:+ ty; "data: " +:+ data; ""; ""].
Proof.
  intros Hty Hdata.
  assert (newline_free ty = true) as Hfree.
  { unfold allow_list in Hty.
    repeat (apply elem_of_cons in Hty as [->|Hty]; [by vm_compute|]).
    by apply elem_of_nil in Hty. }
  unfold sse_message.
  rewrite <- (append_assoc "event: " ty).
  change (String Text.newline ("data: " +:+ data)
            +:+ String Text.newline (String Text.newline ""))
    with (String Text.newline
            (("data: " +:+ data) +:+ String Text.newline (String Text.newline ""))).
  rewrite split_lines_cons
    by (rewrite newline_free_append, Hfree; by vm_compute).
  rewrite split_lines_cons
    by (rewrite newline_free_append, Hdata; by vm_compute).
  by vm_compute.
Qed.

Lemma forwarded_message_is_one_frame_witness :
  Text.split_lines (sse_message "message.created" "{}")
  = ["event: message.created"; "data: {}"; ""; ""].
Proof.
  apply (forwarded_message_is_one_frame "message.created" "{}").
  - unfold allow_list. apply list_elem_of_here.
  - reflexivity.
Defined.
End Frames.
